(** * Reversi board engine (src/reversi.py): shallow embedding and properties

    The Python class [ReversiGame] is embedded as a record of its attributes
    together with its methods, written in a small state-and-exception monad:
    a method takes the object's state and returns an outcome (a value or a
    raised Python exception) and the state the object is left in.  Integers
    are Python's unbounded integers, hence [Z]; [//] and [%] are [Z.div] and
    [Z.modulo] (both round towards minus infinity, as Python's do). *)

From Stdlib Require Import ZArith List Bool Lia FinFun.
From Stdlib Require Ascii String.
Import ListNotations.
Open Scope Z_scope.

(** ** Outcomes of a call *)

(** The Python exceptions the engine can raise. *)
Inductive exn : Type := ValueError | IndexError | TypeError | KeyError.

(** [Ok a]: normal return; [Raise e]: exception [e] propagates to the caller;
    [OutOfFuel]: the bound given to a [while] loop was exhausted (never a
    Python outcome; the loop of [update_move_dict] is shown to stay below
    its bound). *)
Inductive result (A : Type) : Type :=
| Ok (a : A)
| Raise (e : exn)
| OutOfFuel.
Arguments Ok {A} a.
Arguments Raise {A} e.
Arguments OutOfFuel {A}.

(** A computation over a mutable state [S]: the state is returned in every
    case, so that what an exception leaves behind can be observed. *)
Definition M (S A : Type) : Type := S -> result A * S.

Definition ret {S A} (a : A) : M S A := fun s => (Ok a, s).

Definition bind {S A B} (m : M S A) (k : A -> M S B) : M S B :=
  fun s =>
    match m s with
    | (Ok a, s') => k a s'
    | (Raise e, s') => (Raise e, s')
    | (OutOfFuel, s') => (OutOfFuel, s')
    end.

Definition raise {S A} (e : exn) : M S A := fun s => (Raise e, s).

Definition lift {S A} (r : result A) : M S A := fun s => (r, s).

Definition gets {S A} (f : S -> A) : M S A := fun s => (Ok (f s), s).

Definition modify {S} (f : S -> S) : M S unit := fun s => (Ok tt, f s).

Declare Scope monad_scope.
Delimit Scope monad_scope with monad.
Notation "x <- m ;; k" := (bind m (fun x => k))
  (at level 100, m at next level, right associativity) : monad_scope.
Notation "m ;; k" := (bind m (fun _ => k))
  (at level 100, right associativity) : monad_scope.
Open Scope monad_scope.

(** [for x in xs: body x]; an exception in the body leaves the loop. *)
Fixpoint for_each {S X} (xs : list X) (body : X -> M S unit) : M S unit :=
  match xs with
  | [] => ret tt
  | x :: xs' => body x ;; for_each xs' body
  end.

(** Binding of a plain [result], for code without state. *)
Definition rbind {A B} (r : result A) (k : A -> result B) : result B :=
  match r with
  | Ok a => k a
  | Raise e => Raise e
  | OutOfFuel => OutOfFuel
  end.

(** ** Python lists *)

(** [range(n)]: [0, 1, ..., n-1], empty when [n <= 0]. *)
Definition range (n : Z) : list Z := map Z.of_nat (seq 0 (Z.to_nat n)).

(** Position designated by index [i] in a list of length [len]: negative
    indices count from the end, anything outside [-len, len) is an
    [IndexError]. *)
Definition py_index (len i : Z) : result nat :=
  if (0 <=? i) && (i <? len) then Ok (Z.to_nat i)
  else if (- len <=? i) && (i <? 0) then Ok (Z.to_nat (len + i))
  else Raise IndexError.

Definition len {A} (l : list A) : Z := Z.of_nat (length l).

(** [l[i]] *)
Definition getitem {A} (l : list A) (i : Z) : result A :=
  rbind (py_index (len l) i) (fun n =>
    match nth_error l n with
    | Some x => Ok x
    | None => Raise IndexError
    end).

Fixpoint replace_nth {A} (n : nat) (x : A) (l : list A) : list A :=
  match l, n with
  | [], _ => []
  | _ :: t, O => x :: t
  | a :: t, S n' => a :: replace_nth n' x t
  end.

(** [l[i] = x] *)
Definition setitem {A} (l : list A) (i : Z) (x : A) : result (list A) :=
  rbind (py_index (len l) i) (fun n => Ok (replace_nth n x l)).

(** [sum(l)] *)
Definition sum (l : list Z) : Z := fold_left Z.add l 0.

(** ** Boards *)

(** [self.board]: a list of rows.  Cells are [1] (current player's piece),
    [-1] (enemy piece) and [0] (empty). *)
Definition grid : Type := list (list Z).

(** [board[i][j]] *)
Definition grid_get (b : grid) (i j : Z) : result Z :=
  rbind (getitem b i) (fun row => getitem row j).

(** [board[i][j] = v]: the row object is fetched and updated in place. *)
Definition grid_set (b : grid) (i j v : Z) : result grid :=
  rbind (getitem b i) (fun row =>
  rbind (setitem row j v) (fun row' =>
  setitem b i row')).

(** ** Coordinates, capture sets and the move dictionary *)

Definition coord : Type := (Z * Z)%type.

Definition coord_eqb (a b : coord) : bool :=
  (fst a =? fst b) && (snd a =? snd b).

(** A Python [set] of coordinates, kept as a duplicate-free list in order of
    insertion.  Python leaves the iteration order of a set unspecified; the
    only iteration over a capture set ([make_move]) stores the same value at
    every member, so the order chosen here cannot be observed. *)
Definition cset : Type := list coord.

Definition cset_mem (c : coord) (s : cset) : bool := existsb (coord_eqb c) s.

(** [s.add(c)] *)
Definition cset_add (c : coord) (s : cset) : cset :=
  if cset_mem c s then s else s ++ [c].

(** [s.update(t)] *)
Definition cset_update (s t : cset) : cset :=
  fold_left (fun acc c => cset_add c acc) t s.

(** A Python [dict] from coordinates to capture sets, as an association list
    in insertion order (the order in which [keys()] enumerates). *)
Definition dict : Type := list (coord * cset).

(** [d[k]] *)
Fixpoint dict_get (k : coord) (d : dict) : result cset :=
  match d with
  | [] => Raise KeyError
  | (k', v) :: d' => if coord_eqb k k' then Ok v else dict_get k d'
  end.

(** [d[k].update(t)]: the set stored at [k] is extended in place. *)
Fixpoint dict_update (k : coord) (t : cset) (d : dict) : result dict :=
  match d with
  | [] => Raise KeyError
  | (k', v) :: d' =>
      if coord_eqb k k' then Ok ((k', cset_update v t) :: d')
      else rbind (dict_update k t d') (fun d'' => Ok ((k', v) :: d''))
  end.

(** [{(x,y): set() for x in range(height) for y in range(width)}] *)
Definition fresh_dict (height width : Z) : dict :=
  flat_map (fun x => map (fun y => ((x, y), @nil coord)) (range width))
           (range height).

(** [[x for x in d.keys() if len(d[x]) != 0]] *)
Definition nonempty_keys (d : dict) : list coord :=
  map fst (filter (fun kv => negb (Nat.eqb (length (snd kv)) 0)) d).

(** ** The game object *)

Record Game : Type := mkGame {
  height : Z;
  width : Z;
  board : grid;
  curr_player : Z;
  move_dict : dict;
  possible_moves : list coord
}.

Definition set_board (b : grid) (g : Game) : Game :=
  mkGame (height g) (width g) b (curr_player g) (move_dict g) (possible_moves g).

Definition set_curr_player (p : Z) (g : Game) : Game :=
  mkGame (height g) (width g) (board g) p (move_dict g) (possible_moves g).

Definition set_move_dict (d : dict) (g : Game) : Game :=
  mkGame (height g) (width g) (board g) (curr_player g) d (possible_moves g).

Definition set_possible_moves (l : list coord) (g : Game) : Game :=
  mkGame (height g) (width g) (board g) (curr_player g) (move_dict g) l.

(** ** update_move_dict *)

Definition directions : list (Z * Z) :=
  [(-1, -1); (-1, 0); (-1, 1); (0, -1); (0, 1); (1, -1); (1, 0); (1, 1)].

(** [cursor_i<0 or cursor_i>self.height-1 or cursor_j<0 or cursor_j>self.width-1] *)
Definition off_board (height width ci cj : Z) : bool :=
  (ci <? 0) || (ci >? height - 1) || (cj <? 0) || (cj >? width - 1).

(** The [while self.board[cursor_i][cursor_j]==-1] loop of one direction
    [(h,v)]; returns the cursor and the set [flipped] at loop exit. *)
Fixpoint walk (fuel : nat) (height width : Z) (b : grid) (h v : Z)
         (ci cj : Z) (flipped : cset) : result (Z * Z * cset) :=
  match fuel with
  | O => OutOfFuel
  | S fuel' =>
      rbind (grid_get b ci cj) (fun c =>
        if c =? -1 then
          if off_board height width (ci + h) (cj + v)
          then Ok (ci, cj, flipped)
          else walk fuel' height width b h v (ci + h) (cj + v)
                    (cset_add (ci, cj) flipped)
        else Ok (ci, cj, flipped))
  end.

(** A cursor moves by one cell per iteration and stays on the board, so the
    loop runs at most [max height width] times. *)
Definition walk_fuel (height width : Z) : nat := Z.to_nat (height + width).

(** Body of [for h,v in directions] for the empty square [(i,j)]; the state
    is [self.move_dict]. *)
Definition scan_direction (height width : Z) (b : grid) (i j : Z)
           (d : Z * Z) : M dict unit :=
  let '(h, v) := d in
  if off_board height width (i + h) (j + v) then ret tt
  else
    r <- lift (walk (walk_fuel height width) height width b h v
                    (i + h) (j + v) []) ;;
    let '(ci, cj, flipped) := r in
    c <- lift (grid_get b ci cj) ;;
    if c =? 1 then
      md <- gets (fun md => md) ;;
      md' <- lift (dict_update (i, j) flipped md) ;;
      modify (fun _ => md')
    else ret tt.

(** The two nested loops over the squares of the board. *)
Definition scan_board (height width : Z) (b : grid) : M dict unit :=
  for_each (range height) (fun i =>
    for_each (range width) (fun j =>
      c <- lift (grid_get b i j) ;;
      if c =? 0 then for_each directions (scan_direction height width b i j)
      else ret tt)).

(** The dictionary [update_move_dict] builds for a board, starting from the
    fresh all-empty one. *)
Definition compute_move_dict (height width : Z) (b : grid) : result unit * dict :=
  scan_board height width b (fresh_dict height width).

Definition update_move_dict : M Game unit :=
  fun g =>
    match compute_move_dict (height g) (width g) (board g) with
    | (Ok _, md) =>
        (Ok tt, set_possible_moves (nonempty_keys md) (set_move_dict md g))
    | (Raise e, md) => (Raise e, set_move_dict md g)
    | (OutOfFuel, md) => (OutOfFuel, set_move_dict md g)
    end.

(** ** flip_board *)

Definition flip (b : grid) : grid := map (map Z.opp) b.

Definition flip_board : M Game unit :=
  modify (fun g => set_board (flip (board g)) g).

(** ** __init__ *)

(** [[[0 for i in range(width)] for j in range(height)]] *)
Definition blank_board (height width : Z) : grid :=
  map (fun _ => map (fun _ => 0) (range width)) (range height).

Definition new (height width : Z) : result Game :=
  if negb (height mod 2 =? 0) || negb (width mod 2 =? 0)
  then Raise ValueError
  else
    let b0 := blank_board height width in
    rbind (grid_set b0 (height / 2 - 1) (width / 2 - 1) 1) (fun b1 =>
    rbind (grid_set b1 (height / 2) (width / 2 - 1) (-1)) (fun b2 =>
    rbind (grid_set b2 (height / 2 - 1) (width / 2) (-1)) (fun b3 =>
    rbind (grid_set b3 (height / 2) (width / 2) 1) (fun b4 =>
      let g := mkGame height width b4 1 (fresh_dict height width) [] in
      match update_move_dict g with
      | (Ok _, g') => Ok g'
      | (Raise e, _) => Raise e
      | (OutOfFuel, _) => OutOfFuel
      end)))).

(** ** make_move *)

(** [a < b] and [a > b] where [a] may be [None]: ordering [None] against an
    integer is a [TypeError]. *)
Definition py_lt (a : option Z) (b : Z) : result bool :=
  match a with
  | Some x => Ok (x <? b)
  | None => Raise TypeError
  end.

Definition py_gt (a : option Z) (b : Z) : result bool :=
  match a with
  | Some x => Ok (x >? b)
  | None => Raise TypeError
  end.

Definition is_None (a : option Z) : bool :=
  match a with
  | None => true
  | Some _ => false
  end.

(** [i<0 or i>self.height-1 or j<0 or j>self.width-1], evaluated left to
    right and stopping at the first true disjunct. *)
Definition out_of_bounds (i j : option Z) : M Game bool :=
  c1 <- lift (py_lt i 0) ;;
  if c1 then ret true else
  h <- gets height ;;
  c2 <- lift (py_gt i (h - 1)) ;;
  if c2 then ret true else
  c3 <- lift (py_lt j 0) ;;
  if c3 then ret true else
  w <- gets width ;;
  lift (py_gt j (w - 1)).

(** [self.board[x][y] = v] *)
Definition board_set (x y v : Z) : M Game unit :=
  b <- gets board ;;
  b' <- lift (grid_set b x y v) ;;
  modify (set_board b').

Definition make_move (i j : option Z) : M Game unit :=
  if is_None i && is_None j then
    flip_board ;;
    modify (fun g => set_curr_player (curr_player g * -1) g)
  else
    oob <- out_of_bounds i j ;;
    if oob then raise IndexError
    else
      match i, j with
      | Some i, Some j =>
          md <- gets move_dict ;;
          caps <- lift (dict_get (i, j) md) ;;
          if Nat.eqb (length caps) 0 then raise ValueError
          else
            board_set i j 1 ;;
            for_each caps (fun c => board_set (fst c) (snd c) 1) ;;
            flip_board ;;
            update_move_dict ;;
            modify (fun g => set_curr_player (curr_player g * -1) g)
      | _, _ =>
          (* not reached: a bounds test that returns false has compared
             both coordinates *)
          raise TypeError
      end.

(** ** check_winner *)

Definition check_winner : M Game (bool * Z) :=
  pm <- gets possible_moves ;;
  opp_out_of_moves <-
    (if Nat.eqb (length pm) 0 then
       flip_board ;;
       update_move_dict ;;
       pm' <- gets possible_moves ;;
       flip_board ;;
       update_move_dict ;;
       ret (Nat.eqb (length pm') 0)
     else ret false) ;;
  if opp_out_of_moves then
    b <- gets board ;;
    p <- gets curr_player ;;
    let s := sum (map sum b) in
    if s >? 0 then ret (true, p)
    else if s <? 0 then ret (true, - p)
    else ret (true, 0)
  else ret (false, 0).

(** ** Callers *)

(** A caller's sequence of [make_move] calls on one game object, as the loop
    of [play_game] issues them; it stops at the first call that raises. *)
Fixpoint play (moves : list (option Z * option Z)) : M Game unit :=
  match moves with
  | [] => ret tt
  | m :: rest => make_move (fst m) (snd m) ;; play rest
  end.

(** The states a game object can be in: what the constructor returns, and
    whatever a call of [make_move] or [check_winner] leaves behind, whether
    the call returned or raised. *)
Inductive reachable : Game -> Prop :=
| reach_new : forall h w g, new h w = Ok g -> reachable g
| reach_move : forall i j g r g',
    reachable g -> make_move i j g = (r, g') -> reachable g'
| reach_check : forall g r g',
    reachable g -> check_winner g = (r, g') -> reachable g'.

(** ** Vocabulary of the properties *)

(** [(i,j)] is a square of a [height] x [width] board. *)
Definition on_board (height width i j : Z) : Prop :=
  0 <= i < height /\ 0 <= j < width.

(** Every row-major coordinate of the board: the keys of [move_dict]. *)
Definition coords (height width : Z) : list coord :=
  flat_map (fun x => map (fun y => (x, y)) (range width)) (range height).

(** Content of square [(i,j)], for squares of the board. *)
Definition cell (b : grid) (i j : Z) : Z :=
  nth (Z.to_nat j) (nth (Z.to_nat i) b []) 0.

(** The board after the assignment [board[i][j] = v] at a square of the
    board. *)
Definition upd (b : grid) (i j v : Z) : grid :=
  replace_nth (Z.to_nat i)
    (replace_nth (Z.to_nat j) v (nth (Z.to_nat i) b [])) b.

(** [b] has [height] rows of [width] cells. *)
Definition rect (height width : Z) (b : grid) : Prop :=
  len b = height /\ Forall (fun row => len row = width) b.

(** Every cell is empty, a piece of the current player, or an enemy piece. *)
Definition cells_ok (b : grid) : Prop :=
  Forall (Forall (fun c => c = 0 \/ c = 1 \/ c = -1)) b.

(** A move dictionary for a [height] x [width] board: one key per square,
    and only squares of the board in the capture sets. *)
Definition dict_ok (height width : Z) (d : dict) : Prop :=
  map fst d = coords height width /\
  Forall (fun kv => Forall (fun c => on_board height width (fst c) (snd c))
                           (snd kv)) d.

(** Sum of [f] over a list. *)
Definition total {A} (f : A -> Z) (l : list A) : Z :=
  fold_right (fun a acc => f a + acc) 0 l.

(** Number of cells of a row, and of a board, holding [v]. *)
Definition count_row (v : Z) (row : list Z) : Z :=
  total (fun c => if c =? v then 1 else 0) row.

Definition count (v : Z) (b : grid) : Z := total (count_row v) b.

(** Number of non-empty cells. *)
Definition pieces (b : grid) : Z :=
  total (total (fun c => if c =? 0 then 0 else 1)) b.

(** The legal moves the rules give the player to whom [b] is oriented: the
    squares to which [update_move_dict], run on [b], assigns a non-empty
    capture set.  (On a rectangular board the computation returns,
    [compute_move_dict_ok].) *)
Definition legal_moves (height width : Z) (b : grid) : list coord :=
  nonempty_keys (snd (compute_move_dict height width b)).

(** The cache of [g] is the one [update_move_dict] computes for board [b]. *)
Definition cache_for (g : Game) (b : grid) : Prop :=
  compute_move_dict (height g) (width g) b = (Ok tt, move_dict g) /\
  possible_moves g = nonempty_keys (move_dict g).

(** What holds of every reachable state.  The cache is the one of the
    current board, or (after a pass) the one of the board before the flip. *)
Record Inv (g : Game) : Prop := mkInv {
  inv_height : 0 < height g /\ height g mod 2 = 0;
  inv_width : 0 < width g /\ width g mod 2 = 0;
  inv_rect : rect (height g) (width g) (board g);
  inv_cells : cells_ok (board g);
  inv_player : curr_player g = 1 \/ curr_player g = -1;
  inv_cache : cache_for g (board g) \/ cache_for g (flip (board g))
}.

(** The verdict [check_winner] reaches for player [p] when [mine] cells are
    the current player's and [theirs] the enemy's. *)
Definition verdict (p mine theirs : Z) : bool * Z :=
  if mine >? theirs then (true, p)
  else if mine <? theirs then (true, - p)
  else (true, 0).

(** The opening position of the 4 x 4 game. *)
Definition opening4 : Game :=
  mkGame 4 4
    [[0; 0; 0; 0]; [0; 1; -1; 0]; [0; -1; 1; 0]; [0; 0; 0; 0]] 1
    [((0, 0), []); ((0, 1), []); ((0, 2), [(1, 2)]); ((0, 3), []);
     ((1, 0), []); ((1, 1), []); ((1, 2), []); ((1, 3), [(1, 2)]);
     ((2, 0), [(2, 1)]); ((2, 1), []); ((2, 2), []); ((2, 3), []);
     ((3, 0), []); ((3, 1), [(2, 1)]); ((3, 2), []); ((3, 3), [])]
    [(0, 2); (1, 3); (2, 0); (3, 1)].

(** Five moves after which the second player, to move, has no legal move
    while the first player has three. *)
Definition blocking_line : list (option Z * option Z) :=
  [(Some 0, Some 2); (Some 0, Some 1); (Some 0, Some 0);
   (Some 0, Some 3); (Some 2, Some 3)].

(** The position after [blocking_line], second player to move. *)
Definition blocked4 : Game := snd (play blocking_line opening4).

(** [blocked4] after the second player has passed. *)
Definition passed4 : Game := snd (make_move None None blocked4).

(** Number of steps a cursor at [(ci,cj)] can still take in direction
    [(h,v)] before a step would leave the board: the measure that bounds the
    [while] loop. *)
Definition room (height width h v ci cj : Z) : Z :=
  (if h >? 0 then height - 1 - ci else if h <? 0 then ci else 0) +
  (if v >? 0 then width - 1 - cj else if v <? 0 then cj else 0).

(** The state [update_move_dict] leaves when it returns: the cache is the
    one of the current board. *)
Definition refreshed (g : Game) : Game :=
  let md := snd (compute_move_dict (height g) (width g) (board g)) in
  set_possible_moves (nonempty_keys md) (set_move_dict md g).

(** The opening layout on a [height] x [width] board: the current player's
    pieces on one diagonal of the four centre squares, the enemy's on the
    other, every other square empty. *)
Definition opening_cell (height width i j : Z) : Z :=
  if ((i =? height / 2 - 1) && (j =? width / 2 - 1))
     || ((i =? height / 2) && (j =? width / 2)) then 1
  else if ((i =? height / 2) && (j =? width / 2 - 1))
          || ((i =? height / 2 - 1) && (j =? width / 2)) then -1
  else 0.

(** The board the constructor has built when it calls [update_move_dict]. *)
Definition opening_board (height width : Z) : grid :=
  upd (upd (upd (upd (blank_board height width)
                     (height / 2 - 1) (width / 2 - 1) 1)
                (height / 2) (width / 2 - 1) (-1))
           (height / 2 - 1) (width / 2) (-1))
      (height / 2) (width / 2) 1.

(** The opening position of the 2 x 2 game: the four pieces fill the board
    and nobody can move. *)
Definition opening2 : Game :=
  mkGame 2 2 [[1; -1]; [-1; 1]] 1
    [((0, 0), []); ((0, 1), []); ((1, 0), []); ((1, 1), [])] [].

(** ** Vocabulary of the capture rule *)

(** The square [k] steps from [(i,j)] in direction [d]. *)
Definition step_to (i j : Z) (d : Z * Z) (k : Z) : coord :=
  (i + k * fst d, j + k * snd d).

(** The rule of the game along one direction: from [(i,j)], direction [d]
    shows [n >= 1] enemy pieces in a row and then a piece of the current
    player, all on the board; [c] is one of the [n] enemy pieces. *)
Definition captures_along (height width : Z) (b : grid) (i j : Z)
           (d : Z * Z) (c : coord) : Prop :=
  exists n k,
    1 <= k <= n /\ c = step_to i j d k /\
    (forall m, 1 <= m <= n ->
       on_board height width (fst (step_to i j d m)) (snd (step_to i j d m)) /\
       cell b (fst (step_to i j d m)) (snd (step_to i j d m)) = -1) /\
    on_board height width (fst (step_to i j d (n + 1)))
             (snd (step_to i j d (n + 1))) /\
    cell b (fst (step_to i j d (n + 1))) (snd (step_to i j d (n + 1))) = 1.

(** The rule of the game: playing at [(i,j)] captures [c]. *)
Definition captured (height width : Z) (b : grid) (i j : Z) (c : coord) : Prop :=
  cell b i j = 0 /\
  exists d, In d directions /\ captures_along height width b i j d c.

(** The set stored at key [k], empty for a missing key. *)
Definition lookup (k : coord) (d : dict) : cset :=
  match dict_get k d with
  | Ok v => v
  | _ => []
  end.

(** [d[k].update(t)] as a function, for a key of the dictionary. *)
Fixpoint add_caps (k : coord) (t : cset) (d : dict) : dict :=
  match d with
  | [] => []
  | (k', v) :: d' =>
      if coord_eqb k k' then (k', cset_update v t) :: d'
      else (k', v) :: add_caps k t d'
  end.

(** The set one direction contributes to the entry of [(i,j)]: what the
    [while] loop collected if it stopped on a piece of the current player,
    nothing otherwise. *)
Definition dir_caps (height width : Z) (b : grid) (i j : Z) (d : Z * Z) : cset :=
  if off_board height width (i + fst d) (j + snd d) then []
  else
    match walk (walk_fuel height width) height width b (fst d) (snd d)
               (i + fst d) (j + snd d) [] with
    | Ok (ci, cj, flipped) => if cell b ci cj =? 1 then flipped else []
    | _ => []
    end.

(** The updates [update_move_dict] makes, in order: one per empty square
    and direction. *)
Definition updates (height width : Z) (b : grid) : list (coord * cset) :=
  flat_map (fun i =>
    flat_map (fun j =>
      if cell b i j =? 0
      then map (fun d => ((i, j), dir_caps height width b i j d)) directions
      else [])
      (range width))
    (range height).

Definition apply_updates (us : list (coord * cset)) (d : dict) : dict :=
  fold_left (fun d u => add_caps (fst u) (snd u) d) us d.

(** The board after the loop of [make_move] that turns the captured pieces:
    [1] stored at every square of [caps], in order. *)
Definition paint (caps : cset) (b : grid) : grid :=
  fold_left (fun b c => upd b (fst c) (snd c) 1) caps b.

(** The object after the move at [(i,j)] with capture set [caps]: piece
    placed, captures turned, board flipped, cache recomputed, player
    changed. *)
Definition moved (g : Game) (i j : Z) (caps : cset) : Game :=
  set_curr_player (curr_player g * -1)
    (refreshed (set_board (flip (paint caps (upd (board g) i j 1))) g)).

(** ** Text and the console *)

(** A Python [str]: the sequence of its code points. *)
Definition pystr : Type := list Z.

(** The string literals of the source that are plain ASCII. *)
Module Text.
Import Stdlib.Strings.Ascii Stdlib.Strings.String.

Definition lit (s : string) : pystr :=
  List.map (fun a => Z.of_N (N_of_ascii a)) (list_ascii_of_string s).

Definition alphabet : pystr := lit "abcdefghijklmnopqrstuvwxyz".
Definition alpha : pystr :=
  lit "a b c d e f g h i j k l m n o p q r s t u v w x y z ".
Definition margin : pystr := lit "   ".
Definition pass : pystr := lit "pass".
Definition quit : pystr := lit "quit".
Definition wins : pystr := lit "wins!".
Definition move_prompt : pystr := lit " 's Move: ".
Definition o : pystr := lit "o".
Definition x : pystr := lit "x".
Definition hint : pystr := lit "?".
Definition dot : pystr := lit ".".
Definition space : pystr := lit " ".

End Text.

(** [u'○'], [u'●'], [u'∗'] and [u'·']. *)
Definition white_circle : Z := 9675.
Definition black_circle : Z := 9679.
Definition asterisk : Z := 8727.
Definition middle_dot : Z := 183.

(** [a == b] on strings. *)
Fixpoint pystr_eqb (a b : pystr) : bool :=
  match a, b with
  | [], [] => true
  | x :: a', y :: b' => (x =? y) && pystr_eqb a' b'
  | _, _ => false
  end.

(** [l[:n]]: the first [n] members, or all but the last [-n] when [n] is
    negative. *)
Definition slice_to {A} (l : list A) (n : Z) : list A :=
  if 0 <=? n then firstn (Z.to_nat n) l
  else firstn (Z.to_nat (len l + n)) l.

(** [enumerate(l)] *)
Definition enumerate {A} (l : list A) : list (Z * A) :=
  combine (range (len l)) l.

(** The decimal digits of a natural number, most significant first; [fuel]
    bounds the number of digits. *)
Fixpoint digits (fuel : nat) (n : Z) : pystr :=
  match fuel with
  | O => []
  | S fuel' =>
      if n <? 10 then [48 + n]
      else digits fuel' (n / 10) ++ [48 + n mod 10]
  end.

(** [str(n)] for an integer. *)
Definition str_int (n : Z) : pystr :=
  if n <? 0 then 45 :: digits (S (Z.to_nat (- n))) (- n)
  else digits (S (Z.to_nat n)) n.

(** What has been written to standard output: the argument of a [print]
    (a newline follows it) or the prompt of an [input]. *)
Inductive written : Type :=
| Line (s : pystr)
| Prompt (s : pystr).

(** The world around the game: what has been written, the lines still to
    be read from standard input, and the source of random numbers (the
    [n]-th draw is [rng n]). *)
Record Console : Type := mkConsole {
  out : list written;
  inp : list pystr;
  rng : nat -> nat;
  draws : nat
}.

(** A game object together with the console. *)
Definition Scene : Type := (Game * Console)%type.

(** A method of the game object, run in a scene. *)
Definition self {A} (m : M Game A) : M Scene A :=
  fun s =>
    match m (fst s) with
    | (r, g') => (r, (g', snd s))
    end.

(** [print(s)] *)
Definition print (s : pystr) : M Scene unit :=
  modify (fun sc =>
    (fst sc, mkConsole (out (snd sc) ++ [Line s]) (inp (snd sc))
                       (rng (snd sc)) (draws (snd sc)))).

(** ** print_board and fancy_print *)

(** The branches that choose what to show for the cell [y] at [(i,j)]:
    [mine] for 1, [theirs] for -1, [hint] for an empty square whose capture
    set is not empty, [other] for the rest.  The dictionary is looked up
    for empty squares only. *)
Definition glyph (mine theirs hint other : pystr) (i j y : Z) : M Scene pystr :=
  if y =? 1 then ret mine
  else if y =? -1 then ret theirs
  else if y =? 0 then
    md <- self (gets move_dict) ;;
    caps <- lift (dict_get (i, j) md) ;;
    if negb (Nat.eqb (length caps) 0) then ret hint else ret other
  else ret other.

(** [for j,y in enumerate(x): out.append(...)], from the list [acc]. *)
Fixpoint glyph_row (mine theirs hint other : pystr) (i : Z)
         (ys : list (Z * Z)) (acc : list pystr) : M Scene (list pystr) :=
  match ys with
  | [] => ret acc
  | jy :: rest =>
      s <- glyph mine theirs hint other i (fst jy) (snd jy) ;;
      glyph_row mine theirs hint other i rest (acc ++ [s])
  end.

Definition print_board : M Scene unit :=
  b <- self (gets board) ;;
  for_each (enumerate b) (fun ix =>
    cells <- glyph_row Text.o Text.x Text.hint Text.dot (fst ix)
                       (enumerate (snd ix)) [] ;;
    print (concat cells)).

Definition fancy_print : M Scene unit :=
  p <- self (gets curr_player) ;;
  (if p =? -1 then self flip_board else ret tt) ;;
  w <- self (gets width) ;;
  print (Text.margin ++ slice_to Text.alpha (2 * w)) ;;
  b <- self (gets board) ;;
  for_each (enumerate b) (fun ix =>
    cells <- glyph_row [white_circle; 32] [black_circle; 32]
                       [asterisk; 32] [middle_dot; 32] (fst ix)
                       (enumerate (snd ix))
                       (if fst ix <? 10
                        then [Text.space; str_int (fst ix); Text.space]
                        else [str_int (fst ix); Text.space]) ;;
    print (concat cells)) ;;
  p' <- self (gets curr_player) ;;
  if p' =? -1 then self flip_board else ret tt.

(** ** Vocabulary of the printing properties *)

(** What [glyph] returns when the dictionary has the key it looks up. *)
Definition shown (mine theirs hint other : pystr) (md : dict)
           (i j y : Z) : pystr :=
  if y =? 1 then mine
  else if y =? -1 then theirs
  else if (y =? 0) && negb (Nat.eqb (length (lookup (i, j) md)) 0) then hint
  else other.

(** The line printed for row [i]: the strings of [acc] and one string per
    cell, joined. *)
Definition row_text (mine theirs hint other : pystr) (md : dict) (i : Z)
           (row : list Z) (acc : list pystr) : pystr :=
  concat (acc ++ map (fun jy => shown mine theirs hint other md i
                                      (fst jy) (snd jy))
                     (enumerate row)).

(** The lines of [print_board]. *)
Definition board_text (g : Game) : list pystr :=
  map (fun ix => row_text Text.o Text.x Text.hint Text.dot (move_dict g)
                          (fst ix) (snd ix) [])
      (enumerate (board g)).

(** The board as [fancy_print] shows it: flipped when the second player is
    to move, so that 1 is always the first player. *)
Definition oriented (g : Game) : grid :=
  if curr_player g =? -1 then flip (board g) else board g.

(** The row label of [fancy_print]. *)
Definition row_label (i : Z) : list pystr :=
  if i <? 10 then [Text.space; str_int i; Text.space]
  else [str_int i; Text.space].

(** The lines of [fancy_print]. *)
Definition fancy_text (g : Game) : list pystr :=
  (Text.margin ++ slice_to Text.alpha (2 * width g))
  :: map (fun ix => row_text [white_circle; 32] [black_circle; 32]
                             [asterisk; 32] [middle_dot; 32] (move_dict g)
                             (fst ix) (snd ix) (row_label (fst ix)))
         (enumerate (oriented g)).

(** The console after the lines [texts] have been printed. *)
Definition say (texts : list pystr) (c : Console) : Console :=
  mkConsole (out c ++ map Line texts) (inp c) (rng c) (draws c).

(** The character [print_board] shows for square [(i,j)]. *)
Definition board_char (g : Game) (i j : Z) : Z :=
  if cell (board g) i j =? 1 then 111
  else if cell (board g) i j =? -1 then 120
  else if cset_mem (i, j) (possible_moves g) then 63
  else 46.

(** The character [fancy_print] shows for square [(i,j)]: by the colour of
    the piece, whoever is to move. *)
Definition fancy_char (g : Game) (i j : Z) : Z :=
  if curr_player g * cell (board g) i j =? 1 then white_circle
  else if curr_player g * cell (board g) i j =? -1 then black_circle
  else if cset_mem (i, j) (possible_moves g) then asterisk
  else middle_dot.

(** Character [j] of line [i] of a text. *)
Definition char_at (texts : list pystr) (i j : Z) : Z :=
  nth (Z.to_nat j) (nth (Z.to_nat i) texts []) 0.

(** ** play_game *)

(** A dictionary from strings to integers, in insertion order.  The two
    dictionaries of [play_game] are built with distinct keys, so the first
    entry that matches a key is its entry. *)
Definition sdict : Type := list (pystr * Z).

(** [d.get(k)]: [k in d] is [Some], and then the value is [d[k]]. *)
Fixpoint sdict_get (k : pystr) (d : sdict) : option Z :=
  match d with
  | [] => None
  | (k', v) :: d' => if pystr_eqb k k' then Some v else sdict_get k d'
  end.

(** [{x:y for y,x in enumerate(alphabet[:size_i])}] *)
Definition hmoves (size_i : Z) : sdict :=
  map (fun yx => ([snd yx], fst yx)) (enumerate (slice_to Text.alphabet size_i)).

(** [{str(k):k for k in range(size_j)}] *)
Definition vmoves (size_j : Z) : sdict :=
  map (fun k => (str_int k, k)) (range size_j).

(** How the inner loop, which reads a move, is left. *)
Inductive order : Type :=
| Move (out_move : option Z * option Z)
| Quit
| Eof
| Crash (e : exn).

(** [while not good_flag]: the lines typed are read until one is [pass],
    [quit], or a letter and a digit that name a possible move.  Every
    [input] writes its prompt; at the end of the input it raises
    [EOFError].  Returns the lines left and what has been written. *)
Fixpoint read_move (hm vm : sdict) (pmarker : Z) (possible : list coord)
         (lines : list pystr) (wr : list written)
  : order * list pystr * list written :=
  let wr' := wr ++ [Prompt (pmarker :: Text.move_prompt)] in
  match lines with
  | [] => (Eof, [], wr')
  | in_move :: rest =>
      if pystr_eqb in_move Text.pass then (Move (None, None), rest, wr')
      else if pystr_eqb in_move Text.quit then (Quit, rest, wr')
      else if pystr_eqb in_move [] then
        read_move hm vm pmarker possible rest wr'
      else
        match getitem in_move (-1) with
        | Ok last =>
            match sdict_get [last] vm with
            | Some r =>
                match sdict_get (slice_to in_move (-1)) hm with
                | Some c =>
                    if cset_mem (r, c) possible
                    then (Move (Some r, Some c), rest, wr')
                    else read_move hm vm pmarker possible rest wr'
                | None => read_move hm vm pmarker possible rest wr'
                end
            | None => read_move hm vm pmarker possible rest wr'
            end
        | Raise e => (Crash e, rest, wr')
        | OutOfFuel => (Crash IndexError, rest, wr')
        end
  end.

(** [random.choice(l)]: the member at a random position; [IndexError] on
    an empty list. *)
Definition choice {A} (l : list A) : M Scene A :=
  fun s =>
    match l with
    | [] => (Raise IndexError, s)
    | a :: _ =>
        (Ok (nth (Nat.modulo (rng (snd s) (draws (snd s))) (length l)) l a),
         (fst s, mkConsole (out (snd s)) (inp (snd s)) (rng (snd s))
                           (S (draws (snd s)))))
    end.

(** The reply of the random opponent ([if not two_players]). *)
Definition bot_reply : M Scene unit :=
  pm <- self (gets possible_moves) ;;
  if Nat.eqb (length pm) 0 then self (make_move None None)
  else
    m <- choice pm ;;
    self (make_move (Some (fst m)) (Some (snd m))).

(** [u'?○●'] *)
Definition winner_glyphs : pystr := [63; white_circle; black_circle].

(** How a run of [play_game] ends: by [return] (the game is over, or
    [quit] was typed), by an exception of the engine, by [EOFError] at the
    end of the input, or not within the given number of rounds. *)
Inductive ending : Type :=
| Returned
| Raised (e : exn)
| EndOfInput
| StillRunning.

(** What every round starts with: the screen is cleared, the board shown,
    and the winner checked. *)
Definition round_start : M Scene (bool * Z) :=
  print [27; 99] ;;
  fancy_print ;;
  print [10] ;;
  self check_winner.

(** [while True]: at most [fuel] rounds of it. *)
Fixpoint game_loop (fuel : nat) (hm vm : sdict) (two_players : bool)
         (s : Scene) : ending * Scene :=
  match fuel with
  | O => (StillRunning, s)
  | S fuel' =>
      match round_start s with
      | (Ok (done, who_won), s1) =>
          if done then
            match getitem winner_glyphs who_won with
            | Ok ch => (Returned, snd (print (ch :: 32 :: Text.wins) s1))
            | Raise e => (Raised e, s1)
            | OutOfFuel => (StillRunning, s1)
            end
          else
            let pmarker :=
              if curr_player (fst s1) =? 1 then white_circle
              else black_circle in
            match read_move hm vm pmarker (possible_moves (fst s1))
                            (inp (snd s1)) (out (snd s1)) with
            | (ord, rest, wr) =>
                let s2 := (fst s1, mkConsole wr rest (rng (snd s1))
                                             (draws (snd s1))) in
                match ord with
                | Move out_move =>
                    match self (make_move (fst out_move) (snd out_move)) s2 with
                    | (Ok _, s3) =>
                        if two_players
                        then game_loop fuel' hm vm two_players s3
                        else
                          match bot_reply s3 with
                          | (Ok _, s4) => game_loop fuel' hm vm two_players s4
                          | (Raise e, s4) => (Raised e, s4)
                          | (OutOfFuel, s4) => (StillRunning, s4)
                          end
                    | (Raise e, s3) => (Raised e, s3)
                    | (OutOfFuel, s3) => (StillRunning, s3)
                    end
                | Quit => (Returned, s2)
                | Eof => (EndOfInput, s2)
                | Crash e => (Raised e, s2)
                end
            end
      | (Raise e, s1) => (Raised e, s1)
      | (OutOfFuel, s1) => (StillRunning, s1)
      end
  end.

(** [play_game(size_i, size_j, two_players)] on a console.  Every round
    that does not end the run reads at least one line, so one round more
    than there are lines is all it can take.  The game object exists once
    the constructor has returned. *)
Definition play_game (size_i size_j : Z) (two_players : bool) (c : Console)
  : ending * option Game * Console :=
  let hm := hmoves size_i in
  let vm := vmoves size_j in
  match new size_i size_j with
  | Ok g =>
      match game_loop (S (length (inp c))) hm vm two_players (g, c) with
      | (e, (g', c')) => (e, Some g', c')
      end
  | Raise e => (Raised e, None, c)
  | OutOfFuel => (StillRunning, None, c)
  end.

(** ** Sample inputs *)

(** A 3 x 3 board that no game reaches, with one capture to make and a
    cell that holds no piece value. *)
Definition sample3 : Game :=
  mkGame 3 3 [[0; -1; 1]; [0; 0; 0]; [2; 0; 0]] 1 [] [].

(** A console on which [c0], an empty line and [quit] are typed; the
    random source always draws 0. *)
Definition typed_c0 : Console :=
  mkConsole [] [[99; 48]; []; Text.quit] (fun _ => O) O.

(** ** Vocabulary of the length of a game *)

(** The number of calls by coordinates in a sequence of calls of
    [make_move]. *)
Definition placed (moves : list (option Z * option Z)) : Z :=
  total (fun m => match m with
                  | (Some _, Some _) => 1
                  | _ => 0
                  end) moves.

(** * Properties *)

(** Case analysis on every integer equality test of the goal. *)
Ltac eqb_cases :=
  repeat match goal with
  | |- context [?a =? ?c] => destruct (Z.eqb_spec a c)
  end;
  simpl; try reflexivity; try lia.

(** ** Loops *)

(** A loop whose body always returns and keeps [P] returns and keeps [P]. *)
Lemma for_each_ok {S X} (P : S -> Prop) (xs : list X) (body : X -> M S unit) :
  (forall x s, In x xs -> P s -> exists s', body x s = (Ok tt, s') /\ P s') ->
  forall s, P s -> exists s', for_each xs body s = (Ok tt, s') /\ P s'.
Proof.
  induction xs as [|x xs IH]; intros Hbody s Hs.
  - exists s. split; [reflexivity | assumption].
  - destruct (Hbody x s (or_introl eq_refl) Hs) as [s1 [E1 P1]].
    destruct (IH (fun y t Hy => Hbody y t (or_intror Hy)) s1 P1) as [s2 [E2 P2]].
    exists s2. split; [|assumption].
    simpl. unfold bind. rewrite E1. exact E2.
Qed.

(** ** Python lists *)

Lemma in_range (n i : Z) : In i (range n) <-> 0 <= i < n.
Proof.
  unfold range. rewrite in_map_iff. split.
  - intros [k [<- Hk]]. apply in_seq in Hk. lia.
  - intros H. exists (Z.to_nat i). split; [lia|]. apply in_seq. lia.
Qed.

Lemma len_range (n : Z) : 0 <= n -> len (range n) = n.
Proof.
  intros H. unfold len, range. rewrite length_map, length_seq. lia.
Qed.

Lemma py_index_nonneg (n i : Z) :
  0 <= i < n -> py_index n i = Ok (Z.to_nat i).
Proof.
  intros H. unfold py_index.
  replace (0 <=? i) with true by (symmetry; apply Z.leb_le; lia).
  replace (i <? n) with true by (symmetry; apply Z.ltb_lt; lia).
  reflexivity.
Qed.

(** An index outside [-len, len) raises. *)
Lemma py_index_outside (n i : Z) :
  i < - n \/ n <= i -> 0 <= n -> @py_index n i = Raise IndexError.
Proof.
  intros H Hn. unfold py_index.
  destruct (0 <=? i) eqn:E1; destruct (i <? n) eqn:E2;
    destruct (- n <=? i) eqn:E3; destruct (i <? 0) eqn:E4; simpl;
    try reflexivity; exfalso;
    repeat match goal with
    | H : (_ <=? _) = true |- _ => apply Z.leb_le in H
    | H : (_ <=? _) = false |- _ => apply Z.leb_gt in H
    | H : (_ <? _) = true |- _ => apply Z.ltb_lt in H
    | H : (_ <? _) = false |- _ => apply Z.ltb_ge in H
    end; lia.
Qed.

Lemma getitem_nonneg {A} (l : list A) (i : Z) (d : A) :
  0 <= i < len l -> getitem l i = Ok (nth (Z.to_nat i) l d).
Proof.
  intros H. unfold getitem. rewrite py_index_nonneg by assumption. simpl.
  rewrite (nth_error_nth' l d) by (unfold len in H; lia). reflexivity.
Qed.

Lemma getitem_nil {A} (i : Z) : getitem (@nil A) i = Raise IndexError.
Proof.
  unfold getitem. rewrite py_index_outside; [reflexivity | | ]; unfold len; simpl; lia.
Qed.

Lemma setitem_nonneg {A} (l : list A) (i : Z) (x : A) :
  0 <= i < len l -> setitem l i x = Ok (replace_nth (Z.to_nat i) x l).
Proof.
  intros H. unfold setitem. rewrite py_index_nonneg by assumption. reflexivity.
Qed.

Lemma setitem_nil {A} (i : Z) (x : A) : setitem (@nil A) i x = Raise IndexError.
Proof.
  unfold setitem. rewrite py_index_outside; [reflexivity | | ]; unfold len; simpl; lia.
Qed.

Lemma length_replace_nth {A} (n : nat) (x : A) (l : list A) :
  length (replace_nth n x l) = length l.
Proof.
  revert n. induction l as [|a l IH]; intros [|n]; simpl; auto.
Qed.

Lemma nth_replace_nth_same {A} (n : nat) (x d : A) (l : list A) :
  (n < length l)%nat -> nth n (replace_nth n x l) d = x.
Proof.
  revert n. induction l as [|a l IH]; intros [|n] H; simpl in *;
    try lia; auto. apply IH. lia.
Qed.

Lemma nth_replace_nth_other {A} (n k : nat) (x d : A) (l : list A) :
  k <> n -> nth k (replace_nth n x l) d = nth k l d.
Proof.
  revert n k. induction l as [|a l IH]; intros [|n] [|k] H; simpl;
    try reflexivity; try congruence. apply IH. congruence.
Qed.

(** Replacing a member by one that satisfies [P] keeps [Forall P]. *)
Lemma Forall_replace_nth {A} (P : A -> Prop) (n : nat) (x : A) (l : list A) :
  P x -> Forall P l -> Forall P (replace_nth n x l).
Proof.
  intros Hx. revert n. induction l as [|a l IH]; intros [|n] H; simpl;
    inversion H; subst; constructor; auto.
Qed.

(** A member of a list satisfies what all of them do; the default too. *)
Lemma Forall_nth_default {A} (P : A -> Prop) (l : list A) (n : nat) (d : A) :
  P d -> Forall P l -> P (nth n l d).
Proof.
  intros Hd H. revert n. induction H; intros [|n]; simpl; auto.
Qed.

(** ** Boards *)

Lemma off_board_false (h w i j : Z) :
  off_board h w i j = false <-> on_board h w i j.
Proof.
  unfold off_board, on_board. rewrite !orb_false_iff.
  rewrite !Z.ltb_ge, !Z.gtb_ltb, !Z.ltb_ge. lia.
Qed.

Lemma off_board_true (h w i j : Z) :
  off_board h w i j = true <-> ~ on_board h w i j.
Proof.
  rewrite <- off_board_false. destruct (off_board h w i j); split; congruence.
Qed.

Section Rectangular.

Variables (h w : Z) (b : grid).
Hypothesis Hrect : rect h w b.

Lemma rect_row (i : Z) : 0 <= i < h -> len (nth (Z.to_nat i) b []) = w.
Proof.
  intros Hi. destruct Hrect as [Hlen Hrows].
  rewrite Forall_forall in Hrows. apply Hrows. apply nth_In.
  unfold len in Hlen. lia.
Qed.

(** Reading a square of the board never raises. *)
Lemma grid_get_on_board (i j : Z) :
  on_board h w i j -> grid_get b i j = Ok (cell b i j).
Proof.
  intros [Hi Hj]. unfold grid_get, cell.
  rewrite (getitem_nonneg b i []) by (destruct Hrect; lia). simpl.
  apply getitem_nonneg. rewrite rect_row; assumption.
Qed.

(** Writing a square of the board never raises. *)
Lemma grid_set_on_board (i j v : Z) :
  on_board h w i j -> grid_set b i j v = Ok (upd b i j v).
Proof.
  intros [Hi Hj]. unfold grid_set, upd.
  rewrite (getitem_nonneg b i []) by (destruct Hrect; lia). simpl.
  rewrite setitem_nonneg by (rewrite rect_row; assumption). simpl.
  apply setitem_nonneg. destruct Hrect; lia.
Qed.

Lemma rect_upd (i j v : Z) : on_board h w i j -> rect h w (upd b i j v).
Proof.
  intros [Hi Hj]. pose proof (rect_row i Hi) as Hr.
  destruct Hrect as [Hlen Hrows]. split.
  - unfold upd, len. rewrite length_replace_nth. exact Hlen.
  - unfold upd. apply Forall_replace_nth; [|assumption].
    unfold len in *. rewrite length_replace_nth. exact Hr.
Qed.

Lemma cell_upd (i j v i' j' : Z) :
  on_board h w i j -> 0 <= i' -> 0 <= j' ->
  cell (upd b i j v) i' j' =
  if (i' =? i) && (j' =? j) then v else cell b i' j'.
Proof.
  intros [Hi Hj] Hi' Hj'. pose proof (rect_row i Hi) as Hr.
  destruct Hrect as [Hlen _]. unfold cell, upd, len in *.
  destruct (Z.eqb_spec i' i) as [->|Ni]; simpl.
  - rewrite nth_replace_nth_same by lia.
    destruct (Z.eqb_spec j' j) as [->|Nj].
    + apply nth_replace_nth_same. lia.
    + apply nth_replace_nth_other. lia.
  - rewrite nth_replace_nth_other by lia. reflexivity.
Qed.

Lemma cells_ok_upd (i j v : Z) :
  cells_ok b -> v = 0 \/ v = 1 \/ v = -1 -> cells_ok (upd b i j v).
Proof.
  intros Hc Hv. unfold cells_ok, upd.
  apply Forall_replace_nth; [|assumption].
  apply Forall_replace_nth; [assumption|].
  apply Forall_nth_default; [constructor | assumption].
Qed.

Lemma rect_flip : rect h w (flip b).
Proof.
  destruct Hrect as [Hlen Hrows]. unfold rect, flip, len in *. split.
  - rewrite length_map. exact Hlen.
  - apply Forall_map. eapply Forall_impl; [|exact Hrows].
    intros row Hrow. simpl. rewrite length_map. exact Hrow.
Qed.

End Rectangular.

Lemma cell_flip (b : grid) (i j : Z) : cell (flip b) i j = - cell b i j.
Proof.
  unfold cell, flip.
  change (@nil Z) with (map Z.opp []) at 1. rewrite map_nth.
  change 0 with (- 0) at 1. rewrite map_nth. reflexivity.
Qed.

Lemma cells_ok_flip (b : grid) : cells_ok b -> cells_ok (flip b).
Proof.
  intros H. unfold cells_ok, flip. apply Forall_map.
  eapply Forall_impl; [|exact H]. intros row Hrow. simpl.
  apply Forall_map. eapply Forall_impl; [|exact Hrow].
  simpl. intros c Hc. lia.
Qed.

Lemma flip_involutive (b : grid) : flip (flip b) = b.
Proof.
  unfold flip. rewrite map_map. rewrite <- (map_id b) at 2.
  apply map_ext. intros row. rewrite map_map. rewrite <- (map_id row) at 2.
  apply map_ext. intros c. apply Z.opp_involutive.
Qed.

(** ** Capture sets and dictionaries *)

Lemma coord_eqb_eq (a c : coord) : coord_eqb a c = true <-> a = c.
Proof.
  destruct a as [a1 a2], c as [c1 c2]. unfold coord_eqb. simpl.
  rewrite andb_true_iff, !Z.eqb_eq. split.
  - intros [-> ->]. reflexivity.
  - intros E. inversion E. auto.
Qed.

Lemma Forall_cset_add (P : coord -> Prop) (c : coord) (s : cset) :
  P c -> Forall P s -> Forall P (cset_add c s).
Proof.
  intros Hc Hs. unfold cset_add. destruct (cset_mem c s); [assumption|].
  apply Forall_app. split; [assumption | constructor; auto].
Qed.

Lemma Forall_cset_update (P : coord -> Prop) (s t : cset) :
  Forall P s -> Forall P t -> Forall P (cset_update s t).
Proof.
  unfold cset_update. intros Hs Ht. revert s Hs.
  induction Ht as [|c t Hc Ht IH]; intros s Hs; simpl; [assumption|].
  apply IH. apply Forall_cset_add; assumption.
Qed.

Lemma in_coords (h w i j : Z) : In (i, j) (coords h w) <-> on_board h w i j.
Proof.
  unfold coords, on_board. rewrite in_flat_map. split.
  - intros [x [Hx Hin]]. apply in_map_iff in Hin.
    destruct Hin as [y [E Hy]]. inversion E; subst.
    apply in_range in Hx. apply in_range in Hy. auto.
  - intros [Hi Hj]. exists i. split; [apply in_range; assumption|].
    apply in_map_iff. exists j. split; [reflexivity | apply in_range; assumption].
Qed.

Lemma fresh_dict_keys (h w : Z) : map fst (fresh_dict h w) = coords h w.
Proof.
  unfold fresh_dict, coords. induction (range h) as [|x xs IH].
  - reflexivity.
  - cbn [flat_map]. rewrite map_app, map_map. f_equal. exact IH.
Qed.

Lemma fresh_dict_ok (h w : Z) : dict_ok h w (fresh_dict h w).
Proof.
  split; [apply fresh_dict_keys|].
  apply Forall_forall. intros [k s] Hin. unfold fresh_dict in Hin.
  apply in_flat_map in Hin. destruct Hin as [x [_ Hin]].
  apply in_map_iff in Hin. destruct Hin as [y [E _]].
  inversion E; subst. constructor.
Qed.

(** Looking up a key of the dictionary never raises. *)
Lemma dict_get_key (k : coord) (d : dict) :
  In k (map fst d) -> exists v, dict_get k d = Ok v /\ In (k, v) d.
Proof.
  induction d as [|[k' v'] d IH]; simpl; [tauto|]. intros Hin.
  destruct (coord_eqb k k') eqn:E.
  - apply coord_eqb_eq in E. subst. exists v'. auto.
  - destruct Hin as [Hk|Hin].
    + subst. assert (coord_eqb k k = true) by (apply coord_eqb_eq; reflexivity).
      congruence.
    + destruct (IH Hin) as [v [Hv Hi]]. exists v. auto.
Qed.

(** Extending the set at a key of the dictionary never raises; it keeps the
    keys, and keeps [P] on the members of the sets when the new members
    satisfy it. *)
Lemma dict_update_key (P : coord -> Prop) (k : coord) (t : cset) (d : dict) :
  In k (map fst d) -> Forall P t ->
  Forall (fun kv => Forall P (snd kv)) d ->
  exists d', dict_update k t d = Ok d' /\ map fst d' = map fst d /\
             Forall (fun kv => Forall P (snd kv)) d'.
Proof.
  intros Hin Ht. induction d as [|[k' v'] d IH]; simpl in *; [tauto|].
  intros Hd. inversion Hd as [|? ? Hv' Hd']; subst. simpl in Hv'.
  destruct (coord_eqb k k') eqn:E.
  - eexists. split; [reflexivity|]. split; [reflexivity|].
    constructor; [|assumption]. simpl. apply Forall_cset_update; assumption.
  - destruct Hin as [Hk|Hin].
    + subst. assert (coord_eqb k k = true) by (apply coord_eqb_eq; reflexivity).
      congruence.
    + destruct (IH Hin Hd') as [d' [E' [K' F']]]. rewrite E'. simpl.
      eexists. split; [reflexivity|]. split; [simpl; congruence|].
      constructor; assumption.
Qed.

(** ** update_move_dict on a rectangular board *)

Lemma direction_steps (d : Z * Z) :
  In d directions ->
  -1 <= fst d <= 1 /\ -1 <= snd d <= 1 /\ (fst d <> 0 \/ snd d <> 0).
Proof.
  unfold directions. simpl.
  intros H; repeat (destruct H as [<-|H]; [simpl; lia|]); contradiction.
Qed.

Section Scan.

Variables (rows cols : Z) (b : grid).
Hypothesis Hrect : rect rows cols b.

Let onb (c : coord) : Prop := on_board rows cols (fst c) (snd c).

Lemma room_nonneg (dh dv ci cj : Z) :
  on_board rows cols ci cj -> 0 <= room rows cols dh dv ci cj.
Proof.
  unfold on_board, room. intros H.
  destruct (dh >? 0), (dh <? 0), (dv >? 0), (dv <? 0); lia.
Qed.

Lemma room_step (dh dv ci cj : Z) :
  -1 <= dh <= 1 -> -1 <= dv <= 1 -> dh <> 0 \/ dv <> 0 ->
  room rows cols dh dv (ci + dh) (cj + dv) < room rows cols dh dv ci cj.
Proof.
  unfold room. intros Hh Hv Hd.
  destruct (Z.gtb_spec dh 0), (Z.ltb_spec dh 0),
           (Z.gtb_spec dv 0), (Z.ltb_spec dv 0); lia.
Qed.

(** The [while] loop leaves through its condition or its [break] before
    the fuel is spent, with the cursor on the board and only squares of
    the board collected. *)
Lemma walk_ok (fuel : nat) (dh dv : Z) :
  -1 <= dh <= 1 -> -1 <= dv <= 1 -> dh <> 0 \/ dv <> 0 ->
  forall ci cj fl,
    on_board rows cols ci cj -> Forall onb fl ->
    room rows cols dh dv ci cj < Z.of_nat fuel ->
    exists ci' cj' fl',
      walk fuel rows cols b dh dv ci cj fl = Ok (ci', cj', fl') /\
      on_board rows cols ci' cj' /\ Forall onb fl'.
Proof.
  intros Hh Hv Hd. induction fuel as [|n IH]; intros ci cj fl Hc Hfl Hroom.
  - pose proof (room_nonneg dh dv ci cj Hc). simpl in Hroom. lia.
  - cbn [walk]. rewrite (grid_get_on_board rows cols b Hrect ci cj Hc).
    cbn [rbind]. destruct (cell b ci cj =? -1).
    + destruct (off_board rows cols (ci + dh) (cj + dv)) eqn:Eoff.
      * exists ci, cj, fl. auto.
      * apply off_board_false in Eoff. apply IH.
        -- exact Eoff.
        -- apply Forall_cset_add; [exact Hc | exact Hfl].
        -- pose proof (room_step dh dv ci cj Hh Hv Hd). lia.
    + exists ci, cj, fl. auto.
Qed.

Lemma walk_fuel_enough (dh dv ci cj : Z) :
  on_board rows cols ci cj ->
  room rows cols dh dv ci cj < Z.of_nat (walk_fuel rows cols).
Proof.
  unfold on_board, room, walk_fuel. intros H.
  destruct (dh >? 0), (dh <? 0), (dv >? 0), (dv <? 0); lia.
Qed.

(** One direction from a square of the board: returns, and keeps the
    dictionary well formed. *)
Lemma scan_direction_ok (i j : Z) (d : Z * Z) (md : dict) :
  on_board rows cols i j -> In d directions -> dict_ok rows cols md ->
  exists md', scan_direction rows cols b i j d md = (Ok tt, md') /\
              dict_ok rows cols md'.
Proof.
  intros Hij Hd Hmd. destruct (direction_steps d Hd) as [Hh [Hv Hnz]].
  destruct d as [dh dv]. simpl in Hh, Hv, Hnz. unfold scan_direction.
  destruct (off_board rows cols (i + dh) (j + dv)) eqn:Eoff.
  - exists md. split; [reflexivity | assumption].
  - apply off_board_false in Eoff.
    destruct (walk_ok (walk_fuel rows cols) dh dv Hh Hv Hnz
                (i + dh) (j + dv) [] Eoff (Forall_nil _)
                (walk_fuel_enough dh dv _ _ Eoff))
      as [ci [cj [fl [Ew [Hc Hfl]]]]].
    unfold bind, lift. rewrite Ew.
    rewrite (grid_get_on_board rows cols b Hrect ci cj Hc).
    destruct (cell b ci cj =? 1).
    + destruct Hmd as [Hkeys Hsets].
      destruct (dict_update_key onb (i, j) fl md) as [md' [Eu [Hk' Hs']]].
      * rewrite Hkeys. apply in_coords. exact Hij.
      * exact Hfl.
      * exact Hsets.
      * unfold gets, modify. rewrite Eu. exists md'.
        split; [reflexivity|]. split; [congruence | exact Hs'].
    + exists md. split; [reflexivity | assumption].
Qed.

(** The scan of the whole board returns a well-formed dictionary. *)
Lemma scan_board_ok (md : dict) :
  dict_ok rows cols md ->
  exists md', scan_board rows cols b md = (Ok tt, md') /\
              dict_ok rows cols md'.
Proof.
  unfold scan_board. apply for_each_ok. intros i md1 Hi Hmd1.
  apply in_range in Hi. revert md1 Hmd1. apply for_each_ok.
  intros j md2 Hj Hmd2. apply in_range in Hj.
  assert (Hij : on_board rows cols i j) by (split; assumption).
  unfold bind, lift. rewrite (grid_get_on_board rows cols b Hrect i j Hij).
  destruct (cell b i j =? 0).
  - revert md2 Hmd2. apply for_each_ok. intros d md3 Hd Hmd3.
    apply scan_direction_ok; assumption.
  - exists md2. split; [reflexivity | assumption].
Qed.

Lemma compute_move_dict_ok :
  exists md, compute_move_dict rows cols b = (Ok tt, md) /\
             dict_ok rows cols md.
Proof.
  unfold compute_move_dict. apply scan_board_ok. apply fresh_dict_ok.
Qed.

End Scan.

(** ** The methods on a well-formed object *)

Lemma update_move_dict_rect (g : Game) :
  rect (height g) (width g) (board g) ->
  update_move_dict g = (Ok tt, refreshed g).
Proof.
  intros Hr. destruct (compute_move_dict_ok _ _ _ Hr) as [md [E _]].
  unfold update_move_dict, refreshed. rewrite E. reflexivity.
Qed.

Lemma refreshed_cache (g : Game) :
  rect (height g) (width g) (board g) -> cache_for (refreshed g) (board g).
Proof.
  intros Hr. destruct (compute_move_dict_ok _ _ _ Hr) as [md [E _]].
  unfold cache_for, refreshed. simpl. rewrite E. simpl. auto.
Qed.

(** Recomputing a cache that is up to date changes nothing. *)
Lemma refreshed_same (g : Game) : cache_for g (board g) -> refreshed g = g.
Proof.
  intros [E1 E2]. unfold refreshed. rewrite E1. simpl.
  destruct g; simpl in *. subst. reflexivity.
Qed.

Lemma cache_dict_ok (g : Game) (b : grid) :
  rect (height g) (width g) b -> cache_for g b ->
  dict_ok (height g) (width g) (move_dict g).
Proof.
  intros Hr [E _]. destruct (compute_move_dict_ok _ _ _ Hr) as [md [E' Hok]].
  congruence.
Qed.

Lemma inv_dict_ok (g : Game) :
  Inv g -> dict_ok (height g) (width g) (move_dict g).
Proof.
  intros I. destruct (inv_cache g I) as [C|C].
  - exact (cache_dict_ok g _ (inv_rect g I) C).
  - exact (cache_dict_ok g _ (rect_flip _ _ _ (inv_rect g I)) C).
Qed.

(** The list of possible moves holds exactly the keys with a non-empty
    capture set. *)
Lemma in_nonempty_keys (d : dict) (k : coord) (v : cset) :
  NoDup (map fst d) -> In (k, v) d ->
  (In k (nonempty_keys d) <-> v <> []).
Proof.
  unfold nonempty_keys. intros Hnd Hin. rewrite in_map_iff. split.
  - intros [[k' v'] [Ek Hf]]. simpl in Ek. subst k'.
    apply filter_In in Hf. destruct Hf as [Hin' Hne]. simpl in Hne.
    assert (v' = v).
    { clear Hne. induction d as [|[k0 v0] d IH]; simpl in *; [tauto|].
      inversion Hnd as [|? ? Hnot Hnd']; subst.
      destruct Hin as [E|Hin]; destruct Hin' as [E'|Hin'].
      - congruence.
      - inversion E; subst. exfalso. apply Hnot.
        apply in_map_iff. exists (k, v'). auto.
      - inversion E'; subst. exfalso. apply Hnot.
        apply in_map_iff. exists (k, v). auto.
      - auto. }
    subst v'. destruct v; [discriminate | congruence].
  - intros Hne. exists (k, v). split; [reflexivity|].
    apply filter_In. split; [assumption|]. simpl.
    destruct v; [congruence | reflexivity].
Qed.

Lemma NoDup_range (n : Z) : NoDup (range n).
Proof.
  unfold range. apply Injective_map_NoDup.
  - intros x y. apply Nat2Z.inj.
  - apply seq_NoDup.
Qed.

Lemma NoDup_coords (h w : Z) : NoDup (coords h w).
Proof.
  unfold coords. pose proof (NoDup_range h) as Hh.
  induction Hh as [|x xs Hx Hxs IH]; [constructor|].
  cbn [flat_map]. apply NoDup_app.
  - apply Injective_map_NoDup; [|apply NoDup_range].
    intros y y' E. inversion E. reflexivity.
  - exact IH.
  - intros [i j] H1 H2. apply in_map_iff in H1. destruct H1 as [y [E _]].
    inversion E; subst. apply in_flat_map in H2. destruct H2 as [x' [Hx' H2]].
    apply in_map_iff in H2. destruct H2 as [y' [E' _]]. inversion E'; subst.
    contradiction.
Qed.

(** ** make_move *)

(** With two integers the bounds test compares all it needs to and is the
    plain test [off_board]. *)
Lemma out_of_bounds_int (i j : Z) (g : Game) :
  out_of_bounds (Some i) (Some j) g =
  (Ok (off_board (height g) (width g) i j), g).
Proof.
  unfold out_of_bounds, off_board, bind, lift, gets, ret, py_lt, py_gt.
  destruct (i <? 0); [reflexivity|].
  destruct (i >? height g - 1); [reflexivity|].
  destruct (j <? 0); reflexivity.
Qed.

(** A pass flips the board and changes the player, and nothing else. *)
Lemma make_move_pass (g : Game) :
  make_move None None g =
  (Ok tt, set_curr_player (curr_player g * -1) (set_board (flip (board g)) g)).
Proof. reflexivity. Qed.

(** The loop that turns the captured pieces: it returns, and changes the
    board only, where every captured square and every square that held
    [1] holds [1] afterwards. *)
Lemma paint_ok (h w : Z) (caps : cset) :
  Forall (fun c => on_board h w (fst c) (snd c)) caps ->
  forall g, rect h w (board g) ->
    exists b',
      for_each caps (fun c => board_set (fst c) (snd c) 1) g
        = (Ok tt, set_board b' g) /\
      rect h w b' /\
      (cells_ok (board g) -> cells_ok b') /\
      (forall x y, 0 <= x -> 0 <= y ->
                   cell (board g) x y = 1 -> cell b' x y = 1) /\
      (forall c, In c caps -> cell b' (fst c) (snd c) = 1).
Proof.
  induction 1 as [|c caps Hc Hcaps IH]; intros g Hr.
  - exists (board g). simpl. unfold ret. destruct g; simpl in *.
    split; [reflexivity|]. split; [assumption|]. split; [auto|].
    split; [auto | intros c []].
  - set (b1 := upd (board g) (fst c) (snd c) 1).
    assert (Hr1 : rect h w b1) by (apply rect_upd; assumption).
    destruct (IH (set_board b1 g) Hr1) as [b' [E [Hr' [Hok [Hkeep Hcap]]]]].
    exists b'. cbn [for_each]. unfold bind at 1.
    assert (E1 : board_set (fst c) (snd c) 1 g = (Ok tt, set_board b1 g)).
    { unfold board_set, bind, gets, lift, modify.
      rewrite (grid_set_on_board h w (board g) Hr _ _ 1 Hc). reflexivity. }
    rewrite E1, E. split; [reflexivity|]. split; [assumption|].
    simpl in Hok, Hkeep, Hcap. split; [|split].
    + intros Hg. apply Hok. apply cells_ok_upd; auto.
    + intros x y Hx Hy Hxy. apply Hkeep; try assumption. unfold b1.
      rewrite (cell_upd h w (board g) Hr _ _ 1 x y Hc Hx Hy).
      destruct ((x =? fst c) && (y =? snd c)); auto.
    + intros c' [<-|Hin]; [|apply Hcap; assumption].
      destruct Hc as [Hc1 Hc2]. apply Hkeep; try lia. unfold b1.
      rewrite (cell_upd h w (board g) Hr _ _ 1 _ _ (conj Hc1 Hc2)) by lia.
      rewrite !Z.eqb_refl. reflexivity.
Qed.

(** A coordinate outside the board: [IndexError], object untouched. *)
Lemma make_move_off_board (i j : Z) (g : Game) :
  ~ on_board (height g) (width g) i j ->
  make_move (Some i) (Some j) g = (Raise IndexError, g).
Proof.
  intros H. apply off_board_true in H.
  unfold make_move. simpl. unfold bind at 1.
  rewrite out_of_bounds_int, H. reflexivity.
Qed.

(** A square with an empty capture set: [ValueError], object untouched. *)
Lemma make_move_no_capture (i j : Z) (g : Game) :
  on_board (height g) (width g) i j ->
  dict_get (i, j) (move_dict g) = Ok [] ->
  make_move (Some i) (Some j) g = (Raise ValueError, g).
Proof.
  intros H E. apply off_board_false in H.
  unfold make_move. simpl. unfold bind at 1.
  rewrite out_of_bounds_int, H. unfold bind, gets, lift. rewrite E.
  reflexivity.
Qed.

(** A square of the board with a non-empty capture set of squares of the
    board: the move is made.  The played square and the captured ones are
    the enemy's in the new orientation, the cache is the one of the new
    board, and the player has changed. *)
Lemma make_move_capture (i j : Z) (caps : cset) (g : Game) :
  rect (height g) (width g) (board g) ->
  on_board (height g) (width g) i j ->
  dict_get (i, j) (move_dict g) = Ok caps -> caps <> [] ->
  Forall (fun c => on_board (height g) (width g) (fst c) (snd c)) caps ->
  exists g',
    make_move (Some i) (Some j) g = (Ok tt, g') /\
    height g' = height g /\ width g' = width g /\
    curr_player g' = curr_player g * -1 /\
    rect (height g) (width g) (board g') /\
    (cells_ok (board g) -> cells_ok (board g')) /\
    cache_for g' (board g') /\
    cell (board g') i j = -1 /\
    (forall c, In c caps -> cell (board g') (fst c) (snd c) = -1).
Proof.
  intros Hr Hij E Hne Hcaps.
  pose proof Hij as Hoff. apply off_board_false in Hoff.
  set (b1 := upd (board g) i j 1).
  assert (Hr1 : rect (height g) (width g) b1) by (apply rect_upd; assumption).
  destruct (paint_ok _ _ caps Hcaps (set_board b1 g) Hr1)
    as [b2 [Ep [Hr2 [Hok [Hkeep Hcap]]]]].
  simpl in Hok, Hkeep, Hcap.
  set (g3 := set_board (flip b2) (set_board b2 (set_board b1 g))).
  assert (Hr3 : rect (height g3) (width g3) (board g3))
    by (apply rect_flip; exact Hr2).
  exists (set_curr_player (curr_player g * -1) (refreshed g3)).
  split.
  - unfold make_move. simpl. unfold bind at 1.
    rewrite out_of_bounds_int, Hoff. unfold bind at 1, gets.
    unfold bind at 1, lift. rewrite E.
    destruct caps as [|c0 caps0]; [congruence|]. cbn [length Nat.eqb].
    unfold bind at 1.
    assert (E1 : board_set i j 1 g = (Ok tt, set_board b1 g)).
    { unfold board_set, bind, gets, lift, modify.
      rewrite (grid_set_on_board _ _ (board g) Hr i j 1 Hij). reflexivity. }
    rewrite E1. unfold bind at 1. rewrite Ep.
    unfold bind at 1, flip_board, modify. cbn [board set_board].
    unfold bind at 1. fold g3.
    rewrite (update_move_dict_rect g3 Hr3). reflexivity.
  - pose proof (refreshed_cache g3 Hr3) as Hc.
    split; [reflexivity|]. split; [reflexivity|]. split; [reflexivity|].
    split; [exact Hr3|]. split; [|split; [exact Hc|split]].
    + intros Hg. apply cells_ok_flip. apply Hok. apply cells_ok_upd; auto.
    + change (cell (flip b2) i j = -1).
      rewrite cell_flip. rewrite Hkeep; try lia; try apply Hij.
      unfold b1. rewrite (cell_upd _ _ (board g) Hr i j 1 i j Hij) by apply Hij.
      rewrite !Z.eqb_refl. reflexivity.
    + intros c Hin. change (cell (flip b2) (fst c) (snd c) = -1).
      rewrite cell_flip, Hcap by assumption. reflexivity.
Qed.

(** A call with [None] for one coordinate only. *)
Lemma make_move_None_row (y : Z) (g : Game) :
  make_move None (Some y) g = (Raise TypeError, g).
Proof. reflexivity. Qed.

Lemma make_move_None_column (x : Z) (g : Game) :
  make_move (Some x) None g =
  (if (x <? 0) || (x >? height g - 1) then Raise IndexError
   else Raise TypeError, g).
Proof.
  unfold make_move, out_of_bounds, bind, lift, gets, ret, raise, py_lt, py_gt.
  simpl. destruct (x <? 0); [reflexivity|].
  destruct (x >? height g - 1); reflexivity.
Qed.

(** ** check_winner *)

Lemma total_cons {A} (f : A -> Z) (a : A) (l : list A) :
  total f (a :: l) = f a + total f l.
Proof. reflexivity. Qed.

Lemma sum_from (l : list Z) (a : Z) : fold_left Z.add l a = a + total id l.
Proof.
  revert a. induction l as [|x l IH]; intros a.
  - simpl. lia.
  - rewrite total_cons. cbn [fold_left]. rewrite IH. unfold id. lia.
Qed.

Lemma sum_total (l : list Z) : sum l = total id l.
Proof. unfold sum. rewrite sum_from. lia. Qed.

Lemma sum_row_count (row : list Z) :
  Forall (fun c => c = 0 \/ c = 1 \/ c = -1) row ->
  sum row = count_row 1 row - count_row (-1) row.
Proof.
  rewrite sum_total. unfold count_row.
  induction 1 as [|c row Hc _ IH]; [reflexivity|].
  rewrite !total_cons, IH. unfold id.
  destruct Hc as [->|[->| ->]]; cbv beta;
    repeat match goal with
    | |- context [?a =? ?c] => destruct (Z.eqb_spec a c)
    end; lia.
Qed.

(** On a board of pieces and empty squares, the sum [check_winner] takes is
    the number of own pieces minus the number of enemy pieces. *)
Lemma sum_board_count (b : grid) :
  cells_ok b -> sum (map sum b) = count 1 b - count (-1) b.
Proof.
  rewrite sum_total. unfold count.
  induction 1 as [|row b Hrow _ IH]; [reflexivity|].
  cbn [map]. rewrite !total_cons, IH. unfold id.
  rewrite (sum_row_count row Hrow). lia.
Qed.

Lemma verdict_difference (p mine theirs : Z) :
  verdict p (mine - theirs) 0 = verdict p mine theirs.
Proof.
  unfold verdict.
  destruct (Z.gtb_spec (mine - theirs) 0), (Z.gtb_spec mine theirs); try lia;
    try reflexivity.
  destruct (Z.ltb_spec (mine - theirs) 0), (Z.ltb_spec mine theirs); try lia;
    reflexivity.
Qed.

(** With moves in the cache nothing is recomputed: not over. *)
Lemma check_winner_moves (g : Game) :
  possible_moves g <> [] -> check_winner g = (Ok (false, 0), g).
Proof.
  intros H. unfold check_winner, bind, gets.
  destruct (possible_moves g); [congruence | reflexivity].
Qed.

(** With no move in the cache, the enemy's moves are computed on the flipped
    board and the cache of the current board is put back. *)
Lemma check_winner_no_moves (g : Game) :
  rect (height g) (width g) (board g) -> possible_moves g = [] ->
  check_winner g =
  (Ok (if Nat.eqb (length (legal_moves (height g) (width g) (flip (board g)))) 0
       then verdict (curr_player g) (sum (map sum (board g))) 0
       else (false, 0)),
   refreshed g).
Proof.
  intros Hr Hpm.
  assert (Hr1 : rect (height g) (width g) (flip (board g)))
    by (apply rect_flip; exact Hr).
  pose proof (update_move_dict_rect (set_board (flip (board g)) g) Hr1) as E1.
  assert (E2 : update_move_dict
                 (set_board (flip (board (refreshed (set_board (flip (board g)) g))))
                            (refreshed (set_board (flip (board g)) g)))
               = (Ok tt, refreshed g)).
  { rewrite update_move_dict_rect.
    - unfold refreshed, set_possible_moves, set_move_dict, set_board.
      cbn [height width board curr_player]. rewrite flip_involutive.
      reflexivity.
    - cbn [height width board refreshed set_possible_moves set_move_dict
             set_board]. rewrite flip_involutive. exact Hr. }
  unfold check_winner, bind, gets, flip_board, modify, ret.
  rewrite Hpm. cbn [length Nat.eqb]. rewrite E1, E2.
  change (possible_moves (refreshed (set_board (flip (board g)) g)))
    with (legal_moves (height g) (width g) (flip (board g))).
  destruct (Nat.eqb (length (legal_moves (height g) (width g) (flip (board g)))) 0).
  - unfold verdict.
    change (board (refreshed g)) with (board g).
    change (curr_player (refreshed g)) with (curr_player g).
    destruct (sum (map sum (board g)) >? 0); [reflexivity|].
    destruct (sum (map sum (board g)) <? 0); reflexivity.
  - reflexivity.
Qed.

(** ** The constructor *)

Lemma rect_blank (h w : Z) : 0 <= h -> 0 <= w -> rect h w (blank_board h w).
Proof.
  intros Hh Hw. unfold blank_board. split.
  - unfold len. rewrite length_map. apply len_range. exact Hh.
  - apply Forall_map. apply Forall_forall. intros x _.
    unfold len. rewrite length_map. apply len_range. exact Hw.
Qed.

Lemma blank_rows (h w : Z) (row : list Z) :
  In row (blank_board h w) -> row = map (fun _ => 0) (range w).
Proof.
  unfold blank_board. rewrite in_map_iff. intros [x [E _]]. auto.
Qed.

Lemma cells_ok_blank (h w : Z) : cells_ok (blank_board h w).
Proof.
  apply Forall_forall. intros row Hrow. rewrite (blank_rows h w row Hrow).
  apply Forall_map. apply Forall_forall. intros; auto.
Qed.

Lemma cell_blank (h w i j : Z) : cell (blank_board h w) i j = 0.
Proof.
  unfold cell.
  assert (Hall : Forall (Forall (fun c => c = 0)) (blank_board h w)).
  { apply Forall_forall. intros row Hrow. rewrite (blank_rows h w row Hrow).
    apply Forall_map. apply Forall_forall. intros; reflexivity. }
  apply (Forall_nth_default (fun c => c = 0)); [reflexivity|].
  apply (Forall_nth_default (Forall (fun c => c = 0))); [constructor|].
  exact Hall.
Qed.

Lemma total_zero {A} (f : A -> Z) (l : list A) :
  Forall (fun a => f a = 0) l -> total f l = 0.
Proof.
  induction 1 as [|a l Ha _ IH]; [reflexivity|].
  rewrite total_cons, Ha, IH. reflexivity.
Qed.

(** A sum over the empty board is zero when empty squares weigh nothing. *)
Lemma total_blank (f : Z -> Z) (h w : Z) :
  f 0 = 0 -> total (total f) (blank_board h w) = 0.
Proof.
  intros Hf. apply total_zero. apply Forall_forall. intros row Hrow.
  rewrite (blank_rows h w row Hrow). apply total_zero.
  apply Forall_map. apply Forall_forall. intros; exact Hf.
Qed.

Lemma total_replace_nth {A} (f : A -> Z) (n : nat) (x d : A) (l : list A) :
  (n < length l)%nat ->
  total f (replace_nth n x l) = total f l - f (nth n l d) + f x.
Proof.
  revert n. induction l as [|a l IH]; intros [|n] H; simpl in H; try lia.
  - cbn [replace_nth nth]. rewrite !total_cons. lia.
  - cbn [replace_nth nth]. rewrite !total_cons, IH by lia. lia.
Qed.

(** Storing [v] at a square changes a sum over the board by the weight of
    [v] minus the weight of what the square held. *)
Lemma total_upd (f : Z -> Z) (h w : Z) (b : grid) (i j v : Z) :
  rect h w b -> on_board h w i j ->
  total (total f) (upd b i j v) = total (total f) b - f (cell b i j) + f v.
Proof.
  intros Hr [Hi Hj]. pose proof (rect_row h w b Hr i Hi) as Hrow.
  destruct Hr as [Hlen _]. unfold upd, cell, len in *.
  rewrite (total_replace_nth (total f) _ _ []) by lia.
  rewrite (total_replace_nth f _ _ 0) by lia. lia.
Qed.

Lemma half_bounds (n : Z) :
  0 < n -> n mod 2 = 0 -> 0 <= n / 2 - 1 /\ n / 2 < n.
Proof.
  intros Hpos Hmod. pose proof (Z.div_mod n 2). lia.
Qed.

Section Opening.

Variables h w : Z.
Hypothesis Hh : 0 < h /\ h mod 2 = 0.
Hypothesis Hw : 0 < w /\ w mod 2 = 0.

Let b0 := blank_board h w.
Let b1 := upd b0 (h / 2 - 1) (w / 2 - 1) 1.
Let b2 := upd b1 (h / 2) (w / 2 - 1) (-1).
Let b3 := upd b2 (h / 2 - 1) (w / 2) (-1).

Lemma centre_on_board :
  on_board h w (h / 2 - 1) (w / 2 - 1) /\ on_board h w (h / 2) (w / 2 - 1) /\
  on_board h w (h / 2 - 1) (w / 2) /\ on_board h w (h / 2) (w / 2).
Proof.
  destruct Hh as [H1 H2], Hw as [W1 W2].
  pose proof (half_bounds h H1 H2). pose proof (half_bounds w W1 W2).
  unfold on_board. lia.
Qed.

Lemma rect_b0 : rect h w b0.
Proof. apply rect_blank; lia. Qed.

Lemma rect_b1 : rect h w b1.
Proof. apply rect_upd; [exact rect_b0 | apply centre_on_board]. Qed.

Lemma rect_b2 : rect h w b2.
Proof. apply rect_upd; [exact rect_b1 | apply centre_on_board]. Qed.

Lemma rect_b3 : rect h w b3.
Proof. apply rect_upd; [exact rect_b2 | apply centre_on_board]. Qed.

Lemma rect_opening : rect h w (opening_board h w).
Proof. apply rect_upd; [exact rect_b3 | apply centre_on_board]. Qed.

Lemma cells_ok_opening : cells_ok (opening_board h w).
Proof.
  unfold opening_board. repeat apply cells_ok_upd; auto.
  apply cells_ok_blank.
Qed.

(** The four assignments of the constructor produce the opening layout. *)
Lemma cell_opening (i j : Z) :
  0 <= i -> 0 <= j -> cell (opening_board h w) i j = opening_cell h w i j.
Proof.
  intros Hi Hj. destruct centre_on_board as [C1 [C2 [C3 C4]]].
  unfold opening_board. fold b0. fold b1. fold b2. fold b3.
  rewrite (cell_upd h w b3 rect_b3 _ _ _ i j C4 Hi Hj).
  unfold b3. rewrite (cell_upd h w b2 rect_b2 _ _ _ i j C3 Hi Hj).
  unfold b2. rewrite (cell_upd h w b1 rect_b1 _ _ _ i j C2 Hi Hj).
  unfold b1. rewrite (cell_upd h w b0 rect_b0 _ _ _ i j C1 Hi Hj).
  unfold b0. rewrite cell_blank. unfold opening_cell, on_board in *.
  eqb_cases.
Qed.

(** A sum over the opening board: two squares weigh [f 1], two [f (-1)]. *)
Lemma total_opening (f : Z -> Z) :
  f 0 = 0 -> total (total f) (opening_board h w) = 2 * f 1 + 2 * f (-1).
Proof.
  intros Hf. destruct centre_on_board as [C1 [C2 [C3 C4]]].
  unfold opening_board. fold b0. fold b1. fold b2. fold b3.
  rewrite (total_upd f h w b3 _ _ _ rect_b3 C4).
  assert (E3 : cell b3 (h / 2) (w / 2) = 0).
  { unfold b3. rewrite (cell_upd h w b2 rect_b2 _ _ _ _ _ C3) by apply C4.
    unfold b2. rewrite (cell_upd h w b1 rect_b1 _ _ _ _ _ C2) by apply C4.
    unfold b1. rewrite (cell_upd h w b0 rect_b0 _ _ _ _ _ C1) by apply C4.
    unfold b0. rewrite cell_blank. unfold on_board in *. eqb_cases. }
  rewrite E3. unfold b3 at 1. rewrite (total_upd f h w b2 _ _ _ rect_b2 C3).
  assert (E2 : cell b2 (h / 2 - 1) (w / 2) = 0).
  { unfold b2. rewrite (cell_upd h w b1 rect_b1 _ _ _ _ _ C2) by apply C3.
    unfold b1. rewrite (cell_upd h w b0 rect_b0 _ _ _ _ _ C1) by apply C3.
    unfold b0. rewrite cell_blank. unfold on_board in *. eqb_cases. }
  rewrite E2. unfold b2 at 1. rewrite (total_upd f h w b1 _ _ _ rect_b1 C2).
  assert (E1 : cell b1 (h / 2) (w / 2 - 1) = 0).
  { unfold b1. rewrite (cell_upd h w b0 rect_b0 _ _ _ _ _ C1) by apply C2.
    unfold b0. rewrite cell_blank. unfold on_board in *. eqb_cases. }
  rewrite E1. unfold b1 at 1. rewrite (total_upd f h w b0 _ _ _ rect_b0 C1).
  unfold b0. rewrite cell_blank, (total_blank f h w Hf). lia.
Qed.

(** On even positive dimensions the constructor returns: the board is the
    opening board and the cache is the one of that board. *)
Lemma new_even :
  new h w = Ok (refreshed (mkGame h w (opening_board h w) 1 (fresh_dict h w) [])).
Proof.
  destruct centre_on_board as [C1 [C2 [C3 C4]]].
  destruct Hh as [_ H2], Hw as [_ W2]. unfold new. rewrite H2, W2. simpl.
  fold b0. rewrite (grid_set_on_board h w b0 rect_b0 _ _ 1 C1). simpl.
  fold b1. rewrite (grid_set_on_board h w b1 rect_b1 _ _ (-1) C2). simpl.
  fold b2. rewrite (grid_set_on_board h w b2 rect_b2 _ _ (-1) C3). simpl.
  fold b3. rewrite (grid_set_on_board h w b3 rect_b3 _ _ 1 C4). simpl.
  rewrite update_move_dict_rect; [reflexivity | exact rect_opening].
Qed.

End Opening.

(** An odd dimension is refused before anything is built. *)
Lemma new_odd (h w : Z) :
  h mod 2 <> 0 \/ w mod 2 <> 0 -> new h w = Raise ValueError.
Proof.
  intros H. unfold new.
  destruct (Z.eqb_spec (h mod 2) 0), (Z.eqb_spec (w mod 2) 0);
    simpl; try reflexivity. lia.
Qed.

(** Even dimensions of which one is not positive pass the parity test; the
    first assignment of a piece then indexes an empty list. *)
Lemma new_even_empty (h w : Z) :
  h mod 2 = 0 -> w mod 2 = 0 -> h <= 0 \/ w <= 0 ->
  new h w = Raise IndexError.
Proof.
  intros H2 W2 Hnp. unfold new. rewrite H2, W2. simpl.
  destruct (Z_lt_le_dec 0 h) as [Hpos|Hneg].
  - assert (Hw0 : w <= 0) by lia.
    destruct (half_bounds h Hpos H2) as [Hlo Hhi].
    assert (Hrow : range w = []).
    { unfold range. replace (Z.to_nat w) with O by lia. reflexivity. }
    unfold grid_set at 1.
    rewrite (getitem_nonneg (blank_board h w) (h / 2 - 1) [])
      by (unfold len, blank_board; rewrite length_map;
          fold (len (range h)); rewrite len_range; lia).
    cbn [rbind].
    assert (E : nth (Z.to_nat (h / 2 - 1)) (blank_board h w) [] = []).
    { apply (Forall_nth_default (fun row => row = [])); [reflexivity|].
      apply Forall_forall. intros row Hin.
      rewrite (blank_rows h w row Hin), Hrow. reflexivity. }
    rewrite E, setitem_nil. reflexivity.
  - assert (Hb : blank_board h w = []).
    { unfold blank_board, range. replace (Z.to_nat h) with O by lia.
      reflexivity. }
    rewrite Hb. unfold grid_set at 1. rewrite getitem_nil. reflexivity.
Qed.

(** ** The invariant *)

Lemma inv_new (h w : Z) (g : Game) : new h w = Ok g -> Inv g.
Proof.
  intros E.
  destruct (Z.eq_dec (h mod 2) 0) as [H2|H2];
    [|rewrite new_odd in E by auto; discriminate].
  destruct (Z.eq_dec (w mod 2) 0) as [W2|W2];
    [|rewrite new_odd in E by auto; discriminate].
  destruct (Z_lt_le_dec 0 h) as [Hpos|Hneg];
    [|rewrite new_even_empty in E by auto; discriminate].
  destruct (Z_lt_le_dec 0 w) as [Wpos|Wneg];
    [|rewrite new_even_empty in E by auto; discriminate].
  rewrite (new_even h w (conj Hpos H2) (conj Wpos W2)) in E.
  inversion E; subst g; clear E.
  pose proof (rect_opening h w (conj Hpos H2) (conj Wpos W2)) as Hr.
  constructor; cbn [height width board curr_player refreshed
                    set_possible_moves set_move_dict]; auto.
  - apply cells_ok_opening.
  - left. apply (refreshed_cache (mkGame h w (opening_board h w) 1
                                         (fresh_dict h w) [])). exact Hr.
Qed.

Lemma inv_pass (g : Game) :
  Inv g ->
  Inv (set_curr_player (curr_player g * -1) (set_board (flip (board g)) g)).
Proof.
  intros I. constructor; cbn [height width board curr_player set_curr_player
                               set_board].
  - apply (inv_height g I).
  - apply (inv_width g I).
  - apply rect_flip. apply (inv_rect g I).
  - apply cells_ok_flip. apply (inv_cells g I).
  - destruct (inv_player g I) as [-> | ->]; [right | left]; reflexivity.
  - rewrite flip_involutive.
    destruct (inv_cache g I) as [C|C]; [right | left]; exact C.
Qed.

Lemma inv_refreshed (g : Game) : Inv g -> Inv (refreshed g).
Proof.
  intros I.
  constructor;
    [exact (inv_height g I) | exact (inv_width g I) | exact (inv_rect g I)
    | exact (inv_cells g I) | exact (inv_player g I) |].
  left. exact (refreshed_cache g (inv_rect g I)).
Qed.

(** On a reachable object the key of every square is in the dictionary, with
    squares of the board as its capture set. *)
Lemma inv_dict_get (g : Game) (i j : Z) :
  Inv g -> on_board (height g) (width g) i j ->
  exists caps,
    dict_get (i, j) (move_dict g) = Ok caps /\
    In ((i, j), caps) (move_dict g) /\
    Forall (fun c => on_board (height g) (width g) (fst c) (snd c)) caps.
Proof.
  intros I Hij. destruct (inv_dict_ok g I) as [Hkeys Hsets].
  destruct (dict_get_key (i, j) (move_dict g)) as [caps [E Hin]].
  - rewrite Hkeys. apply in_coords. exact Hij.
  - exists caps. split; [exact E|]. split; [exact Hin|].
    rewrite Forall_forall in Hsets. exact (Hsets _ Hin).
Qed.

(** What a call of [make_move] with two integers does to a reachable
    object: one of three outcomes, and only a legal move changes it. *)
Lemma make_move_cases (i j : Z) (g : Game) :
  Inv g ->
  (~ on_board (height g) (width g) i j /\
   make_move (Some i) (Some j) g = (Raise IndexError, g)) \/
  (on_board (height g) (width g) i j /\
   dict_get (i, j) (move_dict g) = Ok [] /\
   make_move (Some i) (Some j) g = (Raise ValueError, g)) \/
  (on_board (height g) (width g) i j /\
   exists caps g',
     dict_get (i, j) (move_dict g) = Ok caps /\ caps <> [] /\
     make_move (Some i) (Some j) g = (Ok tt, g') /\ Inv g' /\
     cache_for g' (board g') /\
     height g' = height g /\ width g' = width g /\
     curr_player g' = curr_player g * -1 /\
     cell (board g') i j = -1 /\
     (forall c, In c caps -> cell (board g') (fst c) (snd c) = -1)).
Proof.
  intros I. destruct (off_board (height g) (width g) i j) eqn:Eoff.
  - left. apply off_board_true in Eoff. split; [exact Eoff|].
    apply make_move_off_board. exact Eoff.
  - right. apply off_board_false in Eoff.
    destruct (inv_dict_get g i j I Eoff) as [caps [E [_ Hcaps]]].
    destruct caps as [|c0 caps0].
    + left. split; [exact Eoff|]. split; [exact E|].
      apply make_move_no_capture; assumption.
    + right. split; [exact Eoff|].
      destruct (make_move_capture i j (c0 :: caps0) g (inv_rect g I) Eoff E)
        as [g' [Em [Hh [Hw [Hp [Hr [Hc [Hcache [Hij Hcap]]]]]]]]];
        [discriminate | exact Hcaps |].
      exists (c0 :: caps0), g'. split; [exact E|]. split; [discriminate|].
      split; [exact Em|].
      split; [|repeat (split; [assumption|]); assumption].
      constructor.
      * rewrite Hh. apply (inv_height g I).
      * rewrite Hw. apply (inv_width g I).
      * rewrite Hh, Hw. exact Hr.
      * apply Hc. apply (inv_cells g I).
      * rewrite Hp. destruct (inv_player g I) as [-> | ->];
          [right | left]; reflexivity.
      * left. exact Hcache.
Qed.

Lemma inv_make_move (i j : option Z) (g : Game) (r : result unit) (g' : Game) :
  Inv g -> make_move i j g = (r, g') -> Inv g'.
Proof.
  intros I E. destruct i as [i|], j as [j|].
  - destruct (make_move_cases i j g I)
      as [[_ E1]|[[_ [_ E1]]|[_ [caps [g1 [_ [_ [E1 [I1 _]]]]]]]]];
      rewrite E1 in E; inversion E; subst; assumption.
  - rewrite make_move_None_column in E. inversion E; subst; assumption.
  - rewrite make_move_None_row in E. inversion E; subst; assumption.
  - rewrite make_move_pass in E. inversion E; subst. apply inv_pass, I.
Qed.

Lemma inv_check_winner (g : Game) (r : result (bool * Z)) (g' : Game) :
  Inv g -> check_winner g = (r, g') -> Inv g'.
Proof.
  intros I E. destruct (possible_moves g) eqn:Epm.
  - rewrite (check_winner_no_moves g (inv_rect g I) Epm) in E.
    inversion E; subst. apply inv_refreshed, I.
  - rewrite check_winner_moves in E by (rewrite Epm; discriminate).
    inversion E; subst. exact I.
Qed.

(** Every state a game object can be in satisfies the invariant. *)
Lemma reachable_inv (g : Game) : reachable g -> Inv g.
Proof.
  induction 1 as [h w g E | i j g r g' _ IH E | g r g' _ IH E].
  - exact (inv_new h w g E).
  - exact (inv_make_move i j g r g' IH E).
  - exact (inv_check_winner g r g' IH E).
Qed.

Lemma reachable_play (moves : list (option Z * option Z)) :
  forall g r g', reachable g -> play moves g = (r, g') -> reachable g'.
Proof.
  induction moves as [|m moves IH]; intros g r g' Hg E.
  - inversion E; subst. exact Hg.
  - cbn [play] in E. unfold bind in E.
    destruct (make_move (fst m) (snd m) g) as [r1 g1] eqn:E1.
    assert (H1 : reachable g1) by (eapply reach_move; eassumption).
    destruct r1; try (inversion E; subst; exact H1).
    eapply IH; eassumption.
Qed.

Lemma reachable_opening4 : reachable opening4.
Proof. apply (reach_new 4 4). vm_compute. reflexivity. Qed.

Lemma reachable_blocked4 : reachable blocked4.
Proof.
  apply (reachable_play blocking_line opening4
           (fst (play blocking_line opening4))).
  - exact reachable_opening4.
  - apply surjective_pairing.
Qed.

Lemma reachable_passed4 : reachable passed4.
Proof.
  apply (reach_move None None blocked4 (fst (make_move None None blocked4))).
  - exact reachable_blocked4.
  - apply surjective_pairing.
Qed.

Lemma nonempty_keys_key (d : dict) (k : coord) :
  In k (nonempty_keys d) -> In k (map fst d).
Proof.
  unfold nonempty_keys. rewrite !in_map_iff.
  intros [kv [E Hin]]. apply filter_In in Hin. exists kv. tauto.
Qed.

Lemma inv_possible_moves (g : Game) :
  Inv g -> possible_moves g = nonempty_keys (move_dict g).
Proof.
  intros I. destruct (inv_cache g I) as [[_ E]|[_ E]]; exact E.
Qed.

(** On a reachable object a square is listed in [possible_moves] exactly
    when its capture set in [move_dict] is not empty. *)
Lemma possible_moves_capture (g : Game) (i j : Z) (caps : cset) :
  Inv g -> In ((i, j), caps) (move_dict g) ->
  (In (i, j) (possible_moves g) <-> caps <> []).
Proof.
  intros I Hin. rewrite (inv_possible_moves g I).
  apply in_nonempty_keys; [|exact Hin].
  destruct (inv_dict_ok g I) as [-> _]. apply NoDup_coords.
Qed.

(** With the cache of the current board, [check_winner] follows the rules
    of the game and leaves the object as it found it. *)
Lemma check_winner_current (g : Game) :
  Inv g -> cache_for g (board g) ->
  check_winner g =
  (Ok (match legal_moves (height g) (width g) (board g),
             legal_moves (height g) (width g) (flip (board g)) with
       | [], [] => verdict (curr_player g) (count 1 (board g))
                           (count (-1) (board g))
       | _, _ => (false, 0)
       end), g).
Proof.
  intros I C.
  assert (Epm : possible_moves g = legal_moves (height g) (width g) (board g)).
  { destruct C as [E1 E2]. unfold legal_moves. rewrite E1. exact E2. }
  rewrite <- Epm. destruct (possible_moves g) eqn:E.
  - rewrite (check_winner_no_moves g (inv_rect g I) E).
    rewrite (refreshed_same g C).
    rewrite (sum_board_count _ (inv_cells g I)), verdict_difference.
    destruct (legal_moves (height g) (width g) (flip (board g))); reflexivity.
  - rewrite check_winner_moves by (rewrite E; discriminate). reflexivity.
Qed.

(** * The claims *)

(** C1 (fails on the code).  After the constructor has built the 4 x 4
    game, a pass returns with the dictionary and the list of possible moves
    it found: they are still those of the first player, while the board now
    shows the position to the second player, for whom [update_move_dict]
    computes other moves.  A move by coordinates, in contrast, does leave
    the cache of the new board ([make_move_cases]). *)
Theorem C1_pass_keeps_cache :
  new 4 4 = Ok opening4 /\
  exists g',
    make_move None None opening4 = (Ok tt, g') /\
    move_dict g' = move_dict opening4 /\
    possible_moves g' = [(0, 2); (1, 3); (2, 0); (3, 1)] /\
    legal_moves (height g') (width g') (board g')
      = [(0, 1); (1, 0); (2, 3); (3, 2)] /\
    dict_get (0, 2) (move_dict g') = Ok [(1, 2)] /\
    dict_get (0, 2) (snd (compute_move_dict (height g') (width g') (board g')))
      = Ok [] /\
    ~ cache_for g' (board g').
Proof.
  split; [vm_compute; reflexivity|].
  eexists. split; [apply make_move_pass|].
  repeat (split; [vm_compute; reflexivity|]).
  intros [E _]. vm_compute in E. discriminate.
Qed.

(** C2, as stated, is false: on the 4 x 4 board the constructor builds,
    [(0,1)] is not a possible move of the first player. *)
Lemma C2_counterexample :
  ~ (forall g, new 4 4 = Ok g ->
       forall c, In c (possible_moves g) <->
                 In c [(0, 1); (1, 0); (2, 3); (3, 2)]).
Proof.
  intros H.
  assert (E : new 4 4 = Ok opening4) by (vm_compute; reflexivity).
  destruct (H opening4 E (0, 1)) as [_ Hin].
  specialize (Hin (or_introl eq_refl)). simpl in Hin.
  repeat (destruct Hin as [Hin|Hin]; [discriminate|]). exact Hin.
Qed.

(** C2 (amended).  The constructor returns the 4 x 4 game with centre
    squares (1,1) and (2,2) the current player's and (2,1) and (1,2) the
    enemy's; the possible moves of the first player are exactly (0,2),
    (1,3), (2,0) and (3,1). *)
Theorem C2_opening_moves :
  exists g,
    new 4 4 = Ok g /\
    grid_get (board g) 1 1 = Ok 1 /\ grid_get (board g) 2 1 = Ok (-1) /\
    grid_get (board g) 1 2 = Ok (-1) /\ grid_get (board g) 2 2 = Ok 1 /\
    possible_moves g = [(0, 2); (1, 3); (2, 0); (3, 1)] /\
    forall c, In c (possible_moves g) <->
              In c [(0, 2); (1, 3); (2, 0); (3, 1)].
Proof.
  exists opening4. repeat (split; [vm_compute; reflexivity|]).
  intros c. simpl. tauto.
Qed.

(** C3, as stated, is false: 0 is not positive, yet the constructor called
    with dimensions 0 and 0 does not raise [ValueError]; it raises
    [IndexError]. *)
Lemma C3_counterexample :
  0 <= 0 /\ new 0 0 = Raise IndexError /\ new 0 0 <> Raise ValueError.
Proof.
  split; [lia|]. split; [vm_compute; reflexivity|].
  vm_compute. discriminate.
Qed.

(** C3 (amended).  The constructor raises [ValueError] exactly when the
    height or the width is odd.  With even dimensions of which one is not
    positive it fails too, with [IndexError].  With even positive
    dimensions it returns a game of those dimensions whose board has the
    opening layout: exactly four non-empty cells, two of the current player
    on one diagonal of the centre and two of the enemy on the other. *)
Theorem C3_constructor (h w : Z) :
  (new h w = Raise ValueError <-> h mod 2 <> 0 \/ w mod 2 <> 0) /\
  (h mod 2 = 0 -> w mod 2 = 0 -> h <= 0 \/ w <= 0 ->
   new h w = Raise IndexError) /\
  (h mod 2 = 0 -> w mod 2 = 0 -> 0 < h -> 0 < w ->
   exists g,
     new h w = Ok g /\ height g = h /\ width g = w /\
     rect h w (board g) /\
     (forall i j, on_board h w i j ->
                  grid_get (board g) i j = Ok (opening_cell h w i j)) /\
     pieces (board g) = 4 /\
     count 1 (board g) = 2 /\ count (-1) (board g) = 2).
Proof.
  split; [|split].
  - split.
    + intros E.
      destruct (Z.eq_dec (h mod 2) 0) as [H2|H2]; [|auto].
      destruct (Z.eq_dec (w mod 2) 0) as [W2|W2]; [|auto].
      exfalso.
      destruct (Z_lt_le_dec 0 h) as [Hpos|Hneg];
        [|rewrite new_even_empty in E by auto; discriminate].
      destruct (Z_lt_le_dec 0 w) as [Wpos|Wneg];
        [|rewrite new_even_empty in E by auto; discriminate].
      rewrite (new_even h w (conj Hpos H2) (conj Wpos W2)) in E.
      discriminate.
    + apply new_odd.
  - apply new_even_empty.
  - intros H2 W2 Hpos Wpos.
    pose proof (rect_opening h w (conj Hpos H2) (conj Wpos W2)) as Hr.
    eexists. split; [apply new_even; auto|].
    cbn [height width board refreshed set_possible_moves set_move_dict].
    split; [reflexivity|]. split; [reflexivity|]. split; [exact Hr|].
    split; [|split; [|split]].
    + intros i j Hij. rewrite (grid_get_on_board h w _ Hr i j Hij).
      rewrite cell_opening by (auto; apply Hij). reflexivity.
    + unfold pieces.
      rewrite (total_opening h w (conj Hpos H2) (conj Wpos W2)); reflexivity.
    + unfold count, count_row.
      rewrite (total_opening h w (conj Hpos H2) (conj Wpos W2)); reflexivity.
    + unfold count, count_row.
      rewrite (total_opening h w (conj Hpos H2) (conj Wpos W2)); reflexivity.
Qed.

(** The constructor on a 6 x 8 board. *)
Lemma C3_constructor_witness :
  6 mod 2 = 0 /\ 8 mod 2 = 0 /\ 0 < 6 /\ 0 < 8 /\
  exists g,
    new 6 8 = Ok g /\ height g = 6 /\ width g = 8 /\
    rect 6 8 (board g) /\
    (forall i j, on_board 6 8 i j ->
                 grid_get (board g) i j = Ok (opening_cell 6 8 i j)) /\
    pieces (board g) = 4 /\
    count 1 (board g) = 2 /\ count (-1) (board g) = 2.
Proof.
  split; [reflexivity|]. split; [reflexivity|]. split; [lia|]. split; [lia|].
  apply (C3_constructor 6 8); [reflexivity | reflexivity | lia | lia].
Defined.

(** C4.  On every reachable object and for every pair of integers: off the
    board the move raises [IndexError]; on the board the square has a
    capture set in [move_dict], which is empty exactly when the square is
    not in [possible_moves], and if it is empty the move raises
    [ValueError]; and whenever the call does not return normally the
    object (board, player, dictionary, list of moves) is as it was. *)
Theorem C4_rejected_move (g : Game) (i j : Z) :
  reachable g ->
  (~ on_board (height g) (width g) i j ->
   make_move (Some i) (Some j) g = (Raise IndexError, g)) /\
  (on_board (height g) (width g) i j ->
   exists caps,
     dict_get (i, j) (move_dict g) = Ok caps /\
     (caps = [] <-> ~ In (i, j) (possible_moves g)) /\
     (caps = [] -> make_move (Some i) (Some j) g = (Raise ValueError, g))) /\
  (forall r g', make_move (Some i) (Some j) g = (r, g') ->
                r <> Ok tt -> g' = g).
Proof.
  intros Hg. pose proof (reachable_inv g Hg) as I.
  split; [|split].
  - apply make_move_off_board.
  - intros Hij. destruct (inv_dict_get g i j I Hij) as [caps [E [Hin _]]].
    exists caps. split; [exact E|]. split.
    + pose proof (possible_moves_capture g i j caps I Hin) as Hpm.
      destruct caps; split; intros H; try tauto; try discriminate.
      exfalso. apply H. apply Hpm. discriminate.
    + intros ->. apply make_move_no_capture; assumption.
  - intros r g' E Hr.
    destruct (make_move_cases i j g I)
      as [[_ E1]|[[_ [_ E1]]|[_ [caps [g1 [_ [_ [E1 _]]]]]]]];
      rewrite E1 in E; inversion E; subst; try reflexivity.
    congruence.
Qed.

(** The corner (0,0) of the opening position of the 4 x 4 game, where
    nothing can be captured. *)
Lemma C4_rejected_move_witness :
  reachable opening4 /\
  (~ on_board (height opening4) (width opening4) 0 0 ->
   make_move (Some 0) (Some 0) opening4 = (Raise IndexError, opening4)) /\
  (on_board (height opening4) (width opening4) 0 0 ->
   exists caps,
     dict_get (0, 0) (move_dict opening4) = Ok caps /\
     (caps = [] <-> ~ In (0, 0) (possible_moves opening4)) /\
     (caps = [] ->
      make_move (Some 0) (Some 0) opening4 = (Raise ValueError, opening4))) /\
  (forall r g', make_move (Some 0) (Some 0) opening4 = (r, g') ->
                r <> Ok tt -> g' = opening4).
Proof.
  assert (Hg : reachable opening4)
    by (apply (reach_new 4 4); vm_compute; reflexivity).
  split; [exact Hg|]. apply (C4_rejected_move opening4 0 0). exact Hg.
Defined.

(** C5.  On every reachable object, a move at a square listed in
    [possible_moves] returns; afterwards every square of the capture set
    the square had, and the square itself, hold [-1] (the enemy's, in the
    new orientation), and the current player is the other one. *)
Theorem C5_legal_move (g : Game) (i j : Z) :
  reachable g -> In (i, j) (possible_moves g) ->
  exists caps g',
    dict_get (i, j) (move_dict g) = Ok caps /\
    make_move (Some i) (Some j) g = (Ok tt, g') /\
    (forall c, In c caps ->
               grid_get (board g') (fst c) (snd c) = Ok (-1)) /\
    grid_get (board g') i j = Ok (-1) /\
    curr_player g' = - curr_player g /\
    curr_player g' <> curr_player g.
Proof.
  intros Hg Hpm. pose proof (reachable_inv g Hg) as I.
  assert (Hij : on_board (height g) (width g) i j).
  { apply in_coords. destruct (inv_dict_ok g I) as [<- _].
    apply nonempty_keys_key. rewrite <- (inv_possible_moves g I). exact Hpm. }
  destruct (inv_dict_get g i j I Hij) as [caps0 [E0 [Hin0 Hon]]].
  destruct (make_move_cases i j g I)
    as [[Hoff _]|[[_ [E1 _]]|[_ [caps [g' [E [Hne [Em [I' [_ [Hh [Hw
         [Hp [Hc Hcap]]]]]]]]]]]]]].
  - contradiction.
  - exfalso. rewrite E0 in E1. inversion E1; subst.
    apply (possible_moves_capture g i j [] I Hin0) in Hpm. congruence.
  - exists caps, g'. split; [exact E|]. split; [exact Em|].
    pose proof (inv_rect g' I') as Hr'. rewrite Hh, Hw in Hr'.
    rewrite E0 in E. inversion E; subst caps0.
    split; [|split; [|split]].
    + intros c Hin. rewrite Forall_forall in Hon.
      rewrite (grid_get_on_board _ _ _ Hr' _ _ (Hon c Hin)).
      rewrite (Hcap c Hin). reflexivity.
    + rewrite (grid_get_on_board _ _ _ Hr' _ _ Hij). rewrite Hc. reflexivity.
    + lia.
    + destruct (inv_player g I); lia.
Qed.

(** The move (0,2) in the opening position of the 4 x 4 game. *)
Lemma C5_legal_move_witness :
  reachable opening4 /\ In (0, 2) (possible_moves opening4) /\
  exists caps g',
    dict_get (0, 2) (move_dict opening4) = Ok caps /\
    make_move (Some 0) (Some 2) opening4 = (Ok tt, g') /\
    (forall c, In c caps ->
               grid_get (board g') (fst c) (snd c) = Ok (-1)) /\
    grid_get (board g') 0 2 = Ok (-1) /\
    curr_player g' = - curr_player opening4 /\
    curr_player g' <> curr_player opening4.
Proof.
  assert (Hg : reachable opening4)
    by (apply (reach_new 4 4); vm_compute; reflexivity).
  assert (Hin : In (0, 2) (possible_moves opening4))
    by (simpl; left; reflexivity).
  split; [exact Hg|]. split; [exact Hin|].
  apply (C5_legal_move opening4 0 2); assumption.
Defined.

(** C6 (fails on the code).  [passed4] is reached from the constructor by
    five moves and a pass of the second player, who had no move.  The
    first player, to move, has three legal moves on that board, yet
    [check_winner] reads the list the pass left behind, finds it empty and
    answers that the game is over and won by the first player; on return
    the recomputed list holds the three moves.  Where the cache is the one
    of the current board the answer follows the rules
    ([check_winner_current]). *)
Theorem C6_over_with_moves_left :
  new 4 4 = Ok opening4 /\
  play blocking_line opening4 = (Ok tt, blocked4) /\
  possible_moves blocked4 = [] /\
  make_move None None blocked4 = (Ok tt, passed4) /\
  reachable passed4 /\
  legal_moves (height passed4) (width passed4) (board passed4)
    = [(2, 0); (3, 0); (3, 1)] /\
  fst (check_winner passed4) = Ok (true, 1) /\
  possible_moves (snd (check_winner passed4)) = [(2, 0); (3, 0); (3, 1)].
Proof.
  repeat (split; [vm_compute; reflexivity|]).
  split; [exact reachable_passed4|].
  repeat (split; [vm_compute; reflexivity|]).
  vm_compute. reflexivity.
Qed.

(** C7 (fails on the code).  On the reachable object [passed4], whose
    dictionary is the one the pass left behind, [check_winner] returns with
    another dictionary and another list of possible moves: the board and
    the player are as before, the cache is not.  Where the cache is the
    one of the current board the object is left as it was
    ([check_winner_current]). *)
Theorem C7_check_winner_rewrites_cache :
  reachable passed4 /\
  possible_moves passed4 = [] /\
  dict_get (2, 0) (move_dict passed4) = Ok [] /\
  board (snd (check_winner passed4)) = board passed4 /\
  curr_player (snd (check_winner passed4)) = curr_player passed4 /\
  possible_moves (snd (check_winner passed4)) = [(2, 0); (3, 0); (3, 1)] /\
  dict_get (2, 0) (move_dict (snd (check_winner passed4))) = Ok [(2, 1)] /\
  snd (check_winner passed4) <> passed4.
Proof.
  split; [exact reachable_passed4|].
  repeat (split; [vm_compute; reflexivity|]).
  intros E. apply (f_equal possible_moves) in E. vm_compute in E.
  discriminate.
Qed.

(** C8.  On every reachable object on whose board neither the current
    player nor, after the flip, the other player has a legal move: two
    passes return, and [check_winner] then answers that the game is over,
    won by the current player if the board holds more of their pieces than
    of the enemy's, by the enemy if fewer, drawn if as many. *)
Theorem C8_double_pass (g : Game) :
  reachable g ->
  legal_moves (height g) (width g) (board g) = [] ->
  legal_moves (height g) (width g) (flip (board g)) = [] ->
  exists g1 g2 g3,
    make_move None None g = (Ok tt, g1) /\
    board g1 = flip (board g) /\
    make_move None None g1 = (Ok tt, g2) /\
    check_winner g2 =
      (Ok (verdict (curr_player g2) (count 1 (board g2))
                   (count (-1) (board g2))), g3) /\
    fst (verdict (curr_player g2) (count 1 (board g2))
                 (count (-1) (board g2))) = true.
Proof.
  intros Hg Hcur Hopp. pose proof (reachable_inv g Hg) as I.
  pose proof (inv_pass g I) as I1.
  set (g1 := set_curr_player (curr_player g * -1)
                             (set_board (flip (board g)) g)) in *.
  pose proof (inv_pass g1 I1) as I2.
  set (g2 := set_curr_player (curr_player g1 * -1)
                             (set_board (flip (board g1)) g1)) in *.
  assert (Hb2 : board g2 = board g) by apply flip_involutive.
  assert (Hpm : possible_moves g2 = []).
  { change (possible_moves g2) with (possible_moves g).
    rewrite (inv_possible_moves g I).
    destruct (inv_cache g I) as [[E _]|[E _]].
    - unfold legal_moves in Hcur. rewrite E in Hcur. exact Hcur.
    - unfold legal_moves in Hopp. rewrite E in Hopp. exact Hopp. }
  exists g1, g2, (refreshed g2).
  split; [apply make_move_pass|]. split; [reflexivity|].
  split; [apply make_move_pass|]. split.
  - rewrite (check_winner_no_moves g2 (inv_rect g2 I2) Hpm).
    change (height g2) with (height g). change (width g2) with (width g).
    rewrite Hb2, Hopp. cbn [length Nat.eqb].
    rewrite (sum_board_count _ (inv_cells g I)), verdict_difference.
    reflexivity.
  - unfold verdict.
    destruct (count 1 (board g2) >? count (-1) (board g2)); [reflexivity|].
    destruct (count 1 (board g2) <? count (-1) (board g2)); reflexivity.
Qed.

(** The 2 x 2 game, whose opening fills the board. *)
Lemma C8_double_pass_witness :
  reachable opening2 /\
  legal_moves (height opening2) (width opening2) (board opening2) = [] /\
  legal_moves (height opening2) (width opening2) (flip (board opening2)) = [] /\
  exists g1 g2 g3,
    make_move None None opening2 = (Ok tt, g1) /\
    board g1 = flip (board opening2) /\
    make_move None None g1 = (Ok tt, g2) /\
    check_winner g2 =
      (Ok (verdict (curr_player g2) (count 1 (board g2))
                   (count (-1) (board g2))), g3) /\
    fst (verdict (curr_player g2) (count 1 (board g2))
                 (count (-1) (board g2))) = true.
Proof.
  assert (Hg : reachable opening2)
    by (apply (reach_new 2 2); vm_compute; reflexivity).
  assert (H1 : legal_moves (height opening2) (width opening2)
                           (board opening2) = [])
    by (vm_compute; reflexivity).
  assert (H2 : legal_moves (height opening2) (width opening2)
                           (flip (board opening2)) = [])
    by (vm_compute; reflexivity).
  split; [exact Hg|]. split; [exact H1|]. split; [exact H2|].
  apply (C8_double_pass opening2); assumption.
Defined.

(** C9.  Flipping a board twice gives back the board, cell for cell; two
    calls of [flip_board] in succession leave the object as it was. *)
Theorem C9_flip_twice (b : grid) (g : Game) :
  flip (flip b) = b /\
  (forall i j, cell (flip (flip b)) i j = cell b i j) /\
  (flip_board ;; flip_board) g = (Ok tt, g).
Proof.
  split; [apply flip_involutive|]. split.
  - intros i j. rewrite flip_involutive. reflexivity.
  - unfold bind, flip_board, modify, set_board.
    cbn [height width board curr_player move_dict possible_moves].
    rewrite flip_involutive. destruct g; reflexivity.
Qed.

(** C10, as stated, is false: with a negative row and [None] for the
    column, the call on the opening position raises [IndexError] (out of
    bounds), not [TypeError]. *)
Lemma C10_counterexample :
  new 4 4 = Ok opening4 /\
  make_move (Some (-1)) None opening4 = (Raise IndexError, opening4).
Proof. split; vm_compute; reflexivity. Qed.

(** C10 (amended).  A call with [None] for exactly one coordinate is not a
    pass and changes nothing.  With [None] for the row it raises
    [TypeError].  With [None] for the column it raises [IndexError] when
    the row is outside the board, the test of the row being decided
    before the column is compared, and [TypeError] otherwise. *)
Theorem C10_single_None (g : Game) (x : Z) :
  make_move None (Some x) g = (Raise TypeError, g) /\
  make_move (Some x) None g =
    (if (x <? 0) || (x >? height g - 1) then Raise IndexError
     else Raise TypeError, g).
Proof.
  split; [apply make_move_None_row | apply make_move_None_column].
Qed.

(** * Further properties: supporting lemmas *)

(** ** Capture sets as sets *)

Lemma cset_mem_In (c : coord) (s : cset) : cset_mem c s = true <-> In c s.
Proof.
  unfold cset_mem. rewrite existsb_exists. split.
  - intros [x [Hin E]]. apply coord_eqb_eq in E. subst. exact Hin.
  - intros Hin. exists c. split; [exact Hin | apply coord_eqb_eq; reflexivity].
Qed.

Lemma In_cset_add (c x : coord) (s : cset) :
  In c (cset_add x s) <-> c = x \/ In c s.
Proof.
  unfold cset_add. destruct (cset_mem x s) eqn:E.
  - apply cset_mem_In in E. split; [auto|]. intros [->|H]; assumption.
  - rewrite in_app_iff. simpl. split; [intros [H|[H|[]]] | intros [H|H]]; auto.
Qed.

Lemma NoDup_cset_add (x : coord) (s : cset) : NoDup s -> NoDup (cset_add x s).
Proof.
  intros H. unfold cset_add. destruct (cset_mem x s) eqn:E; [exact H|].
  assert (Hx : ~ In x s).
  { intros Hin. apply cset_mem_In in Hin. congruence. }
  clear E. induction H as [|a s Ha Hs IH]; simpl.
  - constructor; [intros []|constructor].
  - constructor.
    + rewrite in_app_iff. simpl. intros [H|[H|[]]]; [auto|].
      subst. apply Hx. left. reflexivity.
    + apply IH. intros Hin. apply Hx. right. exact Hin.
Qed.

Lemma In_cset_update (c : coord) (s t : cset) :
  In c (cset_update s t) <-> In c s \/ In c t.
Proof.
  unfold cset_update. revert s. induction t as [|x t IH]; intros s; simpl.
  - tauto.
  - rewrite IH, In_cset_add. split; [intros [[H|H]|H] | intros [H|[H|H]]]; auto.
Qed.

Lemma NoDup_cset_update (s t : cset) : NoDup s -> NoDup (cset_update s t).
Proof.
  unfold cset_update. revert s. induction t as [|x t IH]; intros s H; simpl.
  - exact H.
  - apply IH. apply NoDup_cset_add. exact H.
Qed.

Lemma cset_update_nil (s : cset) : cset_update s [] = s.
Proof. reflexivity. Qed.

(** ** The dictionary as a function of its keys *)

Lemma coord_eqb_refl (k : coord) : coord_eqb k k = true.
Proof. apply coord_eqb_eq. reflexivity. Qed.

Lemma coord_eqb_neq (k k' : coord) : k <> k' -> coord_eqb k k' = false.
Proof.
  intros H. destruct (coord_eqb k k') eqn:E; [|reflexivity].
  apply coord_eqb_eq in E. contradiction.
Qed.

Lemma dict_update_add_caps (k : coord) (t : cset) (d : dict) :
  In k (map fst d) -> dict_update k t d = Ok (add_caps k t d).
Proof.
  induction d as [|[k' v] d IH]; simpl; [tauto|]. intros Hin.
  destruct (coord_eqb k k') eqn:E; [reflexivity|].
  destruct Hin as [Hk|Hin].
  - subst. rewrite coord_eqb_refl in E. discriminate.
  - rewrite (IH Hin). reflexivity.
Qed.

Lemma add_caps_keys (k : coord) (t : cset) (d : dict) :
  map fst (add_caps k t d) = map fst d.
Proof.
  induction d as [|[k' v] d IH]; simpl; [reflexivity|].
  destruct (coord_eqb k k'); simpl; [reflexivity | rewrite IH; reflexivity].
Qed.

Lemma add_caps_nil (k : coord) (d : dict) : add_caps k [] d = d.
Proof.
  induction d as [|[k' v] d IH]; simpl; [reflexivity|].
  destruct (coord_eqb k k'); [reflexivity | rewrite IH; reflexivity].
Qed.

Lemma lookup_add_caps_same (k : coord) (t : cset) (d : dict) :
  In k (map fst d) ->
  lookup k (add_caps k t d) = cset_update (lookup k d) t.
Proof.
  unfold lookup. induction d as [|[k' v] d IH]; simpl; [tauto|]. intros Hin.
  destruct (coord_eqb k k') eqn:E; simpl; rewrite E; [reflexivity|].
  destruct Hin as [Hk|Hin].
  - subst. rewrite coord_eqb_refl in E. discriminate.
  - apply IH. exact Hin.
Qed.

Lemma lookup_add_caps_other (k k0 : coord) (t : cset) (d : dict) :
  k0 <> k -> lookup k0 (add_caps k t d) = lookup k0 d.
Proof.
  intros Hne. unfold lookup. induction d as [|[k' v] d IH]; simpl;
    [reflexivity|].
  destruct (coord_eqb k k') eqn:E; simpl.
  - apply coord_eqb_eq in E. subst k'.
    rewrite (coord_eqb_neq k0 k Hne). reflexivity.
  - destruct (coord_eqb k0 k'); [reflexivity | exact IH].
Qed.

Lemma apply_updates_keys (us : list (coord * cset)) (d : dict) :
  map fst (apply_updates us d) = map fst d.
Proof.
  unfold apply_updates. revert d.
  induction us as [|u us IH]; intros d; simpl; [reflexivity|].
  rewrite IH. apply add_caps_keys.
Qed.

(** After a series of updates the set at a key holds what it held and what
    the updates of that key brought. *)
Lemma In_lookup_apply_updates (us : list (coord * cset)) (d : dict)
      (k c : coord) :
  In k (map fst d) ->
  (In c (lookup k (apply_updates us d)) <->
   In c (lookup k d) \/ exists t, In (k, t) us /\ In c t).
Proof.
  unfold apply_updates. revert d.
  induction us as [|[k1 t1] us IH]; intros d Hk; simpl.
  - split; [auto | intros [H|[t [[] _]]]; exact H].
  - rewrite IH by (rewrite add_caps_keys; exact Hk).
    destruct (coord_eqb k k1) eqn:E.
    + apply coord_eqb_eq in E. subst k1.
      rewrite lookup_add_caps_same by exact Hk. rewrite In_cset_update.
      split.
      * intros [[H|H]|[t [Hin Hc]]]; eauto 6.
      * intros [H|[t [[Ht|Hin] Hc]]]; eauto 6.
        inversion Ht; subst. auto.
    + assert (Hne : k <> k1).
      { intros ->. rewrite coord_eqb_refl in E. discriminate. }
      rewrite lookup_add_caps_other by exact Hne. split.
      * intros [H|[t [Hin Hc]]]; eauto 6.
      * intros [H|[t [[Ht|Hin] Hc]]]; eauto 6.
        inversion Ht; subst. contradiction.
Qed.

Lemma NoDup_lookup_add_caps (k k1 : coord) (t : cset) (d : dict) :
  NoDup (lookup k d) -> NoDup (lookup k (add_caps k1 t d)).
Proof.
  unfold lookup. induction d as [|[k' v] d IH]; simpl; [auto|].
  destruct (coord_eqb k1 k') eqn:E1; simpl.
  - destruct (coord_eqb k k'); [apply NoDup_cset_update | auto].
  - destruct (coord_eqb k k'); [auto | exact IH].
Qed.

Lemma NoDup_lookup_apply_updates (us : list (coord * cset)) (d : dict)
      (k : coord) :
  NoDup (lookup k d) -> NoDup (lookup k (apply_updates us d)).
Proof.
  unfold apply_updates. revert d.
  induction us as [|[k1 t1] us IH]; intros d Hnd; simpl; [exact Hnd|].
  apply IH. apply NoDup_lookup_add_caps. exact Hnd.
Qed.

(** Two facts about the content of one square, reached under two names. *)
Ltac same_cell H1 H2 :=
  match type of H1 with
  | cell ?b ?x ?y = _ =>
      match type of H2 with
      | cell b ?x' ?y' = _ =>
          replace x' with x in H2 by lia;
          replace y' with y in H2 by lia;
          congruence
      end
  end.

Section Rule.

Variables (rows cols : Z) (b : grid).
Hypothesis Hrect : rect rows cols b.

(** What the [while] loop has done when it stops: it has advanced over [n]
    enemy pieces, collected exactly those, and stands on a square of the
    board that holds no enemy piece or is the last one before the edge. *)
Lemma walk_spec (dh dv : Z) (fuel : nat) :
  forall ci cj fl ci' cj' fl',
    on_board rows cols ci cj ->
    walk fuel rows cols b dh dv ci cj fl = Ok (ci', cj', fl') ->
    exists n,
      0 <= n /\ ci' = ci + n * dh /\ cj' = cj + n * dv /\
      (forall m, 0 <= m < n ->
         on_board rows cols (ci + m * dh) (cj + m * dv) /\
         cell b (ci + m * dh) (cj + m * dv) = -1) /\
      on_board rows cols ci' cj' /\
      (forall c, In c fl' <->
                 In c fl \/ exists m, 0 <= m < n /\
                                      c = (ci + m * dh, cj + m * dv)) /\
      (cell b ci' cj' = -1 -> ~ on_board rows cols (ci' + dh) (cj' + dv)).
Proof.
  induction fuel as [|fuel IH]; intros ci cj fl ci' cj' fl' Hc E;
    [discriminate|].
  cbn [walk] in E. rewrite (grid_get_on_board rows cols b Hrect ci cj Hc) in E.
  cbn [rbind] in E.
  assert (Hstop : (ci', cj', fl') = (ci, cj, fl) ->
                  (cell b ci cj = -1 ->
                   ~ on_board rows cols (ci + dh) (cj + dv)) ->
                  exists n,
                    0 <= n /\ ci' = ci + n * dh /\ cj' = cj + n * dv /\
                    (forall m, 0 <= m < n ->
                       on_board rows cols (ci + m * dh) (cj + m * dv) /\
                       cell b (ci + m * dh) (cj + m * dv) = -1) /\
                    on_board rows cols ci' cj' /\
                    (forall c, In c fl' <->
                       In c fl \/ exists m, 0 <= m < n /\
                                            c = (ci + m * dh, cj + m * dv)) /\
                    (cell b ci' cj' = -1 ->
                     ~ on_board rows cols (ci' + dh) (cj' + dv))).
  { intros E0 Hedge. inversion E0; subst. exists 0.
    split; [lia|]. split; [lia|]. split; [lia|].
    split; [intros m Hm; lia|]. split; [exact Hc|]. split; [|exact Hedge].
    intros c. split; [auto | intros [H|[m [Hm _]]]; [exact H | lia]]. }
  destruct (Z.eqb_spec (cell b ci cj) (-1)) as [Hcell|Hcell].
  - destruct (off_board rows cols (ci + dh) (cj + dv)) eqn:Eoff.
    + apply Hstop; [inversion E; reflexivity|].
      intros _. apply off_board_true. exact Eoff.
    + apply off_board_false in Eoff.
      destruct (IH _ _ _ _ _ _ Eoff E)
        as [n [Hn [Ei [Ej [Hrun [Hon [Hfl Hedge]]]]]]].
      exists (n + 1). split; [lia|]. split; [lia|]. split; [lia|].
      split; [|split; [exact Hon|split; [|exact Hedge]]].
      * intros m Hm. destruct (Z.eq_dec m 0) as [->|Hm0].
        -- replace (ci + 0 * dh) with ci by lia.
           replace (cj + 0 * dv) with cj by lia. auto.
        -- destruct (Hrun (m - 1)) as [H1 H2]; [lia|].
           replace (ci + dh + (m - 1) * dh) with (ci + m * dh) in * by lia.
           replace (cj + dv + (m - 1) * dv) with (cj + m * dv) in * by lia.
           auto.
      * intros c. rewrite Hfl, In_cset_add. split.
        -- intros [[->|H]|[m [Hm ->]]].
           ++ right. exists 0. split; [lia|]. f_equal; lia.
           ++ left. exact H.
           ++ right. exists (m + 1). split; [lia|]. f_equal; lia.
        -- intros [H|[m [Hm ->]]]; [auto|].
           destruct (Z.eq_dec m 0) as [->|Hm0].
           ++ left. left. f_equal; lia.
           ++ right. exists (m - 1). split; [lia|]. f_equal; lia.
  - apply Hstop; [inversion E; reflexivity|]. intros H. contradiction.
Qed.

(** One direction contributes exactly what the rule of the game captures
    along it. *)
Lemma dir_caps_rule (i j : Z) (d : Z * Z) (c : coord) :
  In d directions ->
  (In c (dir_caps rows cols b i j d) <-> captures_along rows cols b i j d c).
Proof.
  intros Hd. destruct (direction_steps d Hd) as [Hh [Hv Hnz]].
  destruct d as [dh dv]. unfold dir_caps, captures_along, step_to.
  cbn [fst snd] in *.
  destruct (off_board rows cols (i + dh) (j + dv)) eqn:Eoff.
  - apply off_board_true in Eoff. split; [intros []|].
    intros [n [k [Hk [_ [Hrun _]]]]]. destruct (Hrun 1) as [H1 _]; [lia|].
    apply Eoff. replace (i + dh) with (i + 1 * dh) by lia.
    replace (j + dv) with (j + 1 * dv) by lia. exact H1.
  - apply off_board_false in Eoff.
    destruct (walk_ok rows cols b Hrect (walk_fuel rows cols) dh dv Hh Hv Hnz
                (i + dh) (j + dv) [] Eoff (Forall_nil _)
                (walk_fuel_enough rows cols dh dv _ _ Eoff))
      as [ci [cj [fl [Ew _]]]].
    rewrite Ew.
    destruct (walk_spec dh dv _ _ _ _ _ _ _ Eoff Ew)
      as [n [Hn [Ei [Ej [Hrun [Hon [Hfl Hedge]]]]]]].
    assert (Huniq : forall n2,
               1 <= n2 ->
               (forall m, 1 <= m <= n2 ->
                  on_board rows cols (i + m * dh) (j + m * dv) /\
                  cell b (i + m * dh) (j + m * dv) = -1) ->
               on_board rows cols (i + (n2 + 1) * dh) (j + (n2 + 1) * dv) ->
               cell b (i + (n2 + 1) * dh) (j + (n2 + 1) * dv) = 1 ->
               n2 = n /\ cell b ci cj = 1).
    { intros n2 Hn2 Hrun2 Hon2 Hend2.
      destruct (Z_lt_le_dec n2 n) as [Hlt|Hge].
      - exfalso. destruct (Hrun n2) as [_ H1]; [lia|]. same_cell H1 Hend2.
      - destruct (Z.eq_dec n2 n) as [->|Hne].
        + split; [reflexivity|]. subst ci cj.
          replace (i + dh + n * dh) with (i + (n + 1) * dh) by lia.
          replace (j + dv + n * dv) with (j + (n + 1) * dv) by lia.
          exact Hend2.
        + exfalso. destruct (Hrun2 (n + 1)) as [_ H1]; [lia|].
          assert (H2 : cell b ci cj = -1).
          { subst ci cj.
            replace (i + dh + n * dh) with (i + (n + 1) * dh) by lia.
            replace (j + dv + n * dv) with (j + (n + 1) * dv) by lia.
            exact H1. }
          apply (Hedge H2). subst ci cj.
          replace (i + dh + n * dh + dh) with (i + (n + 2) * dh) by lia.
          replace (j + dv + n * dv + dv) with (j + (n + 2) * dv) by lia.
          destruct (Z.eq_dec (n + 2) (n2 + 1)) as [E2|E2].
          * rewrite E2. exact Hon2.
          * apply (Hrun2 (n + 2)). lia. }
    destruct (Z.eqb_spec (cell b ci cj) 1) as [Hone|Hone].
    + rewrite Hfl. split.
      * intros [[]|[m [Hm ->]]]. exists n, (m + 1).
        split; [lia|]. split; [f_equal; lia|]. split; [|split].
        -- intros m' Hm'. destruct (Hrun (m' - 1)) as [H1 H2]; [lia|].
           replace (i + dh + (m' - 1) * dh) with (i + m' * dh) in * by lia.
           replace (j + dv + (m' - 1) * dv) with (j + m' * dv) in * by lia.
           auto.
        -- subst ci cj.
           replace (i + (n + 1) * dh) with (i + dh + n * dh) by lia.
           replace (j + (n + 1) * dv) with (j + dv + n * dv) by lia.
           exact Hon.
        -- subst ci cj.
           replace (i + (n + 1) * dh) with (i + dh + n * dh) by lia.
           replace (j + (n + 1) * dv) with (j + dv + n * dv) by lia.
           exact Hone.
      * intros [n2 [k [Hk [-> [Hrun2 [Hon2 Hend2]]]]]].
        destruct (Huniq n2 ltac:(lia) Hrun2 Hon2 Hend2) as [-> _].
        right. exists (k - 1). split; [lia|]. f_equal; lia.
    + split; [intros []|].
      intros [n2 [k [Hk [_ [Hrun2 [Hon2 Hend2]]]]]].
      destruct (Huniq n2 ltac:(lia) Hrun2 Hon2 Hend2) as [_ H1]. contradiction.
Qed.

End Rule.

(** A loop whose body always returns what [f] computes is a fold of [f]. *)
Lemma for_each_fold {S X} (P : S -> Prop) (f : X -> S -> S) (xs : list X)
      (body : X -> M S unit) :
  (forall x s, In x xs -> P s -> body x s = (Ok tt, f x s) /\ P (f x s)) ->
  forall s, P s ->
    for_each xs body s = (Ok tt, fold_left (fun s x => f x s) xs s) /\
    P (fold_left (fun s x => f x s) xs s).
Proof.
  induction xs as [|x xs IH]; intros Hbody s Hs.
  - split; [reflexivity | exact Hs].
  - destruct (Hbody x s (or_introl eq_refl) Hs) as [E1 P1].
    destruct (IH (fun y t Hy => Hbody y t (or_intror Hy)) (f x s) P1)
      as [E2 P2].
    split; [|exact P2]. cbn [for_each fold_left]. unfold bind. rewrite E1.
    exact E2.
Qed.

Lemma apply_updates_app (us vs : list (coord * cset)) (d : dict) :
  apply_updates (us ++ vs) d = apply_updates vs (apply_updates us d).
Proof. unfold apply_updates. apply fold_left_app. Qed.

Lemma fold_apply_updates {X} (g : X -> list (coord * cset)) (xs : list X)
      (d : dict) :
  fold_left (fun d x => apply_updates (g x) d) xs d
  = apply_updates (flat_map g xs) d.
Proof.
  revert d. induction xs as [|x xs IH]; intros d; [reflexivity|].
  cbn [fold_left flat_map]. rewrite apply_updates_app. apply IH.
Qed.

Lemma fold_add_caps {X} (k : coord) (t : X -> cset) (xs : list X) (d : dict) :
  fold_left (fun d x => add_caps k (t x) d) xs d
  = apply_updates (map (fun x => (k, t x)) xs) d.
Proof.
  unfold apply_updates. revert d.
  induction xs as [|x xs IH]; intros d; [reflexivity|]. apply IH.
Qed.

Lemma lookup_In (k : coord) (v : cset) (d : dict) :
  NoDup (map fst d) -> In (k, v) d -> lookup k d = v.
Proof.
  unfold lookup. induction d as [|[k' v'] d IH]; simpl; [tauto|].
  intros Hnd [E|Hin]; inversion Hnd as [|? ? Hnot Hnd']; subst.
  - inversion E; subst. rewrite coord_eqb_refl. reflexivity.
  - rewrite coord_eqb_neq; [apply IH; assumption|].
    intros ->. apply Hnot. apply in_map_iff. exists (k', v). auto.
Qed.

Lemma lookup_fresh (h w : Z) (k : coord) : lookup k (fresh_dict h w) = [].
Proof.
  assert (H : Forall (fun kv => snd kv = @nil coord) (fresh_dict h w)).
  { apply Forall_forall. intros [k' v] Hin. unfold fresh_dict in Hin.
    apply in_flat_map in Hin. destruct Hin as [x [_ Hin]].
    apply in_map_iff in Hin. destruct Hin as [y [E _]]. inversion E.
    reflexivity. }
  unfold lookup. induction H as [|[k' v] d Hv _ IH]; simpl; [reflexivity|].
  destruct (coord_eqb k k'); [exact Hv | exact IH].
Qed.

Section RuleOfTheGame.

Variables (rows cols : Z) (b : grid).
Hypothesis Hrect : rect rows cols b.

Lemma scan_direction_fold (i j : Z) (d : Z * Z) (md : dict) :
  on_board rows cols i j -> In d directions -> In (i, j) (map fst md) ->
  scan_direction rows cols b i j d md
  = (Ok tt, add_caps (i, j) (dir_caps rows cols b i j d) md).
Proof.
  intros Hij Hd Hkey. destruct (direction_steps d Hd) as [Hh [Hv Hnz]].
  destruct d as [dh dv]. unfold scan_direction, dir_caps. cbn [fst snd] in *.
  destruct (off_board rows cols (i + dh) (j + dv)) eqn:Eoff.
  - rewrite add_caps_nil. reflexivity.
  - apply off_board_false in Eoff.
    destruct (walk_ok rows cols b Hrect (walk_fuel rows cols) dh dv Hh Hv Hnz
                (i + dh) (j + dv) [] Eoff (Forall_nil _)
                (walk_fuel_enough rows cols dh dv _ _ Eoff))
      as [ci [cj [fl [Ew [Hc _]]]]].
    unfold bind, lift, gets, modify. rewrite Ew.
    rewrite (grid_get_on_board rows cols b Hrect ci cj Hc).
    destruct (cell b ci cj =? 1).
    + rewrite (dict_update_add_caps (i, j) fl md Hkey). reflexivity.
    + rewrite add_caps_nil. reflexivity.
Qed.

(** The scan of the board is the series of updates, applied in order. *)
Lemma scan_board_fold (md : dict) :
  map fst md = coords rows cols ->
  scan_board rows cols b md = (Ok tt, apply_updates (updates rows cols b) md).
Proof.
  intros Hkeys. unfold scan_board, updates.
  rewrite <- fold_apply_updates.
  refine (proj1 (for_each_fold (fun md => map fst md = coords rows cols)
                   _ _ _ _ md Hkeys)).
  intros i md1 Hi K1. apply in_range in Hi.
  rewrite <- fold_apply_updates.
  refine (for_each_fold (fun md => map fst md = coords rows cols)
            _ _ _ _ md1 K1).
  intros j md2 Hj K2. apply in_range in Hj.
  assert (Hij : on_board rows cols i j) by (split; assumption).
  unfold bind, lift. rewrite (grid_get_on_board rows cols b Hrect i j Hij).
  destruct (cell b i j =? 0).
  - rewrite <- fold_add_caps.
    refine (for_each_fold (fun md => map fst md = coords rows cols)
              _ _ _ _ md2 K2).
    intros d md3 Hd K3. split.
    + apply scan_direction_fold; [exact Hij | exact Hd |].
      rewrite K3. apply in_coords. exact Hij.
    + rewrite add_caps_keys. exact K3.
  - split; [reflexivity | exact K2].
Qed.

Lemma in_updates (i j : Z) (t : cset) :
  In ((i, j), t) (updates rows cols b) <->
  on_board rows cols i j /\ cell b i j = 0 /\
  exists d, In d directions /\ t = dir_caps rows cols b i j d.
Proof.
  unfold updates. rewrite in_flat_map. split.
  - intros [i' [Hi' H]]. apply in_flat_map in H. destruct H as [j' [Hj' H]].
    apply in_range in Hi'. apply in_range in Hj'.
    destruct (Z.eqb_spec (cell b i' j') 0) as [E0|E0]; [|destruct H].
    apply in_map_iff in H. destruct H as [d [E Hd]].
    inversion E; subst. split; [split; assumption|]. split; [exact E0|].
    exists d. auto.
  - intros [[Hi Hj] [E0 [d [Hd ->]]]]. exists i.
    split; [apply in_range; exact Hi|]. apply in_flat_map. exists j.
    split; [apply in_range; exact Hj|]. rewrite E0.
    change (0 =? 0) with true. cbv iota.
    apply in_map_iff. exists d. auto.
Qed.

(** The dictionary [update_move_dict] computes is the rule of the game:
    it has one key per square, and the set at the key of a square holds,
    once each, exactly the pieces that playing there captures. *)
Lemma compute_move_dict_rule :
  exists md,
    compute_move_dict rows cols b = (Ok tt, md) /\
    map fst md = coords rows cols /\
    forall i j caps,
      In ((i, j), caps) md ->
      NoDup caps /\ forall c, In c caps <-> captured rows cols b i j c.
Proof.
  exists (apply_updates (updates rows cols b) (fresh_dict rows cols)).
  split; [apply scan_board_fold, fresh_dict_keys|].
  split; [rewrite apply_updates_keys; apply fresh_dict_keys|].
  intros i j caps Hin.
  assert (Hkeys : map fst (apply_updates (updates rows cols b)
                                         (fresh_dict rows cols))
                  = coords rows cols)
    by (rewrite apply_updates_keys; apply fresh_dict_keys).
  assert (Hij : on_board rows cols i j).
  { apply in_coords. rewrite <- Hkeys. apply in_map_iff.
    exists ((i, j), caps). auto. }
  assert (Hl : lookup (i, j) (apply_updates (updates rows cols b)
                                            (fresh_dict rows cols)) = caps).
  { apply lookup_In; [rewrite Hkeys; apply NoDup_coords | exact Hin]. }
  rewrite <- Hl. split.
  - apply NoDup_lookup_apply_updates. rewrite lookup_fresh. constructor.
  - intros c. rewrite In_lookup_apply_updates
      by (rewrite fresh_dict_keys; apply in_coords; exact Hij).
    rewrite lookup_fresh. unfold captured. split.
    + intros [[]|[t [Hu Hc]]]. apply in_updates in Hu.
      destruct Hu as [_ [E0 [d [Hd ->]]]]. split; [exact E0|].
      exists d. split; [exact Hd|].
      apply (dir_caps_rule rows cols b Hrect i j d c Hd). exact Hc.
    + intros [E0 [d [Hd Hc]]]. right.
      exists (dir_caps rows cols b i j d). split.
      * apply in_updates. split; [exact Hij|]. split; [exact E0|].
        exists d. auto.
      * apply (dir_caps_rule rows cols b Hrect i j d c Hd). exact Hc.
Qed.

End RuleOfTheGame.

(** ** The effect of a move on the board *)

Lemma rect_paint (h w : Z) (caps : cset) :
  Forall (fun c => on_board h w (fst c) (snd c)) caps ->
  forall b, rect h w b -> rect h w (paint caps b).
Proof.
  unfold paint. induction 1 as [|c caps Hc _ IH]; intros b Hr; simpl;
    [exact Hr|].
  apply IH. apply rect_upd; assumption.
Qed.

(** Painting stores [1] at the squares of [caps] and nowhere else. *)
Lemma cell_paint (h w : Z) (caps : cset) :
  Forall (fun c => on_board h w (fst c) (snd c)) caps ->
  forall b x y, rect h w b -> 0 <= x -> 0 <= y ->
    cell (paint caps b) x y = if cset_mem (x, y) caps then 1 else cell b x y.
Proof.
  unfold paint. induction 1 as [|c caps Hc Hcaps IH]; intros b x y Hr Hx Hy;
    [reflexivity|].
  cbn [fold_left]. rewrite IH by (try apply rect_upd; assumption).
  rewrite (cell_upd h w b Hr _ _ 1 x y Hc Hx Hy).
  unfold cset_mem. cbn [existsb]. fold (cset_mem (x, y) caps).
  unfold coord_eqb at 1. cbn [fst snd].
  destruct (cset_mem (x, y) caps); [rewrite orb_true_r; reflexivity|].
  rewrite orb_false_r. reflexivity.
Qed.

Lemma paint_loop (h w : Z) (caps : cset) :
  Forall (fun c => on_board h w (fst c) (snd c)) caps ->
  forall g, rect h w (board g) ->
    for_each caps (fun c => board_set (fst c) (snd c) 1) g
    = (Ok tt, set_board (paint caps (board g)) g).
Proof.
  unfold paint. induction 1 as [|c caps Hc _ IH]; intros g Hr.
  - destruct g; reflexivity.
  - cbn [for_each fold_left]. unfold bind at 1.
    assert (E1 : board_set (fst c) (snd c) 1 g
                 = (Ok tt, set_board (upd (board g) (fst c) (snd c) 1) g)).
    { unfold board_set, bind, gets, lift, modify.
      rewrite (grid_set_on_board h w (board g) Hr _ _ 1 Hc). reflexivity. }
    rewrite E1. rewrite IH by (apply rect_upd; assumption). reflexivity.
Qed.

(** A move at a square of the board whose capture set is not empty and
    lies on the board returns, and leaves the object [moved]. *)
Lemma make_move_moved (i j : Z) (caps : cset) (g : Game) :
  rect (height g) (width g) (board g) ->
  on_board (height g) (width g) i j ->
  dict_get (i, j) (move_dict g) = Ok caps -> caps <> [] ->
  Forall (fun c => on_board (height g) (width g) (fst c) (snd c)) caps ->
  make_move (Some i) (Some j) g = (Ok tt, moved g i j caps).
Proof.
  intros Hr Hij E Hne Hcaps.
  pose proof Hij as Hoff. apply off_board_false in Hoff.
  assert (Hr1 : rect (height g) (width g) (upd (board g) i j 1))
    by (apply rect_upd; assumption).
  unfold make_move. cbn [is_None andb]. unfold bind at 1.
  rewrite out_of_bounds_int, Hoff. unfold bind at 1, gets.
  unfold bind at 1, lift. rewrite E.
  destruct caps as [|c0 caps0]; [congruence|]. cbn [length Nat.eqb].
  unfold bind at 1.
  assert (E1 : board_set i j 1 g
               = (Ok tt, set_board (upd (board g) i j 1) g)).
  { unfold board_set, bind, gets, lift, modify.
    rewrite (grid_set_on_board _ _ (board g) Hr i j 1 Hij). reflexivity. }
  rewrite E1. unfold bind at 1.
  rewrite (paint_loop _ _ (c0 :: caps0) Hcaps
             (set_board (upd (board g) i j 1) g) Hr1).
  unfold bind at 1, flip_board, modify. cbn [board set_board].
  unfold bind at 1. rewrite update_move_dict_rect.
  - reflexivity.
  - apply rect_flip. apply (rect_paint _ _ _ Hcaps). exact Hr1.
Qed.

Lemma board_moved (g : Game) (i j : Z) (caps : cset) :
  board (moved g i j caps) = flip (paint caps (upd (board g) i j 1)).
Proof. reflexivity. Qed.

(** ** Counting pieces *)

Lemma total_map {A B} (f : B -> Z) (g : A -> B) (l : list A) :
  total f (map g l) = total (fun a => f (g a)) l.
Proof.
  induction l as [|a l IH]; [reflexivity|].
  cbn [map]. rewrite !total_cons, IH. reflexivity.
Qed.

Lemma total_ext {A} (f g : A -> Z) (l : list A) :
  (forall a, f a = g a) -> total f l = total g l.
Proof.
  intros H. induction l as [|a l IH]; [reflexivity|].
  rewrite !total_cons, IH, H. reflexivity.
Qed.

(** A sum over the flipped board is the sum of the weights of the opposite
    values. *)
Lemma total_flip (f : Z -> Z) (b : grid) :
  total (total f) (flip b) = total (total (fun c => f (- c))) b.
Proof.
  unfold flip. rewrite total_map. apply total_ext. intros row.
  apply total_map.
Qed.

Lemma pieces_flip (b : grid) : pieces (flip b) = pieces b.
Proof.
  unfold pieces. rewrite total_flip. apply total_ext. intros row.
  apply total_ext. intros c.
  destruct (Z.eqb_spec (- c) 0), (Z.eqb_spec c 0); try reflexivity; lia.
Qed.

Lemma count_flip (v : Z) (b : grid) : count v (flip b) = count (- v) b.
Proof.
  unfold count, count_row. rewrite total_flip. apply total_ext. intros row.
  apply total_ext. intros c.
  destruct (Z.eqb_spec (- c) v), (Z.eqb_spec c (- v)); try reflexivity; lia.
Qed.

Lemma pieces_upd (h w : Z) (b : grid) (i j v : Z) :
  rect h w b -> on_board h w i j ->
  pieces (upd b i j v)
  = pieces b - (if cell b i j =? 0 then 0 else 1) + (if v =? 0 then 0 else 1).
Proof.
  intros Hr Hij.
  exact (total_upd (fun c => if c =? 0 then 0 else 1) h w b i j v Hr Hij).
Qed.

Lemma count_upd (u h w : Z) (b : grid) (i j v : Z) :
  rect h w b -> on_board h w i j ->
  count u (upd b i j v)
  = count u b - (if cell b i j =? u then 1 else 0) + (if v =? u then 1 else 0).
Proof.
  intros Hr Hij.
  exact (total_upd (fun c => if c =? u then 1 else 0) h w b i j v Hr Hij).
Qed.

Lemma coord_eqb_pair (x y i j : Z) :
  coord_eqb (x, y) (i, j) = (x =? i) && (y =? j).
Proof. reflexivity. Qed.

(** Painting squares that hold pieces changes no count of pieces. *)
Lemma pieces_paint (h w : Z) (caps : cset) :
  forall b, rect h w b ->
    Forall (fun c => on_board h w (fst c) (snd c) /\
                     cell b (fst c) (snd c) <> 0) caps ->
    pieces (paint caps b) = pieces b.
Proof.
  unfold paint. induction caps as [|c caps IH]; intros b Hr Hc; [reflexivity|].
  inversion Hc as [|? ? [Hon Hnz] Hrest]; subst. cbn [fold_left].
  rewrite IH.
  - rewrite (pieces_upd h w b _ _ 1 Hr Hon).
    destruct (Z.eqb_spec (cell b (fst c) (snd c)) 0); [contradiction|].
    change (1 =? 0) with false. cbv iota. lia.
  - apply rect_upd; assumption.
  - eapply Forall_impl; [|exact Hrest]. intros c' [Hon' Hnz'].
    split; [exact Hon'|].
    rewrite (cell_upd h w b Hr _ _ 1 _ _ Hon) by apply Hon'.
    destruct ((fst c' =? fst c) && (snd c' =? snd c)); [lia | exact Hnz'].
Qed.

(** Painting distinct squares that hold enemy pieces turns each of them. *)
Lemma count_paint (h w : Z) (caps : cset) :
  forall b, rect h w b -> NoDup caps ->
    Forall (fun c => on_board h w (fst c) (snd c) /\
                     cell b (fst c) (snd c) = -1) caps ->
    count 1 (paint caps b) = count 1 b + len caps /\
    count (-1) (paint caps b) = count (-1) b - len caps.
Proof.
  unfold paint, len. induction caps as [|c caps IH]; intros b Hr Hnd Hc.
  - simpl. lia.
  - inversion Hc as [|? ? [Hon Hm] Hrest]; subst.
    inversion Hnd as [|? ? Hnot Hnd']; subst. cbn [fold_left].
    destruct (IH (upd b (fst c) (snd c) 1)) as [E1 E2].
    + apply rect_upd; assumption.
    + exact Hnd'.
    + apply Forall_forall. intros c' Hin.
      rewrite Forall_forall in Hrest. destruct (Hrest c' Hin) as [Hon' Hm'].
      split; [exact Hon'|].
      rewrite (cell_upd h w b Hr _ _ 1 _ _ Hon) by apply Hon'.
      destruct (Z.eqb_spec (fst c') (fst c)) as [Ef|Ef];
        destruct (Z.eqb_spec (snd c') (snd c)) as [Es|Es];
        cbn [andb]; try exact Hm'.
      exfalso. apply Hnot. destruct c, c'. simpl in *. subst. exact Hin.
    + rewrite E1, E2.
      rewrite !(count_upd _ h w b _ _ 1 Hr Hon), Hm.
      change (-1 =? 1) with false. change (1 =? 1) with true.
      change (-1 =? -1) with true. change (1 =? -1) with false.
      cbv iota. cbn [length]. lia.
Qed.

(** ** The cache and the rule of the game *)

Lemma captured_facts (h w : Z) (b : grid) (i j : Z) (c : coord) :
  captured h w b i j c ->
  cell b i j = 0 /\ on_board h w (fst c) (snd c) /\
  cell b (fst c) (snd c) = -1.
Proof.
  intros [E0 [d [_ [n [k [Hk [-> [Hrun _]]]]]]]]. split; [exact E0|].
  apply Hrun. exact Hk.
Qed.

Lemma cache_rule (g : Game) (b : grid) :
  rect (height g) (width g) b -> cache_for g b ->
  map fst (move_dict g) = coords (height g) (width g) /\
  forall i j caps,
    In ((i, j), caps) (move_dict g) ->
    NoDup caps /\
    forall c, In c caps <-> captured (height g) (width g) b i j c.
Proof.
  intros Hr [E _].
  destruct (compute_move_dict_rule _ _ _ Hr) as [md [E' [Hk Hrule]]].
  rewrite E in E'. inversion E'; subst md. auto.
Qed.

Lemma NoDup_nonempty_keys (d : dict) :
  NoDup (map fst d) -> NoDup (nonempty_keys d).
Proof.
  unfold nonempty_keys. induction d as [|[k v] d IH]; simpl; intros H;
    [constructor|].
  inversion H as [|? ? Hnot Hnd]; subst.
  destruct (negb (length v =? 0)%nat); simpl; [|auto].
  constructor; [|auto]. intros Hin. apply Hnot.
  apply in_map_iff in Hin. destruct Hin as [kv [Ek Hf]].
  apply filter_In in Hf. apply in_map_iff. exists kv. tauto.
Qed.

Lemma in_nonempty_keys_iff (d : dict) (k : coord) :
  In k (nonempty_keys d) <-> exists v, In (k, v) d /\ v <> [].
Proof.
  unfold nonempty_keys. rewrite in_map_iff. split.
  - intros [[k' v] [Ek Hf]]. simpl in Ek. subst k'.
    apply filter_In in Hf. destruct Hf as [Hin Hne]. exists v.
    split; [exact Hin|]. simpl in Hne. destruct v; [discriminate|discriminate].
  - intros [v [Hin Hne]]. exists (k, v). split; [reflexivity|].
    apply filter_In. split; [exact Hin|]. simpl.
    destruct v; [congruence | reflexivity].
Qed.

(** On a reachable object a square with a non-empty capture set is an empty
    square, and the squares of its capture set hold pieces. *)
Lemma inv_capture_squares (g : Game) (i j : Z) (caps : cset) :
  Inv g -> In ((i, j), caps) (move_dict g) -> caps <> [] ->
  cell (board g) i j = 0 /\
  Forall (fun c => on_board (height g) (width g) (fst c) (snd c) /\
                   cell (board g) (fst c) (snd c) <> 0) caps.
Proof.
  intros I Hin Hne.
  assert (H : exists b, (b = board g \/ b = flip (board g)) /\
                        rect (height g) (width g) b /\ cache_for g b).
  { destruct (inv_cache g I) as [C|C].
    - exists (board g). split; [auto|]. split; [apply (inv_rect g I) | exact C].
    - exists (flip (board g)). split; [auto|].
      split; [apply rect_flip, (inv_rect g I) | exact C]. }
  destruct H as [b [Hb [Hr C]]].
  destruct (cache_rule g b Hr C) as [_ Hrule].
  destruct (Hrule i j caps Hin) as [_ Hcap].
  assert (Hz : forall x y, cell b x y = 0 -> cell (board g) x y = 0).
  { intros x y. destruct Hb as [-> | ->]; [auto|]. rewrite cell_flip. lia. }
  assert (Hnz : forall x y, cell b x y = -1 -> cell (board g) x y <> 0).
  { intros x y. destruct Hb as [-> | ->]; [lia|]. rewrite cell_flip. lia. }
  split.
  - destruct caps as [|c0 caps0]; [congruence|].
    destruct (captured_facts _ _ _ _ _ _ (proj1 (Hcap c0) (or_introl eq_refl)))
      as [E0 _].
    apply Hz. exact E0.
  - apply Forall_forall. intros c Hc.
    destruct (captured_facts _ _ _ _ _ _ (proj1 (Hcap c) Hc)) as [_ [Hon Hm]].
    split; [exact Hon | apply Hnz; exact Hm].
Qed.

(** * Further properties of the engine *)

(** [update_move_dict] implements the rule of the game.  On any object
    whose board is rectangular, whatever its cells hold, the call returns;
    it changes the cache only; the dictionary has one key per square, in
    row-major order; the set at a square holds, once each, exactly the
    pieces that the rule captures for a move there; and [possible_moves]
    lists exactly the squares where the rule captures something. *)
Theorem update_move_dict_rule (g : Game) :
  rect (height g) (width g) (board g) ->
  exists g',
    update_move_dict g = (Ok tt, g') /\
    height g' = height g /\ width g' = width g /\
    board g' = board g /\ curr_player g' = curr_player g /\
    map fst (move_dict g') = coords (height g) (width g) /\
    (forall i j caps,
       In ((i, j), caps) (move_dict g') ->
       NoDup caps /\
       forall c, In c caps <->
                 captured (height g) (width g) (board g) i j c) /\
    (forall i j,
       In (i, j) (possible_moves g') <->
       on_board (height g) (width g) i j /\
       exists c, captured (height g) (width g) (board g) i j c).
Proof.
  intros Hr. exists (refreshed g).
  split; [apply update_move_dict_rect; exact Hr|].
  repeat (split; [reflexivity|]).
  destruct (cache_rule (refreshed g) (board g) Hr (refreshed_cache g Hr))
    as [Hk Hrule].
  split; [exact Hk|]. split; [exact Hrule|].
  intros i j.
  change (possible_moves (refreshed g))
    with (nonempty_keys (move_dict (refreshed g))).
  rewrite in_nonempty_keys_iff. split.
  - intros [caps [Hin Hne]]. split.
    + apply in_coords.
      change (coords (height g) (width g))
        with (coords (height (refreshed g)) (width (refreshed g))).
      rewrite <- Hk. apply in_map_iff. exists ((i, j), caps). auto.
    + destruct caps as [|c caps]; [congruence|]. exists c.
      apply (Hrule i j (c :: caps) Hin). left. reflexivity.
  - intros [Hij [c Hc]].
    destruct (dict_get_key (i, j) (move_dict (refreshed g)))
      as [caps [_ Hin]].
    + rewrite Hk. apply in_coords. exact Hij.
    + exists caps. split; [exact Hin|]. intros ->.
      apply (Hrule i j [] Hin) in Hc. destruct Hc.
Qed.

(** A 3 x 3 board that no game reaches. *)
Lemma update_move_dict_rule_witness :
  rect (height sample3) (width sample3) (board sample3) /\
  exists g',
    update_move_dict sample3 = (Ok tt, g') /\
    height g' = height sample3 /\ width g' = width sample3 /\
    board g' = board sample3 /\ curr_player g' = curr_player sample3 /\
    map fst (move_dict g') = coords (height sample3) (width sample3) /\
    (forall i j caps,
       In ((i, j), caps) (move_dict g') ->
       NoDup caps /\
       forall c, In c caps <->
                 captured (height sample3) (width sample3) (board sample3)
                          i j c) /\
    (forall i j,
       In (i, j) (possible_moves g') <->
       on_board (height sample3) (width sample3) i j /\
       exists c, captured (height sample3) (width sample3) (board sample3)
                          i j c).
Proof.
  assert (Hr : rect (height sample3) (width sample3) (board sample3)).
  { split; [reflexivity|]. repeat constructor. }
  split; [exact Hr|]. apply (update_move_dict_rule sample3 Hr).
Defined.

(** What every reachable object looks like: even positive dimensions, a
    rectangular board of those dimensions whose cells are 0, 1 or -1, a
    player that is 1 or -1, a dictionary with one key per square whose
    capture sets lie on the board, and a list of possible moves that is the
    list of the keys with a non-empty set. *)
Theorem reachable_shape (g : Game) :
  reachable g ->
  (0 < height g /\ height g mod 2 = 0) /\
  (0 < width g /\ width g mod 2 = 0) /\
  rect (height g) (width g) (board g) /\
  cells_ok (board g) /\
  (curr_player g = 1 \/ curr_player g = -1) /\
  dict_ok (height g) (width g) (move_dict g) /\
  possible_moves g = nonempty_keys (move_dict g).
Proof.
  intros Hg. pose proof (reachable_inv g Hg) as I.
  split; [apply (inv_height g I)|]. split; [apply (inv_width g I)|].
  split; [apply (inv_rect g I)|]. split; [apply (inv_cells g I)|].
  split; [apply (inv_player g I)|]. split; [apply (inv_dict_ok g I)|].
  apply (inv_possible_moves g I).
Qed.

Lemma reachable_shape_witness :
  reachable passed4 /\
  (0 < height passed4 /\ height passed4 mod 2 = 0) /\
  (0 < width passed4 /\ width passed4 mod 2 = 0) /\
  rect (height passed4) (width passed4) (board passed4) /\
  cells_ok (board passed4) /\
  (curr_player passed4 = 1 \/ curr_player passed4 = -1) /\
  dict_ok (height passed4) (width passed4) (move_dict passed4) /\
  possible_moves passed4 = nonempty_keys (move_dict passed4).
Proof.
  assert (Hg : reachable passed4).
  { apply (reach_move None None blocked4 (fst (make_move None None blocked4))).
    - apply (reachable_play blocking_line opening4
               (fst (play blocking_line opening4))).
      + apply (reach_new 4 4). vm_compute. reflexivity.
      + vm_compute. reflexivity.
    - vm_compute. reflexivity. }
  split; [exact Hg|]. apply (reachable_shape passed4 Hg).
Defined.

(** The possible moves of a reachable object are distinct empty squares of
    the board. *)
Theorem possible_moves_empty_squares (g : Game) :
  reachable g ->
  NoDup (possible_moves g) /\
  forall i j, In (i, j) (possible_moves g) ->
              on_board (height g) (width g) i j /\
              grid_get (board g) i j = Ok 0.
Proof.
  intros Hg. pose proof (reachable_inv g Hg) as I.
  destruct (inv_dict_ok g I) as [Hk _].
  rewrite (inv_possible_moves g I). split.
  - apply NoDup_nonempty_keys. rewrite Hk. apply NoDup_coords.
  - intros i j Hin.
    assert (Hij : on_board (height g) (width g) i j).
    { apply in_coords. rewrite <- Hk. apply nonempty_keys_key. exact Hin. }
    split; [exact Hij|].
    apply in_nonempty_keys_iff in Hin. destruct Hin as [caps [Hin Hne]].
    rewrite (grid_get_on_board _ _ _ (inv_rect g I) i j Hij).
    destruct (inv_capture_squares g i j caps I Hin Hne) as [-> _].
    reflexivity.
Qed.

Lemma possible_moves_empty_squares_witness :
  reachable opening4 /\
  NoDup (possible_moves opening4) /\
  forall i j, In (i, j) (possible_moves opening4) ->
              on_board (height opening4) (width opening4) i j /\
              grid_get (board opening4) i j = Ok 0.
Proof.
  assert (Hg : reachable opening4)
    by (apply (reach_new 4 4); vm_compute; reflexivity).
  split; [exact Hg|]. apply (possible_moves_empty_squares opening4 Hg).
Defined.

(** A legal move on a reachable object, as a function of the object. *)
Lemma make_move_legal (g : Game) (i j : Z) :
  Inv g -> In (i, j) (possible_moves g) ->
  exists caps,
    In ((i, j), caps) (move_dict g) /\ caps <> [] /\
    on_board (height g) (width g) i j /\
    Forall (fun c => on_board (height g) (width g) (fst c) (snd c)) caps /\
    dict_get (i, j) (move_dict g) = Ok caps /\
    make_move (Some i) (Some j) g = (Ok tt, moved g i j caps).
Proof.
  intros I Hpm. destruct (inv_dict_ok g I) as [Hk _].
  assert (Hij : on_board (height g) (width g) i j).
  { apply in_coords. rewrite <- Hk. apply nonempty_keys_key.
    rewrite <- (inv_possible_moves g I). exact Hpm. }
  destruct (inv_dict_get g i j I Hij) as [caps [E [Hin Hon]]].
  assert (Hne : caps <> []).
  { apply (possible_moves_capture g i j caps I Hin). exact Hpm. }
  exists caps. repeat (split; [assumption|]).
  apply make_move_moved; try assumption. apply (inv_rect g I).
Qed.

(** The effect of a legal move on every square.  On a reachable object, a
    move at a square of [possible_moves] returns; afterwards the square
    played and the squares of its capture set hold [-1], and every other
    square of the board holds the opposite of what it held: nothing but the
    flip has touched it. *)
Theorem move_changes_board (g : Game) (i j : Z) :
  reachable g -> In (i, j) (possible_moves g) ->
  exists caps g',
    dict_get (i, j) (move_dict g) = Ok caps /\
    make_move (Some i) (Some j) g = (Ok tt, g') /\
    forall x y,
      on_board (height g) (width g) x y ->
      grid_get (board g') x y =
      Ok (if coord_eqb (x, y) (i, j) || cset_mem (x, y) caps then -1
          else - cell (board g) x y) /\
      grid_get (board g) x y = Ok (cell (board g) x y).
Proof.
  intros Hg Hpm. pose proof (reachable_inv g Hg) as I.
  destruct (make_move_legal g i j I Hpm)
    as [caps [Hin [Hne [Hij [Hon [E Em]]]]]].
  exists caps, (moved g i j caps). split; [exact E|]. split; [exact Em|].
  intros x y Hxy. pose proof (inv_rect g I) as Hr.
  assert (Hr1 : rect (height g) (width g) (upd (board g) i j 1))
    by (apply rect_upd; assumption).
  split; [|apply (grid_get_on_board _ _ _ Hr); exact Hxy].
  rewrite (grid_get_on_board (height g) (width g)).
  - rewrite board_moved, cell_flip.
    rewrite (cell_paint _ _ caps Hon _ x y Hr1) by apply Hxy.
    rewrite (cell_upd _ _ _ Hr i j 1 x y Hij) by apply Hxy.
    rewrite coord_eqb_pair.
    destruct (cset_mem (x, y) caps); [rewrite orb_true_r; reflexivity|].
    rewrite orb_false_r. destruct ((x =? i) && (y =? j)); reflexivity.
  - rewrite board_moved. apply rect_flip, (rect_paint _ _ _ Hon), Hr1.
  - exact Hxy.
Qed.

Lemma move_changes_board_witness :
  reachable opening4 /\ In (2, 0) (possible_moves opening4) /\
  exists caps g',
    dict_get (2, 0) (move_dict opening4) = Ok caps /\
    make_move (Some 2) (Some 0) opening4 = (Ok tt, g') /\
    forall x y,
      on_board (height opening4) (width opening4) x y ->
      grid_get (board g') x y =
      Ok (if coord_eqb (x, y) (2, 0) || cset_mem (x, y) caps then -1
          else - cell (board opening4) x y) /\
      grid_get (board opening4) x y = Ok (cell (board opening4) x y).
Proof.
  assert (Hg : reachable opening4)
    by (apply (reach_new 4 4); vm_compute; reflexivity).
  assert (Hin : In (2, 0) (possible_moves opening4))
    by (simpl; right; right; left; reflexivity).
  split; [exact Hg|]. split; [exact Hin|].
  apply (move_changes_board opening4 2 0 Hg Hin).
Defined.

(** The number of pieces after a call of [make_move] on an object that
    keeps the invariant. *)
Lemma pieces_after_make_move (g : Game) (i j : option Z) (r : result unit)
      (g' : Game) :
  Inv g -> make_move i j g = (r, g') ->
  height g' = height g /\ width g' = width g /\
  pieces (board g') =
  pieces (board g) + match i, j, r with
                     | Some _, Some _, Ok _ => 1
                     | _, _, _ => 0
                     end.
Proof.
  intros I E.
  destruct i as [i|], j as [j|].
  - destruct (make_move_cases i j g I)
      as [[_ E1]|[[_ [_ E1]]|[Hij [caps [g1 [Ed [Hne [E1 _]]]]]]]];
      try (rewrite E1 in E; inversion E; subst;
           split; [reflexivity|]; split; [reflexivity|]; lia).
    destruct (inv_dict_get g i j I Hij) as [caps' [Ed' [Hin Hon]]].
    rewrite Ed in Ed'. inversion Ed'; subst caps'.
    rewrite (make_move_moved i j caps g (inv_rect g I) Hij Ed Hne Hon) in E.
    inversion E; subst. split; [reflexivity|]. split; [reflexivity|].
    destruct (inv_capture_squares g i j caps I Hin Hne) as [E0 Hnz].
    pose proof (inv_rect g I) as Hr.
    rewrite board_moved, pieces_flip.
    rewrite (pieces_paint (height g) (width g)).
    + rewrite (pieces_upd _ _ _ _ _ 1 Hr Hij), E0.
      change (0 =? 0) with true. change (1 =? 0) with false. cbv iota. lia.
    + apply rect_upd; assumption.
    + eapply Forall_impl; [|exact Hnz]. intros c [Hc1 Hc2].
      split; [exact Hc1|].
      rewrite (cell_upd _ _ _ Hr i j 1 _ _ Hij) by apply Hc1.
      destruct ((fst c =? i) && (snd c =? j)); [lia | exact Hc2].
  - rewrite make_move_None_column in E. inversion E; subst.
    split; [reflexivity|]. split; [reflexivity|].
    destruct ((i <? 0) || (i >? height g' - 1)); lia.
  - rewrite make_move_None_row in E. inversion E; subst.
    split; [reflexivity|]. split; [reflexivity|]. lia.
  - rewrite make_move_pass in E. inversion E; subst.
    split; [reflexivity|]. split; [reflexivity|].
    cbn [board set_curr_player set_board]. rewrite pieces_flip. lia.
Qed.

(** Pieces are never removed.  Whatever call of [make_move] is made on a
    reachable object, the dimensions stay, and the number of non-empty
    squares grows by one if the call was a move by coordinates that
    returned, and stays as it was in every other case (a pass, a refused
    move). *)
Theorem make_move_pieces (g : Game) (i j : option Z) (r : result unit)
        (g' : Game) :
  reachable g -> make_move i j g = (r, g') ->
  height g' = height g /\ width g' = width g /\
  pieces (board g') =
  pieces (board g) + match i, j, r with
                     | Some _, Some _, Ok _ => 1
                     | _, _, _ => 0
                     end.
Proof.
  intros Hg. apply pieces_after_make_move. apply reachable_inv. exact Hg.
Qed.

Lemma make_move_pieces_witness :
  reachable opening4 /\
  make_move (Some 0) (Some 2) opening4
  = (Ok tt, snd (make_move (Some 0) (Some 2) opening4)) /\
  height (snd (make_move (Some 0) (Some 2) opening4)) = height opening4 /\
  width (snd (make_move (Some 0) (Some 2) opening4)) = width opening4 /\
  pieces (board (snd (make_move (Some 0) (Some 2) opening4)))
  = pieces (board opening4) + 1.
Proof.
  assert (Hg : reachable opening4)
    by (apply (reach_new 4 4); vm_compute; reflexivity).
  assert (E : make_move (Some 0) (Some 2) opening4
              = (Ok tt, snd (make_move (Some 0) (Some 2) opening4)))
    by (vm_compute; reflexivity).
  split; [exact Hg|]. split; [exact E|].
  exact (make_move_pieces opening4 (Some 0) (Some 2) (Ok tt) _ Hg E).
Defined.

(** The score after a move made with an up-to-date cache.  On a reachable
    object whose cache is the one of its board, a move at a square of
    [possible_moves] captures [n >= 1] pieces: in the new orientation the
    player to move holds what the mover's enemy held less [n], and the
    enemy of the player to move holds what the mover held plus [n + 1]. *)
Theorem move_score (g : Game) (i j : Z) :
  reachable g -> cache_for g (board g) -> In (i, j) (possible_moves g) ->
  exists caps g',
    dict_get (i, j) (move_dict g) = Ok caps /\
    make_move (Some i) (Some j) g = (Ok tt, g') /\
    1 <= len caps /\
    count 1 (board g') = count (-1) (board g) - len caps /\
    count (-1) (board g') = count 1 (board g) + 1 + len caps.
Proof.
  intros Hg C Hpm. pose proof (reachable_inv g Hg) as I.
  destruct (make_move_legal g i j I Hpm)
    as [caps [Hin [Hne [Hij [Hon [E Em]]]]]].
  exists caps, (moved g i j caps). split; [exact E|]. split; [exact Em|].
  pose proof (inv_rect g I) as Hr.
  destruct (cache_rule g (board g) Hr C) as [_ Hrule].
  destruct (Hrule i j caps Hin) as [Hnd Hcap].
  assert (E0 : cell (board g) i j = 0).
  { destruct caps as [|c0 caps0]; [congruence|].
    apply (captured_facts (height g) (width g) (board g) i j c0).
    apply Hcap. left. reflexivity. }
  assert (Hr1 : rect (height g) (width g) (upd (board g) i j 1))
    by (apply rect_upd; assumption).
  destruct (count_paint (height g) (width g) caps
              (upd (board g) i j 1) Hr1 Hnd) as [E1 E2].
  { apply Forall_forall. intros c Hc.
    destruct (captured_facts _ _ _ _ _ c (proj1 (Hcap c) Hc))
      as [_ [Hc1 Hc2]].
    split; [exact Hc1|].
    rewrite (cell_upd _ _ _ Hr i j 1 _ _ Hij) by apply Hc1.
    destruct (Z.eqb_spec (fst c) i) as [Ei|Ei];
      destruct (Z.eqb_spec (snd c) j) as [Ej|Ej]; cbn [andb]; try exact Hc2.
    subst. rewrite E0 in Hc2. discriminate. }
  split.
  { unfold len. destruct caps; [congruence|]. cbn [length]. lia. }
  rewrite board_moved, !count_flip.
  change (- (1)) with (-1). change (- (-1)) with 1.
  rewrite E1, E2.
  rewrite !(count_upd _ _ _ _ _ _ 1 Hr Hij), E0.
  change (0 =? -1) with false. change (1 =? -1) with false.
  change (0 =? 1) with false. change (1 =? 1) with true. cbv iota. lia.
Qed.

Lemma move_score_witness :
  reachable opening4 /\ cache_for opening4 (board opening4) /\
  In (0, 2) (possible_moves opening4) /\
  exists caps g',
    dict_get (0, 2) (move_dict opening4) = Ok caps /\
    make_move (Some 0) (Some 2) opening4 = (Ok tt, g') /\
    1 <= len caps /\
    count 1 (board g') = count (-1) (board opening4) - len caps /\
    count (-1) (board g') = count 1 (board opening4) + 1 + len caps.
Proof.
  assert (Hg : reachable opening4)
    by (apply (reach_new 4 4); vm_compute; reflexivity).
  assert (C : cache_for opening4 (board opening4))
    by (split; vm_compute; reflexivity).
  assert (Hin : In (0, 2) (possible_moves opening4))
    by (simpl; left; reflexivity).
  split; [exact Hg|]. split; [exact C|]. split; [exact Hin|].
  apply (move_score opening4 0 2 Hg C Hin).
Defined.

(** Two passes in succession leave any object exactly as it was: board,
    player and cache. *)
Theorem double_pass_identity (g : Game) :
  play [(None, None); (None, None)] g = (Ok tt, g).
Proof.
  cbn [play fst snd]. unfold bind, ret.
  rewrite !make_move_pass.
  cbn [height width board curr_player move_dict possible_moves
       set_curr_player set_board].
  rewrite flip_involutive.
  replace (curr_player g * -1 * -1) with (curr_player g) by lia.
  destruct g; reflexivity.
Qed.

(** The answers of [check_winner] on an object that keeps the invariant. *)
Lemma check_winner_answers (g : Game) :
  Inv g ->
  exists r g',
    check_winner g = (Ok r, g') /\
    (r = (false, 0) \/ r = (true, 1) \/ r = (true, -1) \/ r = (true, 0)) /\
    (fst r = true -> possible_moves g = []) /\
    height g' = height g /\ width g' = width g /\
    board g' = board g /\ curr_player g' = curr_player g.
Proof.
  intros I.
  destruct (possible_moves g) eqn:Epm.
  - rewrite (check_winner_no_moves g (inv_rect g I) Epm).
    eexists. exists (refreshed g). split; [reflexivity|].
    split; [|split; [reflexivity|repeat split]].
    destruct (Nat.eqb _ 0); [|auto]. unfold verdict.
    destruct (inv_player g I) as [-> | ->];
      destruct (_ >? 0); auto; destruct (_ <? 0); auto.
  - rewrite check_winner_moves by (rewrite Epm; discriminate).
    exists (false, 0), g. split; [reflexivity|]. split; [auto|].
    split; [discriminate|]. repeat split.
Qed.

(** [check_winner] on a reachable object returns, with one of the four
    answers (False, 0), (True, 1), (True, -1), (True, 0); it leaves the
    dimensions, the board and the player as they were, and the answer is
    True only if the list of possible moves it found was empty. *)
Theorem check_winner_safe (g : Game) :
  reachable g ->
  exists r g',
    check_winner g = (Ok r, g') /\
    (r = (false, 0) \/ r = (true, 1) \/ r = (true, -1) \/ r = (true, 0)) /\
    (fst r = true -> possible_moves g = []) /\
    height g' = height g /\ width g' = width g /\
    board g' = board g /\ curr_player g' = curr_player g.
Proof.
  intros Hg. apply check_winner_answers. apply reachable_inv. exact Hg.
Qed.

Lemma check_winner_safe_witness :
  reachable passed4 /\
  exists r g',
    check_winner passed4 = (Ok r, g') /\
    (r = (false, 0) \/ r = (true, 1) \/ r = (true, -1) \/ r = (true, 0)) /\
    (fst r = true -> possible_moves passed4 = []) /\
    height g' = height passed4 /\ width g' = width passed4 /\
    board g' = board passed4 /\ curr_player g' = curr_player passed4.
Proof.
  assert (Hg : reachable passed4).
  { apply (reach_move None None blocked4 (fst (make_move None None blocked4))).
    - apply (reachable_play blocking_line opening4
               (fst (play blocking_line opening4))).
      + apply (reach_new 4 4). vm_compute. reflexivity.
      + vm_compute. reflexivity.
    - vm_compute. reflexivity. }
  split; [exact Hg|]. apply (check_winner_safe passed4 Hg).
Defined.

(** ** enumerate *)

Lemma combine_seq {A} (d : A) (l : list A) (k : nat) :
  combine (map Z.of_nat (seq k (length l))) l
  = map (fun n => (Z.of_nat (k + n), nth n l d)) (seq 0 (length l)).
Proof.
  revert k. induction l as [|a l IH]; intros k; [reflexivity|].
  cbn [length seq map combine nth]. rewrite Nat.add_0_r. f_equal.
  rewrite IH. rewrite <- seq_shift, map_map. apply map_ext.
  intros n. rewrite Nat.add_succ_r. reflexivity.
Qed.

Lemma enumerate_nth {A} (d : A) (l : list A) :
  enumerate l = map (fun n => (Z.of_nat n, nth n l d)) (seq 0 (length l)).
Proof.
  unfold enumerate, range, len. rewrite Nat2Z.id. apply (combine_seq d l 0).
Qed.

Lemma length_enumerate {A} (l : list A) : length (enumerate l) = length l.
Proof.
  destruct l as [|a l]; [reflexivity|].
  rewrite (enumerate_nth a). rewrite length_map, length_seq. reflexivity.
Qed.

Lemma in_enumerate {A} (d : A) (l : list A) (i : Z) (x : A) :
  In (i, x) (enumerate l) -> 0 <= i < len l /\ x = nth (Z.to_nat i) l d.
Proof.
  rewrite (enumerate_nth d). rewrite in_map_iff. intros [n [E Hn]].
  inversion E; subst. apply in_seq in Hn. unfold len.
  rewrite Nat2Z.id. split; [lia | reflexivity].
Qed.

Lemma nth_enumerate {A} (d : A) (l : list A) (n : nat) (dd : Z * A) :
  (n < length l)%nat -> nth n (enumerate l) dd = (Z.of_nat n, nth n l d).
Proof.
  intros H. rewrite (enumerate_nth d).
  rewrite (nth_indep _ dd (Z.of_nat 0, nth 0 l d))
    by (rewrite length_map, length_seq; exact H).
  rewrite (map_nth (fun n => (Z.of_nat n, nth n l d))).
  rewrite seq_nth by exact H. reflexivity.
Qed.

(** ** The console *)

Lemma say_nil (c : Console) : say [] c = c.
Proof. unfold say. simpl. rewrite app_nil_r. destruct c; reflexivity. Qed.

Lemma say_app (xs ys : list pystr) (c : Console) :
  say (xs ++ ys) c = say ys (say xs c).
Proof. unfold say. simpl. rewrite map_app, app_assoc. reflexivity. Qed.

Lemma fold_say {X} (t : X -> pystr) (l : list X) (s : Scene) :
  fold_left (fun s x => (fst s, say [t x] (snd s))) l s
  = (fst s, say (map t l) (snd s)).
Proof.
  revert s. induction l as [|x l IH]; intros s.
  - simpl. rewrite say_nil. destruct s; reflexivity.
  - cbn [fold_left map]. rewrite IH. cbn [fst snd].
    change (t x :: map t l) with ([t x] ++ map t l).
    rewrite say_app. reflexivity.
Qed.

Lemma bind_ok {S A B} (m : M S A) (k : A -> M S B) (s : S) (a : A) (s' : S) :
  m s = (Ok a, s') -> bind m k s = k a s'.
Proof. intros E. unfold bind. rewrite E. reflexivity. Qed.

(** ** The rows of the two printers *)

Section Rows.

Variables mine theirs hint other : pystr.

Lemma glyph_shown (i j y : Z) (s : Scene) :
  In (i, j) (map fst (move_dict (fst s))) ->
  glyph mine theirs hint other i j y s
  = (Ok (shown mine theirs hint other (move_dict (fst s)) i j y), s).
Proof.
  intros Hkey. unfold glyph, shown.
  destruct (y =? 1); [reflexivity|]. destruct (y =? -1); [reflexivity|].
  destruct (y =? 0); [|reflexivity]. cbn [andb].
  destruct (dict_get_key (i, j) (move_dict (fst s)) Hkey) as [caps [E _]].
  unfold bind, self, gets, lift, lookup. rewrite E. cbn [fst snd].
  destruct s. destruct (negb (length caps =? 0)%nat); reflexivity.
Qed.

Lemma glyph_row_shown (i : Z) (ys : list (Z * Z)) :
  forall acc s,
    (forall jy, In jy ys -> In (i, fst jy) (map fst (move_dict (fst s)))) ->
    glyph_row mine theirs hint other i ys acc s
    = (Ok (acc ++ map (fun jy => shown mine theirs hint other
                                       (move_dict (fst s)) i (fst jy) (snd jy))
                      ys), s).
Proof.
  induction ys as [|jy ys IH]; intros acc s Hkeys.
  - simpl. rewrite app_nil_r. reflexivity.
  - cbn [glyph_row]. unfold bind.
    rewrite glyph_shown by (apply Hkeys; left; reflexivity).
    rewrite IH by (intros jy' H; apply Hkeys; right; exact H).
    cbn [map]. rewrite <- app_assoc. reflexivity.
Qed.

(** The loop over the rows prints one line per row and touches nothing
    else. *)
Lemma rows_loop (h w : Z) (b : grid) (lab : Z -> list pystr) (s : Scene) :
  rect h w b -> map fst (move_dict (fst s)) = coords h w ->
  for_each (enumerate b) (fun ix =>
    cells <- glyph_row mine theirs hint other (fst ix)
                       (enumerate (snd ix)) (lab (fst ix)) ;;
    print (concat cells)) s
  = (Ok tt,
     (fst s,
      say (map (fun ix => row_text mine theirs hint other
                                   (move_dict (fst s)) (fst ix) (snd ix)
                                   (lab (fst ix)))
               (enumerate b))
          (snd s))).
Proof.
  intros Hr Hkeys. rewrite <- fold_say.
  refine (proj1 (for_each_fold (fun s' => fst s' = fst s) _ _ _ _ s eq_refl)).
  intros [i x] s' Hin Hs'. split; [|exact Hs'].
  destruct (in_enumerate [] b i x Hin) as [Hi ->].
  unfold bind. cbn [fst snd].
  rewrite glyph_row_shown.
  - unfold print, modify, row_text, say. rewrite Hs'. reflexivity.
  - intros [j y] Hjy. cbn [fst].
    destruct (in_enumerate 0 _ j y Hjy) as [Hj _].
    rewrite Hs', Hkeys. apply in_coords.
    destruct Hr as [Hlen Hrows]. split; [lia|].
    rewrite (rect_row h w b (conj Hlen Hrows) i) in Hj by lia. exact Hj.
Qed.

End Rows.

(** [print_board] on an object with a rectangular board and a key for
    every square: it prints the lines of [board_text] and changes nothing
    else. *)
Lemma print_board_text (g : Game) (c : Console) :
  rect (height g) (width g) (board g) ->
  map fst (move_dict g) = coords (height g) (width g) ->
  print_board (g, c) = (Ok tt, (g, say (board_text g) c)).
Proof.
  intros Hr Hk. unfold print_board, bind at 1, self at 1, gets at 1.
  cbn [fst snd].
  rewrite (rows_loop Text.o Text.x Text.hint Text.dot (height g) (width g)
             (board g) (fun _ => []) (g, c) Hr Hk).
  reflexivity.
Qed.

(** [fancy_print] under the same conditions, the player being 1 or -1: it
    prints the lines of [fancy_text]; the board is flipped back. *)
Lemma fancy_print_text (g : Game) (c : Console) :
  rect (height g) (width g) (board g) ->
  map fst (move_dict g) = coords (height g) (width g) ->
  fancy_print (g, c) = (Ok tt, (g, say (fancy_text g) c)).
Proof.
  intros Hr Hk. unfold fancy_print, fancy_text, oriented.
  rewrite (bind_ok _ _ (g, c) (curr_player g) (g, c)) by reflexivity.
  destruct (curr_player g =? -1) eqn:Ep.
  - rewrite (bind_ok _ _ (g, c) tt (set_board (flip (board g)) g, c))
      by reflexivity.
    rewrite (bind_ok _ _ _ (width g) (set_board (flip (board g)) g, c))
      by reflexivity.
    rewrite (bind_ok _ _ _ tt
               (set_board (flip (board g)) g,
                say [Text.margin ++ slice_to Text.alpha (2 * width g)] c))
      by reflexivity.
    rewrite (bind_ok _ _ _ (flip (board g))
               (set_board (flip (board g)) g,
                say [Text.margin ++ slice_to Text.alpha (2 * width g)] c))
      by reflexivity.
    rewrite (bind_ok _ _ _ tt _
               (rows_loop [white_circle; 32] [black_circle; 32] [asterisk; 32]
                  [middle_dot; 32] (height g) (width g) (flip (board g))
                  row_label
                  (set_board (flip (board g)) g,
                   say [Text.margin ++ slice_to Text.alpha (2 * width g)] c)
                  (rect_flip _ _ _ Hr) Hk)).
    unfold bind, self, gets, flip_board, modify.
    cbn [fst snd curr_player board move_dict set_board]. rewrite Ep.
    cbn [fst snd curr_player board move_dict set_board].
    rewrite flip_involutive, <- say_app. destruct g; reflexivity.
  - rewrite (bind_ok _ _ (g, c) tt (g, c)) by reflexivity.
    rewrite (bind_ok _ _ _ (width g) (g, c)) by reflexivity.
    rewrite (bind_ok _ _ _ tt
               (g, say [Text.margin ++ slice_to Text.alpha (2 * width g)] c))
      by reflexivity.
    rewrite (bind_ok _ _ _ (board g)
               (g, say [Text.margin ++ slice_to Text.alpha (2 * width g)] c))
      by reflexivity.
    rewrite (bind_ok _ _ _ tt _
               (rows_loop [white_circle; 32] [black_circle; 32] [asterisk; 32]
                  [middle_dot; 32] (height g) (width g) (board g)
                  row_label
                  (g, say [Text.margin ++ slice_to Text.alpha (2 * width g)] c)
                  Hr Hk)).
    unfold bind, self, gets, ret. cbn [fst snd]. rewrite Ep.
    rewrite <- say_app. reflexivity.
Qed.

(** ** The printed text, character by character *)

Lemma concat_singletons {X} (f : X -> Z) (l : list X) :
  concat (map (fun x => [f x]) l) = map f l.
Proof. induction l as [|x l IH]; simpl; [|rewrite IH]; reflexivity. Qed.

Lemma length_concat_pairs {X} (f : X -> Z) (l : list X) :
  length (concat (map (fun x => [f x; 32]) l)) = (2 * length l)%nat.
Proof. induction l as [|x l IH]; simpl; [|rewrite IH]; lia. Qed.

Lemma nth_concat_pairs {X} (f : X -> Z) (l : list X) (dx : X) (k : nat) :
  (k < length l)%nat ->
  nth (2 * k) (concat (map (fun x => [f x; 32]) l)) 0 = f (nth k l dx) /\
  nth (2 * k + 1) (concat (map (fun x => [f x; 32]) l)) 0 = 32.
Proof.
  revert k. induction l as [|x l IH]; intros k H; simpl in H; [lia|].
  destruct k as [|k].
  - simpl. auto.
  - replace (2 * S k)%nat with (S (S (2 * k))) by lia.
    replace (S (S (2 * k)) + 1)%nat with (S (S (2 * k + 1))) by lia.
    cbn [map concat app nth]. apply IH. lia.
Qed.

Lemma str_int_digit (i : Z) : 0 <= i < 10 -> str_int i = [48 + i].
Proof.
  intros H. unfold str_int.
  replace (i <? 0) with false by (symmetry; apply Z.ltb_ge; lia).
  cbn [digits]. replace (i <? 10) with true by (symmetry; apply Z.ltb_lt; lia).
  reflexivity.
Qed.

Lemma str_int_two_digits (i : Z) :
  10 <= i < 100 -> str_int i = [48 + i / 10; 48 + i mod 10].
Proof.
  intros H. unfold str_int.
  replace (i <? 0) with false by (symmetry; apply Z.ltb_ge; lia).
  cbn [digits].
  replace (i <? 10) with false by (symmetry; apply Z.ltb_ge; lia).
  destruct (Z.to_nat i) as [|k] eqn:E; [lia|]. cbn [digits].
  assert (i / 10 < 10) by (apply Z.div_lt_upper_bound; lia).
  replace (i / 10 <? 10) with true by (symmetry; apply Z.ltb_lt; lia).
  reflexivity.
Qed.

(** Up to row 99 the row label is three characters wide. *)
Lemma length_row_label (i : Z) :
  0 <= i < 100 -> length (concat (row_label i)) = 3%nat.
Proof.
  intros H. unfold row_label. destruct (Z.ltb_spec i 10).
  - rewrite str_int_digit by lia. reflexivity.
  - rewrite str_int_two_digits by lia. reflexivity.
Qed.

(** Up to 26 columns the header is as wide as the rows, with the letter of
    column [j] above it. *)
Lemma header_text (w j : Z) :
  0 <= w <= 26 ->
  len (Text.margin ++ slice_to Text.alpha (2 * w)) = 3 + 2 * w /\
  (0 <= j < w ->
   nth (Z.to_nat (3 + 2 * j)) (Text.margin ++ slice_to Text.alpha (2 * w)) 0
   = 97 + j).
Proof.
  intros Hw. unfold slice_to, len.
  replace (0 <=? 2 * w) with true by (symmetry; apply Z.leb_le; lia).
  rewrite length_app, length_firstn.
  change (length Text.margin) with 3%nat.
  change (length Text.alpha) with 52%nat. split; [lia|].
  intros Hj. rewrite app_nth2 by (change (length Text.margin) with 3%nat; lia).
  change (length Text.margin) with 3%nat.
  replace (Z.to_nat (3 + 2 * j) - 3)%nat with (2 * Z.to_nat j)%nat by lia.
  assert (Hf : forall k n l, (k < n)%nat ->
                 nth k (firstn n l) 0 = nth k l 0).
  { intros k n l. revert k n. induction l as [|a l IH]; intros k n Hk.
    - rewrite firstn_nil. reflexivity.
    - destruct n; [lia|]. destruct k; [reflexivity|].
      cbn [firstn nth]. apply IH. lia. }
  rewrite Hf by lia.
  assert (Hall : forallb (fun k => nth (2 * k) Text.alpha 0
                                   =? 97 + Z.of_nat k) (seq 0 26) = true)
    by (vm_compute; reflexivity).
  rewrite forallb_forall in Hall.
  specialize (Hall (Z.to_nat j)). rewrite Z.eqb_eq in Hall.
  rewrite Hall by (apply in_seq; lia). lia.
Qed.

(** On a reachable object the hint of the printers marks exactly the
    squares of [possible_moves]. *)
Lemma hint_possible_moves (g : Game) (i j : Z) :
  Inv g -> on_board (height g) (width g) i j ->
  negb (Nat.eqb (length (lookup (i, j) (move_dict g))) 0)
  = cset_mem (i, j) (possible_moves g).
Proof.
  intros I Hij. destruct (inv_dict_get g i j I Hij) as [caps [E [Hin _]]].
  unfold lookup. rewrite E.
  pose proof (possible_moves_capture g i j caps I Hin) as Hpm.
  destruct (cset_mem (i, j) (possible_moves g)) eqn:Em.
  - apply cset_mem_In in Em. apply Hpm in Em.
    destruct caps; [congruence | reflexivity].
  - destruct caps as [|c0 caps0]; [reflexivity|]. exfalso.
    assert (H : In (i, j) (possible_moves g)) by (apply Hpm; discriminate).
    apply cset_mem_In in H. congruence.
Qed.

Lemma shown_board_char (g : Game) (i j : Z) :
  Inv g -> on_board (height g) (width g) i j ->
  shown Text.o Text.x Text.hint Text.dot (move_dict g) i j
        (cell (board g) i j)
  = [board_char g i j].
Proof.
  intros I Hij. unfold shown, board_char.
  rewrite (hint_possible_moves g i j I Hij).
  destruct (cell (board g) i j =? 1); [reflexivity|].
  destruct (cell (board g) i j =? -1); [reflexivity|].
  destruct (Z.eqb_spec (cell (board g) i j) 0) as [E0|E0]; cbn [andb].
  - destruct (cset_mem (i, j) (possible_moves g)); reflexivity.
  - destruct (cset_mem (i, j) (possible_moves g)) eqn:Em; [|reflexivity].
    exfalso. apply cset_mem_In in Em.
    rewrite (inv_possible_moves g I) in Em.
    apply in_nonempty_keys_iff in Em. destruct Em as [caps [Hin Hne]].
    destruct (inv_capture_squares g i j caps I Hin Hne) as [E _].
    contradiction.
Qed.

Lemma cell_oriented (g : Game) (i j : Z) :
  curr_player g = 1 \/ curr_player g = -1 ->
  cell (oriented g) i j = curr_player g * cell (board g) i j.
Proof.
  unfold oriented. intros [E|E]; rewrite E.
  - change (1 =? -1) with false. cbv iota. lia.
  - change (-1 =? -1) with true. cbv iota. rewrite cell_flip. lia.
Qed.

Lemma rect_oriented (g : Game) :
  rect (height g) (width g) (board g) ->
  rect (height g) (width g) (oriented g).
Proof.
  intros Hr. unfold oriented. destruct (curr_player g =? -1);
    [apply rect_flip|]; exact Hr.
Qed.

Lemma shown_fancy_char (g : Game) (i j : Z) :
  Inv g -> on_board (height g) (width g) i j ->
  shown [white_circle; 32] [black_circle; 32] [asterisk; 32] [middle_dot; 32]
        (move_dict g) i j (cell (oriented g) i j)
  = [fancy_char g i j; 32].
Proof.
  intros I Hij. unfold shown, fancy_char.
  rewrite (cell_oriented g i j (inv_player g I)).
  rewrite (hint_possible_moves g i j I Hij).
  destruct (curr_player g * cell (board g) i j =? 1); [reflexivity|].
  destruct (curr_player g * cell (board g) i j =? -1); [reflexivity|].
  destruct (Z.eqb_spec (curr_player g * cell (board g) i j) 0) as [E0|E0];
    cbn [andb].
  - destruct (cset_mem (i, j) (possible_moves g)); reflexivity.
  - destruct (cset_mem (i, j) (possible_moves g)) eqn:Em; [|reflexivity].
    exfalso. apply cset_mem_In in Em.
    rewrite (inv_possible_moves g I) in Em.
    apply in_nonempty_keys_iff in Em. destruct Em as [caps [Hin Hne]].
    destruct (inv_capture_squares g i j caps I Hin Hne) as [E _].
    rewrite E in E0. lia.
Qed.

(** Row [i] of a text made of one line per row of a board. *)
Lemma nth_rows (t : Z -> list Z -> pystr) (b : grid) (i : Z) :
  0 <= i < len b ->
  nth (Z.to_nat i) (map (fun ix => t (fst ix) (snd ix)) (enumerate b)) []
  = t i (nth (Z.to_nat i) b []).
Proof.
  intros Hi. unfold len in Hi.
  rewrite (nth_indep _ [] ((fun ix : Z * list Z => t (fst ix) (snd ix))
                             (0, [])))
    by (rewrite length_map, length_enumerate; lia).
  pose proof (map_nth (fun ix : Z * list Z => t (fst ix) (snd ix))
                (enumerate b) (0, []) (Z.to_nat i)) as E.
  cbv beta in *. etransitivity; [exact E|].
  rewrite (nth_enumerate [] b) by lia.
  cbn [fst snd]. rewrite Z2Nat.id by lia. reflexivity.
Qed.

Lemma nth_map_enumerate {A} (f : Z -> Z) (row : list A) (dA : A) (k : nat)
      (d : Z) :
  (k < length row)%nat ->
  nth k (map (fun jy => f (fst jy)) (enumerate row)) d = f (Z.of_nat k).
Proof.
  intros Hk.
  rewrite (nth_indep _ d ((fun jy : Z * A => f (fst jy)) (0, dA)))
    by (rewrite length_map, length_enumerate; exact Hk).
  pose proof (map_nth (fun jy : Z * A => f (fst jy)) (enumerate row)
                (0, dA) k) as E.
  cbv beta in *. etransitivity; [exact E|].
  rewrite (nth_enumerate dA) by exact Hk. reflexivity.
Qed.

(** The cells of a row of a rectangular board, as [enumerate] lists them. *)
Lemma row_cells (h w : Z) (b : grid) (i : Z) (jy : Z * Z) :
  rect h w b -> 0 <= i < h ->
  In jy (enumerate (nth (Z.to_nat i) b [])) ->
  on_board h w i (fst jy) /\ snd jy = cell b i (fst jy).
Proof.
  intros Hr Hi Hin. destruct jy as [j y].
  destruct (in_enumerate 0 _ j y Hin) as [Hj Hy].
  rewrite (rect_row h w b Hr i Hi) in Hj. cbn [fst snd].
  split; [split; assumption | exact Hy].
Qed.

(** * Further properties of the printers *)

(** [print_board] on a reachable object returns and leaves the object as
    it was; it prints one line per row of the board, each as long as the
    board is wide, where square (i,j) shows as [o] if it holds 1, [x] if
    -1, [?] if it is one of the possible moves and [.] otherwise. *)
Theorem print_board_shows (g : Game) (c : Console) :
  reachable g ->
  exists texts,
    print_board (g, c) = (Ok tt, (g, say texts c)) /\
    len texts = height g /\
    forall i j, on_board (height g) (width g) i j ->
      len (nth (Z.to_nat i) texts []) = width g /\
      char_at texts i j = board_char g i j.
Proof.
  intros Hg. pose proof (reachable_inv g Hg) as I.
  pose proof (inv_rect g I) as Hr.
  destruct (inv_dict_ok g I) as [Hk _].
  exists (board_text g). split; [apply print_board_text; assumption|].
  split.
  - unfold board_text, len. rewrite length_map, length_enumerate.
    apply Hr.
  - intros i j [Hi Hj]. unfold char_at, board_text.
    rewrite (nth_rows (fun i row => row_text Text.o Text.x Text.hint Text.dot
                                             (move_dict g) i row []))
      by (destruct Hr as [-> _]; exact Hi).
    unfold row_text. cbn [app].
    rewrite (map_ext_in _ (fun jy => [board_char g i (fst jy)])).
    + rewrite concat_singletons. split.
      * unfold len. rewrite length_map, length_enumerate.
        apply (rect_row _ _ _ Hr i Hi).
      * assert (Hlen : (Z.to_nat j < length (nth (Z.to_nat i) (board g) []))%nat).
        { pose proof (rect_row _ _ _ Hr i Hi) as Hw. unfold len in Hw. lia. }
        rewrite (nth_map_enumerate (board_char g i) _ 0 _ 0 Hlen).
        rewrite Z2Nat.id by lia. reflexivity.
    + intros jy Hin.
      destruct (row_cells _ _ _ i jy Hr Hi Hin) as [Hon ->].
      apply shown_board_char; assumption.
Qed.

Lemma print_board_shows_witness :
  reachable opening4 /\
  exists texts,
    print_board (opening4, mkConsole [] [] (fun _ => O) O)
    = (Ok tt, (opening4, say texts (mkConsole [] [] (fun _ => O) O))) /\
    len texts = height opening4 /\
    forall i j, on_board (height opening4) (width opening4) i j ->
      len (nth (Z.to_nat i) texts []) = width opening4 /\
      char_at texts i j = board_char opening4 i j.
Proof.
  assert (Hg : reachable opening4)
    by (apply (reach_new 4 4); vm_compute; reflexivity).
  split; [exact Hg|]. apply (print_board_shows opening4 _ Hg).
Defined.

(** [fancy_print] on a reachable object returns and leaves the object as
    it was, the board being flipped back.  On a board of at most 100 rows
    and 26 columns the header and the rows it prints are all [3 + 2 *
    width] characters long; column [j] has its letter at position
    [3 + 2j] of the header, and in row [i] that position shows the square
    (i,j) by the colour of its piece, whoever is to move: a white circle
    for the first player, a black circle for the second, an asterisk for a
    possible move, a dot otherwise; a space follows. *)
Theorem fancy_print_shows (g : Game) (c : Console) :
  reachable g ->
  exists header rows,
    fancy_print (g, c) = (Ok tt, (g, say (header :: rows) c)) /\
    len rows = height g /\
    (height g <= 100 -> width g <= 26 ->
     len header = 3 + 2 * width g /\
     forall i j, on_board (height g) (width g) i j ->
       nth (Z.to_nat (3 + 2 * j)) header 0 = 97 + j /\
       len (nth (Z.to_nat i) rows []) = 3 + 2 * width g /\
       char_at rows i (3 + 2 * j) = fancy_char g i j /\
       char_at rows i (3 + 2 * j + 1) = 32).
Proof.
  intros Hg. pose proof (reachable_inv g Hg) as I.
  pose proof (inv_rect g I) as Hr.
  pose proof (rect_oriented g Hr) as Hro.
  destruct (inv_dict_ok g I) as [Hk _].
  eexists. eexists. split; [apply fancy_print_text; assumption|].
  split.
  - unfold len. rewrite length_map, length_enumerate. apply Hro.
  - intros Hh Hw.
    destruct (header_text (width g) 0) as [Hlen _];
      [destruct (inv_width g I); lia|].
    split; [exact Hlen|].
    intros i j [Hi Hj].
    split; [apply header_text; [destruct (inv_width g I); lia | exact Hj]|].
    unfold char_at.
    rewrite (nth_rows (fun i row => row_text [white_circle; 32]
                                             [black_circle; 32] [asterisk; 32]
                                             [middle_dot; 32] (move_dict g)
                                             i row (row_label i)))
      by (destruct Hro as [-> _]; exact Hi).
    unfold row_text. rewrite concat_app.
    rewrite (map_ext_in _ (fun jy => [fancy_char g i (fst jy); 32])).
    + pose proof (length_row_label i ltac:(lia)) as Hlab.
      assert (Hlen' : length (enumerate (nth (Z.to_nat i) (oriented g) []))
                      = Z.to_nat (width g)).
      { rewrite length_enumerate.
        pose proof (rect_row _ _ _ Hro i Hi) as Hrow. unfold len in Hrow.
        lia. }
      split; [|split].
      * unfold len. rewrite length_app, Hlab, length_concat_pairs, Hlen'. lia.
      * rewrite app_nth2 by lia. rewrite Hlab.
        replace (Z.to_nat (3 + 2 * j) - 3)%nat with (2 * Z.to_nat j)%nat
          by lia.
        destruct (nth_concat_pairs (fun jy : Z * Z => fancy_char g i (fst jy))
                    (enumerate (nth (Z.to_nat i) (oriented g) [])) (0, 0)
                    (Z.to_nat j)) as [E _]; [lia|].
        rewrite E. rewrite (nth_enumerate 0)
          by (rewrite length_enumerate in Hlen'; lia).
        cbn [fst]. rewrite Z2Nat.id by lia. reflexivity.
      * rewrite app_nth2 by lia. rewrite Hlab.
        replace (Z.to_nat (3 + 2 * j + 1) - 3)%nat
          with (2 * Z.to_nat j + 1)%nat by lia.
        destruct (nth_concat_pairs (fun jy : Z * Z => fancy_char g i (fst jy))
                    (enumerate (nth (Z.to_nat i) (oriented g) [])) (0, 0)
                    (Z.to_nat j)) as [_ E]; [lia|].
        exact E.
    + intros jy Hin.
      destruct (row_cells _ _ _ i jy Hro Hi Hin) as [Hon ->].
      apply shown_fancy_char; assumption.
Qed.

Lemma fancy_print_shows_witness :
  reachable opening4 /\
  exists header rows,
    fancy_print (opening4, mkConsole [] [] (fun _ => O) O)
    = (Ok tt, (opening4,
               say (header :: rows) (mkConsole [] [] (fun _ => O) O))) /\
    len rows = height opening4 /\
    (height opening4 <= 100 -> width opening4 <= 26 ->
     len header = 3 + 2 * width opening4 /\
     forall i j, on_board (height opening4) (width opening4) i j ->
       nth (Z.to_nat (3 + 2 * j)) header 0 = 97 + j /\
       len (nth (Z.to_nat i) rows []) = 3 + 2 * width opening4 /\
       char_at rows i (3 + 2 * j) = fancy_char opening4 i j /\
       char_at rows i (3 + 2 * j + 1) = 32).
Proof.
  assert (Hg : reachable opening4)
    by (apply (reach_new 4 4); vm_compute; reflexivity).
  split; [exact Hg|]. apply (fancy_print_shows opening4 _ Hg).
Defined.

(** A pass does not change the picture: on a reachable object
    [fancy_print] prints the same lines before and after a pass. *)
Theorem fancy_print_after_pass (g : Game) (c : Console) :
  reachable g ->
  exists texts g',
    fancy_print (g, c) = (Ok tt, (g, say texts c)) /\
    make_move None None g = (Ok tt, g') /\
    fancy_print (g', c) = (Ok tt, (g', say texts c)).
Proof.
  intros Hg. pose proof (reachable_inv g Hg) as I.
  pose proof (inv_pass g I) as I'.
  exists (fancy_text g). eexists.
  split; [apply fancy_print_text;
          [apply (inv_rect g I) | apply (inv_dict_ok g I)]|].
  split; [apply make_move_pass|].
  rewrite fancy_print_text;
    [|apply (inv_rect _ I') | apply (inv_dict_ok _ I')].
  f_equal. f_equal. f_equal. unfold fancy_text, oriented.
  cbn [height width board curr_player move_dict set_curr_player set_board].
  rewrite flip_involutive.
  destruct (inv_player g I) as [-> | ->]; reflexivity.
Qed.

Lemma fancy_print_after_pass_witness :
  reachable opening4 /\
  exists texts g',
    fancy_print (opening4, mkConsole [] [] (fun _ => O) O)
    = (Ok tt, (opening4, say texts (mkConsole [] [] (fun _ => O) O))) /\
    make_move None None opening4 = (Ok tt, g') /\
    fancy_print (g', mkConsole [] [] (fun _ => O) O)
    = (Ok tt, (g', say texts (mkConsole [] [] (fun _ => O) O))).
Proof.
  assert (Hg : reachable opening4)
    by (apply (reach_new 4 4); vm_compute; reflexivity).
  split; [exact Hg|]. apply (fancy_print_after_pass opening4 _ Hg).
Defined.

(** ** Strings and the two dictionaries of play_game *)

Lemma pystr_eqb_eq (a b : pystr) : pystr_eqb a b = true <-> a = b.
Proof.
  revert b. induction a as [|x a IH]; intros [|y b]; simpl;
    try (split; [discriminate | discriminate]); [tauto|].
  rewrite andb_true_iff, Z.eqb_eq, IH. split.
  - intros [-> ->]. reflexivity.
  - intros E. inversion E. auto.
Qed.

Lemma pystr_eqb_refl (a : pystr) : pystr_eqb a a = true.
Proof. apply pystr_eqb_eq. reflexivity. Qed.

Lemma pystr_eqb_neq (a b : pystr) : a <> b -> pystr_eqb a b = false.
Proof.
  intros H. destruct (pystr_eqb a b) eqn:E; [|reflexivity].
  apply pystr_eqb_eq in E. contradiction.
Qed.

(** A dictionary built from a list by a key function: a key that is found
    is the key of a member, and a member whose key no other member shares
    is found. *)
Lemma sdict_get_member {X} (f : X -> pystr) (v : X -> Z) (l : list X)
      (key : pystr) (r : Z) :
  sdict_get key (map (fun x => (f x, v x)) l) = Some r ->
  exists x, In x l /\ f x = key /\ v x = r.
Proof.
  induction l as [|x l IH]; simpl; [discriminate|].
  destruct (pystr_eqb key (f x)) eqn:E.
  - intros H. inversion H. apply pystr_eqb_eq in E. exists x. auto.
  - intros H. destruct (IH H) as [x' [Hin Hx']]. exists x'. auto.
Qed.

Lemma sdict_get_found {X} (f : X -> pystr) (v : X -> Z) (l : list X) (x : X) :
  In x l -> (forall x', In x' l -> f x' = f x -> v x' = v x) ->
  sdict_get (f x) (map (fun x => (f x, v x)) l) = Some (v x).
Proof.
  induction l as [|a l IH]; simpl; [tauto|]. intros Hin Huniq.
  destruct (pystr_eqb (f x) (f a)) eqn:E.
  - apply pystr_eqb_eq in E. f_equal. apply Huniq; auto.
  - destruct Hin as [->|Hin]; [rewrite pystr_eqb_refl in E; discriminate|].
    apply IH; [exact Hin|]. intros x' H'. apply Huniq. right. exact H'.
Qed.

Lemma digits_nonempty (fuel : nat) (n : Z) : digits (S fuel) n <> [].
Proof.
  cbn [digits]. destruct (n <? 10); [discriminate|].
  destruct (digits fuel (n / 10)); discriminate.
Qed.

(** From 10 on, [str] gives at least two characters. *)
Lemma str_int_long (n : Z) : 10 <= n -> (2 <= length (str_int n))%nat.
Proof.
  intros H. unfold str_int.
  replace (n <? 0) with false by (symmetry; apply Z.ltb_ge; lia).
  cbn [digits].
  replace (n <? 10) with false by (symmetry; apply Z.ltb_ge; lia).
  destruct (Z.to_nat n) as [|k] eqn:E; [lia|].
  pose proof (digits_nonempty k (n / 10)) as Hne.
  rewrite length_app. destruct (digits (S k) (n / 10)); [congruence|].
  simpl. lia.
Qed.

(** The rows that can be typed: the digits below the second size. *)
Lemma vmoves_get (n ch r : Z) :
  sdict_get [ch] (vmoves n) = Some r <->
  0 <= r < n /\ r < 10 /\ ch = 48 + r.
Proof.
  unfold vmoves. split.
  - intros H. apply (sdict_get_member str_int (fun k => k)) in H.
    destruct H as [k [Hin [Hk <-]]]. apply in_range in Hin.
    destruct (Z_lt_le_dec k 10) as [Hlt|Hge].
    + rewrite str_int_digit in Hk by lia.
      apply (f_equal (hd 0)) in Hk. cbn [hd] in Hk. cbv beta in *. lia.
    + pose proof (str_int_long k Hge) as Hl. rewrite Hk in Hl.
      simpl in Hl. lia.
  - intros [Hr [H10 ->]]. rewrite <- (str_int_digit r) by lia.
    apply (sdict_get_found str_int (fun k => k)).
    + apply in_range. exact Hr.
    + intros k Hin Hk. apply in_range in Hin.
      destruct (Z_lt_le_dec k 10) as [Hlt|Hge].
      * rewrite !str_int_digit in Hk by lia.
        apply (f_equal (hd 0)) in Hk. cbn [hd] in Hk. cbv beta in *. lia.
      * pose proof (str_int_long k Hge) as Hl. rewrite Hk in Hl.
        rewrite str_int_digit in Hl by lia. simpl in Hl. lia.
Qed.

Lemma alphabet_letter (k : nat) :
  (k < 26)%nat -> nth k Text.alphabet 0 = 97 + Z.of_nat k.
Proof.
  intros Hk.
  assert (Hall : forallb (fun k => nth k Text.alphabet 0 =? 97 + Z.of_nat k)
                         (seq 0 26) = true) by (vm_compute; reflexivity).
  rewrite forallb_forall in Hall. apply Z.eqb_eq. apply Hall.
  apply in_seq. lia.
Qed.

Lemma nth_firstn {A} (k n : nat) (l : list A) (d : A) :
  (k < n)%nat -> nth k (firstn n l) d = nth k l d.
Proof.
  revert k n. induction l as [|a l IH]; intros k n Hk.
  - rewrite firstn_nil. reflexivity.
  - destruct n; [lia|]. destruct k; [reflexivity|].
    cbn [firstn nth]. apply IH. lia.
Qed.

(** The dictionary of the letters, entry by entry. *)
Lemma hmoves_letters (n : Z) :
  0 <= n -> hmoves n = map (fun k => ([97 + k], k)) (range (Z.min n 26)).
Proof.
  intros Hn. unfold hmoves, slice_to.
  replace (0 <=? n) with true by (symmetry; apply Z.leb_le; lia).
  rewrite (enumerate_nth 0). rewrite map_map. cbn [fst snd].
  rewrite length_firstn. change (length Text.alphabet) with 26%nat.
  unfold range. rewrite map_map.
  replace (Z.to_nat (Z.min n 26)) with (Nat.min (Z.to_nat n) 26) by lia.
  apply map_ext_in. intros k Hk. apply in_seq in Hk.
  rewrite nth_firstn by lia. rewrite alphabet_letter by lia. reflexivity.
Qed.

(** The columns that can be typed: the letters below the first size. *)
Lemma hmoves_get (n : Z) (key : pystr) (c : Z) :
  0 <= n ->
  (sdict_get key (hmoves n) = Some c <->
   0 <= c < n /\ c < 26 /\ key = [97 + c]).
Proof.
  intros Hn. rewrite (hmoves_letters n Hn). split.
  - intros H. apply (sdict_get_member (fun k => [97 + k]) (fun k => k)) in H.
    destruct H as [k [Hin [Hk <-]]]. apply in_range in Hin. subst key.
    cbv beta in *. split; [lia|]. split; [lia | reflexivity].
  - intros [Hc [H26 ->]].
    apply (sdict_get_found (fun k => [97 + k]) (fun k => k)).
    + apply in_range. lia.
    + intros k _ Hk. apply (f_equal (hd 0)) in Hk. cbn [hd] in Hk.
      cbv beta in *. lia.
Qed.

(** The last character of a string that is not empty, and the rest. *)
Lemma getitem_last (l : pystr) :
  l <> [] ->
  exists x, getitem l (-1) = Ok x /\ l = slice_to l (-1) ++ [x].
Proof.
  intros Hne. destruct (exists_last Hne) as [l' [x ->]]. exists x.
  unfold getitem, slice_to, py_index, len. rewrite length_app. cbn [length].
  change (0 <=? -1) with false. cbn [andb].
  replace (- Z.of_nat (length l' + 1) <=? -1) with true
    by (symmetry; apply Z.leb_le; lia).
  change (-1 <? 0) with true. cbn [andb rbind].
  replace (Z.to_nat (Z.of_nat (length l' + 1) + -1)) with (length l') by lia.
  rewrite nth_error_app2 by lia. rewrite Nat.sub_diag. cbn [nth_error].
  split; [reflexivity|].
  rewrite firstn_app, firstn_all, Nat.sub_diag. cbn [firstn].
  rewrite app_nil_r. reflexivity.
Qed.

(** ** The rounds of play_game *)

(** What the inner loop returns: a pass, or a possible move typed as a
    letter of [hm] followed by a digit of [vm]; it has read at least one
    line unless the input was at its end. *)
Lemma read_move_spec (hm vm : sdict) (pm : Z) (possible : list coord) :
  forall lines wr ord rest wr',
    read_move hm vm pm possible lines wr = (ord, rest, wr') ->
    match ord with
    | Move (None, None) => (length rest < length lines)%nat
    | Move (Some r, Some c) =>
        (length rest < length lines)%nat /\ In (r, c) possible /\
        exists init last,
          In (init ++ [last]) lines /\
          sdict_get [last] vm = Some r /\ sdict_get init hm = Some c
    | Move _ => False
    | Quit => (length rest < length lines)%nat
    | Eof => rest = []
    | Crash _ => False
    end.
Proof.
  induction lines as [|in_move lines IH]; intros wr ord rest wr' E.
  - cbn [read_move] in E. inversion E; subst. reflexivity.
  - assert (Hrec : forall wr0,
               read_move hm vm pm possible lines wr0 = (ord, rest, wr') ->
               match ord with
               | Move (None, None) => (length rest < length (in_move :: lines))%nat
               | Move (Some r, Some c) =>
                   (length rest < length (in_move :: lines))%nat /\
                   In (r, c) possible /\
                   exists init last,
                     In (init ++ [last]) (in_move :: lines) /\
                     sdict_get [last] vm = Some r /\
                     sdict_get init hm = Some c
               | Move _ => False
               | Quit => (length rest < length (in_move :: lines))%nat
               | Eof => rest = []
               | Crash _ => False
               end).
    { intros wr0 E0. specialize (IH wr0 ord rest wr' E0).
      destruct ord as [[[r|] [c|]]| | |]; cbn [length]; try exact IH;
        try lia.
      destruct IH as [Hl [Hin [init [last [Hm Hd]]]]].
      split; [lia|]. split; [exact Hin|]. exists init, last.
      split; [right; exact Hm | exact Hd]. }
    cbn [read_move] in E.
    destruct (pystr_eqb in_move Text.pass);
      [inversion E; subst; cbn [length]; lia|].
    destruct (pystr_eqb in_move Text.quit);
      [inversion E; subst; cbn [length]; lia|].
    destruct (pystr_eqb in_move []) eqn:Eempty; [exact (Hrec _ E)|].
    assert (Hne : in_move <> []).
    { intros ->. discriminate. }
    destruct (getitem_last in_move Hne) as [last [El Hsplit]].
    rewrite El in E.
    destruct (sdict_get [last] vm) as [r|] eqn:Er; [|exact (Hrec _ E)].
    destruct (sdict_get (slice_to in_move (-1)) hm) as [c|] eqn:Ec;
      [|exact (Hrec _ E)].
    destruct (cset_mem (r, c) possible) eqn:Em; [|exact (Hrec _ E)].
    inversion E; subst. split; [cbn [length]; lia|].
    split; [apply cset_mem_In; exact Em|].
    exists (slice_to in_move (-1)), last.
    split; [left; exact Hsplit | auto].
Qed.

Lemma reachable_after_pass (g : Game) :
  reachable g ->
  exists g', make_move None None g = (Ok tt, g') /\ reachable g'.
Proof.
  intros Hg. eexists. split; [apply make_move_pass|].
  eapply reach_move; [exact Hg | apply make_move_pass].
Qed.

Lemma reachable_after_move (g : Game) (i j : Z) :
  reachable g -> In (i, j) (possible_moves g) ->
  exists g', make_move (Some i) (Some j) g = (Ok tt, g') /\ reachable g'.
Proof.
  intros Hg Hin.
  destruct (make_move_legal g i j (reachable_inv g Hg) Hin)
    as [caps [_ [_ [_ [_ [_ Em]]]]]].
  eexists. split; [exact Em|]. eapply reach_move; [exact Hg | exact Em].
Qed.

(** The start of a round on a reachable object: nothing raises, the object
    comes back from [fancy_print] as it went, and only lines are added to
    the console. *)
Lemma round_start_ok (g : Game) (c : Console) :
  reachable g ->
  exists r g1,
    check_winner g = (Ok r, g1) /\
    round_start (g, c)
    = (Ok r, (g1, say ([27; 99] :: fancy_text g ++ [[10]]) c)).
Proof.
  intros Hg. pose proof (reachable_inv g Hg) as I.
  destruct (check_winner_answers g (reachable_inv g Hg)) as [r [g1 [Ec _]]].
  exists r, g1. split; [exact Ec|]. unfold round_start.
  rewrite (bind_ok _ _ (g, c) tt (g, say [[27; 99]] c)) by reflexivity.
  rewrite (bind_ok _ _ _ tt _
             (fancy_print_text g (say [[27; 99]] c) (inv_rect g I)
                (proj1 (inv_dict_ok g I)))).
  rewrite (bind_ok _ _ _ tt
             (g, say [[10]] (say (fancy_text g) (say [[27; 99]] c))))
    by reflexivity.
  unfold self. cbn [fst snd]. rewrite Ec.
  rewrite <- !say_app. reflexivity.
Qed.

(** The random opponent on a reachable object: it passes or makes one of
    the listed moves; nothing raises. *)
Lemma bot_reply_ok (g : Game) (c : Console) :
  reachable g ->
  exists g' c',
    bot_reply (g, c) = (Ok tt, (g', c')) /\ reachable g' /\
    inp c' = inp c /\ out c' = out c.
Proof.
  intros Hg. unfold bot_reply.
  rewrite (bind_ok _ _ (g, c) (possible_moves g) (g, c)) by reflexivity.
  destruct (possible_moves g) as [|m pm] eqn:Epm.
  - cbn [length Nat.eqb]. destruct (reachable_after_pass g Hg) as [g' [E Hg']].
    exists g', c. unfold self. cbn [fst snd]. rewrite E. auto.
  - cbn [length Nat.eqb].
    set (k := Nat.modulo (rng c (draws c)) (length (m :: pm))).
    assert (Hk : (k < length (m :: pm))%nat).
    { apply Nat.mod_upper_bound. cbn [length]. lia. }
    assert (Hin : In (nth k (m :: pm) m) (possible_moves g)).
    { rewrite Epm. apply nth_In. exact Hk. }
    destruct (nth k (m :: pm) m) as [i j] eqn:En.
    destruct (reachable_after_move g i j Hg Hin) as [g' [E Hg']].
    exists g', (mkConsole (out c) (inp c) (rng c) (S (draws c))).
    rewrite (bind_ok _ _ (g, c) (i, j)
               (g, mkConsole (out c) (inp c) (rng c) (S (draws c)))).
    + unfold self. cbn [fst snd]. rewrite E. auto.
    + unfold choice. cbn [fst snd]. fold k. rewrite En. reflexivity.
Qed.

Lemma winner_glyph_ok (r : bool * Z) :
  r = (false, 0) \/ r = (true, 1) \/ r = (true, -1) \/ r = (true, 0) ->
  exists ch, getitem winner_glyphs (snd r) = Ok ch.
Proof.
  intros [-> | [-> | [-> | ->]]]; eexists; vm_compute; reflexivity.
Qed.

(** A line [quit] that is still to be read is not lost: the inner loop
    stops at it or before it. *)
Lemma read_move_quit (hm vm : sdict) (pm : Z) (possible : list coord) :
  forall lines wr ord rest wr',
    read_move hm vm pm possible lines wr = (ord, rest, wr') ->
    In Text.quit lines ->
    match ord with
    | Move _ => In Text.quit rest
    | Eof => False
    | _ => True
    end.
Proof.
  induction lines as [|in_move lines IH]; intros wr ord rest wr' E Hq;
    [destruct Hq|].
  cbn [read_move] in E.
  destruct (pystr_eqb in_move Text.pass) eqn:Epass.
  { apply pystr_eqb_eq in Epass. inversion E; subst.
    destruct Hq as [Hq|Hq]; [discriminate | exact Hq]. }
  destruct (pystr_eqb in_move Text.quit) eqn:Equit;
    [inversion E; subst; exact I|].
  assert (Hq' : In Text.quit lines).
  { destruct Hq as [Hq|Hq]; [|exact Hq]. subst in_move.
    rewrite pystr_eqb_refl in Equit. discriminate. }
  destruct (pystr_eqb in_move []); [exact (IH _ _ _ _ E Hq')|].
  destruct (getitem in_move (-1)) as [last|e|];
    [|inversion E; subst; exact I|inversion E; subst; exact I].
  destruct (sdict_get [last] vm) as [r|]; [|exact (IH _ _ _ _ E Hq')].
  destruct (sdict_get (slice_to in_move (-1)) hm) as [c|];
    [|exact (IH _ _ _ _ E Hq')].
  destruct (cset_mem (r, c) possible); [|exact (IH _ _ _ _ E Hq')].
  inversion E; subst. exact Hq'.
Qed.

(** With more rounds allowed than there are lines to read, the loop ends,
    and it ends by [return], or at the end of an input that had no line
    [quit]. *)
Lemma game_loop_safe (hm vm : sdict) (two_players : bool) (fuel : nat) :
  forall s,
    reachable (fst s) -> (length (inp (snd s)) < fuel)%nat ->
    exists e s',
      game_loop fuel hm vm two_players s = (e, s') /\
      reachable (fst s') /\
      (e = Returned \/ (e = EndOfInput /\ ~ In Text.quit (inp (snd s)))).
Proof.
  induction fuel as [|fuel IH]; intros [g c] Hg Hfuel; [simpl in Hfuel; lia|].
  cbn [fst snd] in *.
  destruct (round_start_ok g c Hg) as [r [g1 [Ec Er]]].
  assert (Hg1 : reachable g1) by (eapply reach_check; eassumption).
  destruct (check_winner_answers g (reachable_inv g Hg)) as [r' [g1' [Ec' [Hr _]]]].
  rewrite Ec in Ec'. inversion Ec'; subst r' g1'. clear Ec'.
  cbn [game_loop]. rewrite Er. destruct r as [done who_won].
  destruct done.
  - destruct (winner_glyph_ok _ Hr) as [ch Ech]. cbn [snd] in Ech.
    rewrite Ech. eexists. eexists. split; [reflexivity|].
    split; [exact Hg1 | left; reflexivity].
  - cbn [fst snd inp out rng draws say].
    destruct (read_move hm vm
                (if curr_player g1 =? 1 then white_circle else black_circle)
                (possible_moves g1) (inp c)
                (out c ++ map Line ([27; 99] :: fancy_text g ++ [[10]])))
      as [[ord rest] wr] eqn:Eread.
    pose proof (read_move_spec _ _ _ _ _ _ _ _ _ Eread) as Hspec.
    pose proof (read_move_quit _ _ _ _ _ _ _ _ _ Eread) as Hquit.
    assert (Hnext : forall g2 c2,
               reachable g2 -> inp c2 = rest ->
               (length rest < length (inp c))%nat ->
               (In Text.quit (inp c) -> In Text.quit rest) ->
               exists e s',
                 game_loop fuel hm vm two_players (g2, c2) = (e, s') /\
                 reachable (fst s') /\
                 (e = Returned \/
                  (e = EndOfInput /\ ~ In Text.quit (inp c)))).
    { intros g2 c2 Hg2 Hinp Hlen Hq.
      destruct (IH (g2, c2)) as [e [s' [E [Hr' He]]]];
        [exact Hg2 | cbn [snd]; rewrite Hinp; lia|].
      exists e, s'. split; [exact E|]. split; [exact Hr'|].
      destruct He as [He|[He Hn]]; [left; exact He|].
      right. split; [exact He|]. intros Hin. apply Hn. cbn [snd].
      rewrite Hinp. apply Hq. exact Hin. }
    destruct ord as [[[i|] [j|]]| | |]; try contradiction.
    + destruct Hspec as [Hlen [Hin _]].
      destruct (reachable_after_move g1 i j Hg1 Hin) as [g2 [Em Hg2]].
      unfold self at 1. cbn [fst snd]. rewrite Em.
      destruct two_players.
      * apply Hnext; auto.
      * destruct (bot_reply_ok g2 (mkConsole wr rest (rng c) (draws c)) Hg2)
          as [g3 [c3 [Eb [Hg3 [Hinp _]]]]].
        rewrite Eb. apply Hnext; auto.
    + destruct (reachable_after_pass g1 Hg1) as [g2 [Em Hg2]].
      unfold self at 1. cbn [fst snd]. rewrite Em.
      destruct two_players.
      * apply Hnext; auto.
      * destruct (bot_reply_ok g2 (mkConsole wr rest (rng c) (draws c)) Hg2)
          as [g3 [c3 [Eb [Hg3 [Hinp _]]]]].
        rewrite Eb. apply Hnext; auto.
    + eexists. eexists. split; [reflexivity|].
      split; [exact Hg1 | left; reflexivity].
    + eexists. eexists. split; [reflexivity|].
      split; [exact Hg1|]. right. split; [reflexivity | exact Hquit].
Qed.

(** A move that the inner loop returns was typed as one line, after lines
    it skipped; one prompt was written for each line read. *)
Lemma read_move_move (hm vm : sdict) (pm : Z) (possible : list coord) :
  forall lines wr r c rest wr',
    read_move hm vm pm possible lines wr = (Move (Some r, Some c), rest, wr') ->
    exists skipped init last,
      lines = skipped ++ (init ++ [last]) :: rest /\
      wr' = wr ++ repeat (Prompt (pm :: Text.move_prompt))
                         (S (length skipped)) /\
      In (r, c) possible /\
      sdict_get [last] vm = Some r /\ sdict_get init hm = Some c.
Proof.
  induction lines as [|in_move lines IH]; intros wr r c rest wr' E;
    [discriminate|].
  assert (Hrec : read_move hm vm pm possible lines
                   (wr ++ [Prompt (pm :: Text.move_prompt)])
                 = (Move (Some r, Some c), rest, wr') ->
                 exists skipped init last,
                   in_move :: lines = skipped ++ (init ++ [last]) :: rest /\
                   wr' = wr ++ repeat (Prompt (pm :: Text.move_prompt))
                                      (S (length skipped)) /\
                   In (r, c) possible /\
                   sdict_get [last] vm = Some r /\
                   sdict_get init hm = Some c).
  { intros E0.
    destruct (IH _ _ _ _ _ E0) as [sk [init [last [Hl [Hw H]]]]].
    exists (in_move :: sk), init, last. split; [rewrite Hl; reflexivity|].
    split; [|exact H]. rewrite Hw, <- app_assoc. reflexivity. }
  cbn [read_move] in E.
  destruct (pystr_eqb in_move Text.pass); [discriminate|].
  destruct (pystr_eqb in_move Text.quit); [discriminate|].
  destruct (pystr_eqb in_move []) eqn:Eempty; [exact (Hrec E)|].
  assert (Hne : in_move <> []) by (intros ->; discriminate).
  destruct (getitem_last in_move Hne) as [last [El Hsplit]].
  rewrite El in E.
  destruct (sdict_get [last] vm) as [r0|] eqn:Er; [|exact (Hrec E)].
  destruct (sdict_get (slice_to in_move (-1)) hm) as [c0|] eqn:Ec;
    [|exact (Hrec E)].
  destruct (cset_mem (r0, c0) possible) eqn:Em; [|exact (Hrec E)].
  inversion E; subst. exists [], (slice_to in_move (-1)), last.
  split; [cbn [app]; rewrite <- Hsplit; reflexivity|].
  split; [reflexivity|]. split; [apply cset_mem_In; exact Em | auto].
Qed.

(** * Further properties of play_game *)

(** What [play_game] accepts as a move.  With the two dictionaries of
    [play_game size_i size_j], a move [(r, c)] leaves the inner loop only
    when it is in the list of possible moves and was typed as one line of
    two characters, the letter of [c] and then the digit of [r]; the lines
    before it were skipped and one prompt was written per line read.  The
    digit, the first coordinate, is bounded by [size_j] and by 10; the
    letter, the second coordinate, by [size_i] and by 26. *)
Theorem read_move_accepts (size_i size_j pm : Z) (possible : list coord)
        (lines : list pystr) (wr : list written) (r c : Z)
        (rest : list pystr) (wr' : list written) :
  0 <= size_i ->
  read_move (hmoves size_i) (vmoves size_j) pm possible lines wr
  = (Move (Some r, Some c), rest, wr') ->
  exists skipped,
    lines = skipped ++ [97 + c; 48 + r] :: rest /\
    wr' = wr ++ repeat (Prompt (pm :: Text.move_prompt))
                       (S (length skipped)) /\
    In (r, c) possible /\
    0 <= r < size_j /\ r < 10 /\ 0 <= c < size_i /\ c < 26.
Proof.
  intros Hi E.
  destruct (read_move_move _ _ _ _ _ _ _ _ _ _ E)
    as [skipped [init [last [Hl [Hw [Hin [Hr Hc]]]]]]].
  apply vmoves_get in Hr. apply (hmoves_get size_i init c Hi) in Hc.
  destruct Hr as [Hr [Hr10 ->]]. destruct Hc as [Hc [Hc26 ->]].
  exists skipped. cbn [app] in Hl. auto 10.
Qed.

(** The move (0,2) of the opening position of the 4 x 4 game, typed [c0]
    after an empty line. *)
Lemma read_move_accepts_witness :
  0 <= 4 /\
  read_move (hmoves 4) (vmoves 4) white_circle (possible_moves opening4)
            [[]; [99; 48]; Text.quit] []
  = (Move (Some 0, Some 2), [Text.quit],
     [Prompt (white_circle :: Text.move_prompt);
      Prompt (white_circle :: Text.move_prompt)]) /\
  exists skipped,
    [[]; [99; 48]; Text.quit] = skipped ++ [97 + 2; 48 + 0] :: [Text.quit] /\
    [Prompt (white_circle :: Text.move_prompt);
     Prompt (white_circle :: Text.move_prompt)]
    = [] ++ repeat (Prompt (white_circle :: Text.move_prompt))
                   (S (length skipped)) /\
    In (0, 2) (possible_moves opening4) /\
    0 <= 0 < 4 /\ 0 < 10 /\ 0 <= 2 < 4 /\ 2 < 26.
Proof.
  assert (H4 : 0 <= 4) by lia.
  assert (E : read_move (hmoves 4) (vmoves 4) white_circle
                (possible_moves opening4) [[]; [99; 48]; Text.quit] []
              = (Move (Some 0, Some 2), [Text.quit],
                 [Prompt (white_circle :: Text.move_prompt);
                  Prompt (white_circle :: Text.move_prompt)]))
    by (vm_compute; reflexivity).
  split; [exact H4|]. split; [exact E|].
  exact (read_move_accepts 4 4 white_circle (possible_moves opening4)
           [[]; [99; 48]; Text.quit] [] 0 2 [Text.quit] _ H4 E).
Defined.

(** Round trip of a move through its name.  A possible move whose first
    coordinate is below [size_j] and 10 and whose second is below [size_i]
    and 26, typed as its letter and its digit, is read back as that move:
    one prompt is written and one line consumed. *)
Theorem read_move_round_trip (size_i size_j pm : Z) (possible : list coord)
        (rest : list pystr) (wr : list written) (r c : Z) :
  0 <= r < size_j -> r < 10 -> 0 <= c < size_i -> c < 26 ->
  In (r, c) possible ->
  read_move (hmoves size_i) (vmoves size_j) pm possible
            ([97 + c; 48 + r] :: rest) wr
  = (Move (Some r, Some c), rest,
     wr ++ [Prompt (pm :: Text.move_prompt)]).
Proof.
  intros Hr Hr10 Hc Hc26 Hin.
  assert (Ev : sdict_get [48 + r] (vmoves size_j) = Some r)
    by (apply vmoves_get; auto).
  assert (Eh : sdict_get [97 + c] (hmoves size_i) = Some c)
    by (apply hmoves_get; [lia | auto]).
  assert (Em : cset_mem (r, c) possible = true)
    by (apply cset_mem_In; exact Hin).
  revert Ev Eh. generalize (48 + r) as d, (97 + c) as a. intros d a Ev Eh.
  cbn [read_move].
  rewrite (pystr_eqb_neq [a; d] Text.pass)
    by (intros H; apply (f_equal (@length Z)) in H; discriminate H).
  rewrite (pystr_eqb_neq [a; d] Text.quit)
    by (intros H; apply (f_equal (@length Z)) in H; discriminate H).
  change (pystr_eqb [a; d] []) with false. cbv iota.
  change (getitem [a; d] (-1)) with (Ok (A:=Z) d).
  change (slice_to [a; d] (-1)) with [a].
  cbv iota. rewrite Ev, Eh, Em. reflexivity.
Qed.

(** The move (0,2) of the opening position of the 4 x 4 game. *)
Lemma read_move_round_trip_witness :
  0 <= 0 < 4 /\ 0 < 10 /\ 0 <= 2 < 4 /\ 2 < 26 /\
  In (0, 2) (possible_moves opening4) /\
  read_move (hmoves 4) (vmoves 4) white_circle (possible_moves opening4)
            ([97 + 2; 48 + 0] :: [Text.quit]) []
  = (Move (Some 0, Some 2), [Text.quit],
     [] ++ [Prompt (white_circle :: Text.move_prompt)]).
Proof.
  assert (Hin : In (0, 2) (possible_moves opening4))
    by (simpl; left; reflexivity).
  split; [lia|]. split; [lia|]. split; [lia|]. split; [lia|].
  split; [exact Hin|].
  apply (read_move_round_trip 4 4 white_circle (possible_moves opening4)
           [Text.quit] [] 0 2); [lia | lia | lia | lia | exact Hin].
Defined.

(** [play_game] on a board of even positive size never fails in the
    engine.  Whatever is typed and whatever the random opponent draws, the
    run ends, within one round more than there are lines of input: by
    [return] (the game is over or [quit] was typed), or, only when the
    input holds no line [quit], by [EOFError] at its end.  The object it
    leaves is one the engine reaches from the constructor. *)
Theorem play_game_ends (size_i size_j : Z) (two_players : bool)
        (c : Console) :
  0 < size_i -> size_i mod 2 = 0 -> 0 < size_j -> size_j mod 2 = 0 ->
  exists e g c',
    play_game size_i size_j two_players c = (e, Some g, c') /\
    reachable g /\
    (e = Returned \/ (e = EndOfInput /\ ~ In Text.quit (inp c))).
Proof.
  intros Hi Hi2 Hj Hj2. unfold play_game.
  pose proof (new_even size_i size_j (conj Hi Hi2) (conj Hj Hj2)) as En.
  rewrite En.
  match type of En with _ = Ok ?g0 => set (g := g0) in * end.
  assert (Hg : reachable g) by (exact (reach_new _ _ _ En)).
  destruct (game_loop_safe (hmoves size_i) (vmoves size_j) two_players
              (S (length (inp c))) (g, c) Hg)
    as [e [[g' c'] [E [Hg' He]]]]; [cbn [snd]; lia|].
  rewrite E. exists e, g', c'. auto.
Qed.

(** The 4 x 4 game against the random opponent, with [c0], an empty line
    and [quit] typed. *)
Lemma play_game_ends_witness :
  0 < 4 /\ 4 mod 2 = 0 /\ 0 < 4 /\ 4 mod 2 = 0 /\
  exists e g c',
    play_game 4 4 false typed_c0 = (e, Some g, c') /\
    reachable g /\
    (e = Returned \/ (e = EndOfInput /\ ~ In Text.quit (inp typed_c0))).
Proof.
  split; [lia|]. split; [reflexivity|]. split; [lia|].
  split; [reflexivity|].
  apply (play_game_ends 4 4 false typed_c0); [lia | reflexivity | lia
                                              | reflexivity].
Defined.



(** ** The length of a game *)

Lemma total_bounded {A} (f : A -> Z) (k : Z) (l : list A) :
  Forall (fun a => f a <= k) l -> total f l <= k * len l.
Proof.
  unfold len. induction 1 as [|a l Ha _ IH]; [simpl; lia|].
  rewrite total_cons. cbn [length]. lia.
Qed.

Lemma pieces_le (h w : Z) (b : grid) : rect h w b -> pieces b <= h * w.
Proof.
  intros [Hlen Hrows]. unfold pieces. rewrite <- Hlen, Z.mul_comm.
  apply total_bounded. eapply Forall_impl; [|exact Hrows].
  intros row Hrow. cbv beta in *. rewrite <- Hrow.
  replace (len row) with (1 * len row) by lia. apply total_bounded.
  apply Forall_forall. intros c _. destruct (c =? 0); lia.
Qed.

Lemma new_pieces (h w : Z) (g : Game) :
  new h w = Ok g -> height g = h /\ width g = w /\ pieces (board g) = 4.
Proof.
  intros E.
  destruct (Z.eq_dec (h mod 2) 0) as [H2|H2];
    [|rewrite new_odd in E by auto; discriminate].
  destruct (Z.eq_dec (w mod 2) 0) as [W2|W2];
    [|rewrite new_odd in E by auto; discriminate].
  destruct (Z_lt_le_dec 0 h) as [Hh|Hh];
    [|rewrite new_even_empty in E by (auto; lia); discriminate].
  destruct (Z_lt_le_dec 0 w) as [Hw|Hw];
    [|rewrite new_even_empty in E by (auto; lia); discriminate].
  rewrite (new_even h w (conj Hh H2) (conj Hw W2)) in E.
  inversion E; subst g. split; [reflexivity|]. split; [reflexivity|].
  change (pieces (opening_board h w) = 4). unfold pieces.
  rewrite (total_opening h w (conj Hh H2) (conj Hw W2)) by reflexivity.
  reflexivity.
Qed.

Lemma play_pieces (moves : list (option Z * option Z)) :
  forall g g',
    Inv g -> play moves g = (Ok tt, g') ->
    Inv g' /\ height g' = height g /\ width g' = width g /\
    pieces (board g') = pieces (board g) + placed moves.
Proof.
  induction moves as [|m moves IH]; intros g g' I E.
  - inversion E; subst. split; [exact I|]. split; [reflexivity|].
    split; [reflexivity|]. change (placed []) with 0. lia.
  - cbn [play] in E. unfold bind in E.
    destruct (make_move (fst m) (snd m) g) as [r1 g1] eqn:E1.
    destruct r1 as [u| |]; try discriminate.
    pose proof (inv_make_move _ _ _ _ _ I E1) as I1.
    destruct (pieces_after_make_move g _ _ _ _ I E1) as [Hh [Hw Hp]].
    destruct (IH g1 g' I1 E) as [I' [Hh' [Hw' Hp']]].
    split; [exact I'|]. split; [congruence|]. split; [congruence|].
    rewrite Hp', Hp. unfold placed. rewrite total_cons.
    destruct m as [[i|] [j|]]; cbn [fst snd]; lia.
Qed.

(** * Further properties of a whole game *)

(** The length of a game.  Whatever sequence of calls of [make_move] is
    made on a new game of height [h] and width [w], if they all return then
    the calls by coordinates among them are as many as the pieces on the
    board less the four of the opening, and so at most [h * w - 4]: after
    that many moves every further call by coordinates is refused. *)
Theorem game_length (h w : Z) (g0 g : Game)
        (moves : list (option Z * option Z)) :
  new h w = Ok g0 -> play moves g0 = (Ok tt, g) ->
  placed moves = pieces (board g) - 4 /\ placed moves <= h * w - 4.
Proof.
  intros En Ep. pose proof (inv_new h w g0 En) as I0.
  destruct (new_pieces h w g0 En) as [Hh [Hw H4]].
  destruct (play_pieces moves g0 g I0 Ep) as [I [Hh' [Hw' Hp]]].
  pose proof (pieces_le _ _ _ (inv_rect g I)) as Hle.
  rewrite Hh', Hw', Hh, Hw in Hle. lia.
Qed.

(** Five moves of the 4 x 4 game. *)
Lemma game_length_witness :
  new 4 4 = Ok opening4 /\
  play blocking_line opening4 = (Ok tt, blocked4) /\
  placed blocking_line = pieces (board blocked4) - 4 /\
  placed blocking_line <= 4 * 4 - 4.
Proof.
  assert (En : new 4 4 = Ok opening4) by (vm_compute; reflexivity).
  assert (Ep : play blocking_line opening4 = (Ok tt, blocked4))
    by (vm_compute; reflexivity).
  split; [exact En|]. split; [exact Ep|].
  exact (game_length 4 4 opening4 blocked4 blocking_line En Ep).
Defined.
